(** * Dijkstra's algorithm with step recording

    A shallow embedding of [Dijkastras_Algorithm.py]: the tracer
    [dijkstra_with_steps] and the part of the player that decides what a
    frame shows ([update] and [draw_graph], up to the calls into the
    drawing library).

    Python values are modelled as follows.
    - Vertices and edge weights are integers ([Z]), as in the module's
      [graph] literal.
    - A distance is an integer or [float('infinity')]: the type [dist].
    - The dictionaries [graph] and [distances] are finite maps ([gmap]); the
      set [visited_nodes] is a finite set ([gset]).
    - [heapq] is taken by its contract: the heap is a bag of
      [(distance, node)] tuples, [heappush] adds one item and [heappop]
      removes and returns the least item in Python's tuple order.
    - A failing dictionary lookup raises [KeyError], and the conversion to
      text of an integer of more than 4300 digits raises [ValueError]; the
      outcome of a call is a returned value or a raised exception. *)

From stdpp Require Import gmap list sorting strings.
From Stdlib Require Import ZArith Lia DecimalString.

Local Open Scope Z_scope.

(** ** Data model *)

(** A distance value: a Python [int], or [float('infinity')]. *)
Inductive dist : Type :=
  | Fin (z : Z)
  | Inf.

#[global] Instance dist_eq_dec : EqDecision dist.
Proof. solve_decision. Defined.

(** [distance < distances[neighbor]] with an integer on the left. *)
Definition dist_ltb (distance : Z) (d : dist) : bool :=
  match d with
  | Fin z => distance <? z
  | Inf => true
  end.

(** The strict order of Python numbers restricted to [dist]. *)
Definition dist_lt (a b : dist) : Prop :=
  match a, b with
  | Fin x, Fin y => x < y
  | Fin _, Inf => True
  | Inf, _ => False
  end.

Definition dist_le (a b : dist) : Prop := a = b ∨ dist_lt a b.

(** The adjacency list: vertex ↦ list of [(neighbor, weight)]. *)
Abbreviation Graph := (gmap Z (list (Z * Z))).
Abbreviation DistanceTable := (gmap Z dist).
Abbreviation VisitedSet := (gset Z).

(** One recorded step: the dictionary built at lines 62-67 and 78-83. *)
Record step_info : Type := mk_step {
  visited_node : Z;
  visited_path : option (Z * Z);
  distances : DistanceTable;
  visited_nodes_set : VisitedSet
}.

(** The exceptions of the program: [KeyError] from a dictionary lookup, in
    the tracer and in the player; [ValueError] from the conversion of an
    integer to text, in the player. *)
Inductive exn : Type :=
  | KeyError (key : Z)
  | ValueError.

Inductive outcome (A : Type) : Type :=
  | Returned (a : A)
  | Raised (e : exn)
  | OutOfFuel.
Arguments Returned {A} a.
Arguments Raised {A} e.
Arguments OutOfFuel {A}.

(** ** The priority queue ([heapq]) *)

Abbreviation entry := (Z * Z)%type.

(** Python's [<=] on 2-tuples of integers. *)
Definition entry_leb (x y : entry) : bool :=
  (x.1 <? y.1) || ((x.1 =? y.1) && (x.2 <=? y.2)).

Definition heappush (h : list entry) (x : entry) : list entry := x :: h.

Fixpoint heappop (h : list entry) : option (entry * list entry) :=
  match h with
  | [] => None
  | x :: h' =>
      match heappop h' with
      | None => Some (x, [])
      | Some (m, r) =>
          if entry_leb x m then Some (x, h') else Some (m, x :: r)
      end
  end.

(** ** The tracer *)

(** The local variables of [dijkstra_with_steps]. *)
Record state : Type := mk_state {
  st_distances : DistanceTable;
  st_priority_queue : list entry;
  st_visited_nodes : VisitedSet;
  st_animation_steps : list step_info
}.

(** Lines 71-84: the body of [for neighbor, weight in graph[current_node]]
    for one edge. [distances[neighbor]] raises [KeyError] when [neighbor]
    is not a key of [distances]. *)
Definition relax (current_node current_distance : Z) (edge : Z * Z)
    (st : state) : exn + state :=
  let '(neighbor, weight) := edge in
  if decide (neighbor ∈ st_visited_nodes st) then inr st
  else
    let distance := current_distance + weight in
    match st_distances st !! neighbor with
    | None => inl (KeyError neighbor)
    | Some dn =>
        if dist_ltb distance dn then
          let distances' := <[neighbor := Fin distance]> (st_distances st) in
          let edge_step_info :=
            {| visited_node := current_node;
               visited_path := Some (current_node, neighbor);
               distances := distances';
               visited_nodes_set := st_visited_nodes st |} in
          inr {| st_distances := distances';
                 st_priority_queue :=
                   heappush (st_priority_queue st) (distance, neighbor);
                 st_visited_nodes := st_visited_nodes st;
                 st_animation_steps :=
                   st_animation_steps st ++ [edge_step_info] |}
        else inr st
    end.

(** Line 70: the [for] loop over the edges of [current_node]. *)
Fixpoint for_neighbors (current_node current_distance : Z)
    (edges : list (Z * Z)) (st : state) : exn + state :=
  match edges with
  | [] => inr st
  | edge :: rest =>
      match relax current_node current_distance edge st with
      | inl e => inl e
      | inr st' => for_neighbors current_node current_distance rest st'
      end
  end.

(** What one iteration of the [while] loop does. *)
Inductive iteration : Type :=
  | Break (result : DistanceTable * list step_info)
  | Continue (st : state)
  | Raise (e : exn).

(** Lines 56-57: a popped item whose node is already visited is dropped. *)
Definition discard (rest : list entry) (st : state) : state :=
  {| st_distances := st_distances st;
     st_priority_queue := rest;
     st_visited_nodes := st_visited_nodes st;
     st_animation_steps := st_animation_steps st |}.

(** Lines 59-68: the popped node is added to [visited_nodes] and the step
    is recorded, with copies of [distances] and [visited_nodes]. *)
Definition settle (current_node : Z) (rest : list entry) (st : state)
    : state :=
  let visited' := {[current_node]} ∪ st_visited_nodes st in
  let step_info :=
    {| visited_node := current_node;
       visited_path := None;
       distances := st_distances st;
       visited_nodes_set := visited' |} in
  {| st_distances := st_distances st;
     st_priority_queue := rest;
     st_visited_nodes := visited';
     st_animation_steps := st_animation_steps st ++ [step_info] |}.

(** Lines 53-84: the loop test and one run of the loop body.
    [graph[current_node]] raises [KeyError] when [current_node] is not a
    key of [graph]. *)
Definition loop_body (graph : Graph) (st : state) : iteration :=
  match heappop (st_priority_queue st) with
  | None => Break (st_distances st, st_animation_steps st)
  | Some ((current_distance, current_node), rest) =>
      if decide (current_node ∈ st_visited_nodes st) then
        Continue (discard rest st)
      else
        match graph !! current_node with
        | None => Raise (KeyError current_node)
        | Some edges =>
            match for_neighbors current_node current_distance edges
                    (settle current_node rest st) with
            | inl e => Raise e
            | inr st' => Continue st'
            end
        end
  end.

Fixpoint while_loop (fuel : nat) (graph : Graph) (st : state)
    : outcome (DistanceTable * list step_info) :=
  match fuel with
  | O => OutOfFuel
  | S fuel' =>
      match loop_body graph st with
      | Break result => Returned result
      | Continue st' => while_loop fuel' graph st'
      | Raise e => Raised e
      end
  end.

(** The outcome of the first [n] iterations of the loop. *)
Fixpoint iterations (n : nat) (graph : Graph) (st : state) : iteration :=
  match n with
  | O => Continue st
  | S n' =>
      match loop_body graph st with
      | Continue st' => iterations n' graph st'
      | r => r
      end
  end.

(** Number of edges of the graph. *)
Definition edge_count (graph : Graph) : nat :=
  map_fold (λ _ edges n, (length edges + n)%nat) 0%nat graph.

(** Lines 45-51: the initial values of the local variables. *)
Definition initial_state (graph : Graph) (start_node : Z) : state :=
  {| st_distances := <[start_node := Fin 0]> ((λ _, Inf) <$> graph);
     st_priority_queue := [(0, start_node)];
     st_visited_nodes := ∅;
     st_animation_steps := [] |}.

(** Every iteration pops one item and at most [1 + edge_count graph] items
    are ever pushed, so this many iterations always reach the end of the
    loop (lemma [while_loop_enough_fuel] below). *)
Definition dijkstra_with_steps (graph : Graph) (start_node : Z)
    : outcome (DistanceTable * list step_info) :=
  while_loop (S (S (edge_count graph))) graph (initial_state graph start_node).

(** The local variables after [n] iterations that all continue. *)
Definition state_after (n : nat) (graph : Graph) (start_node : Z) : state :=
  match iterations n graph (initial_state graph start_node) with
  | Continue st => st
  | _ => initial_state graph start_node
  end.

(** The module's sample graph (lines 9-18). *)
Definition graph : Graph :=
  list_to_map
    [ (0, [(1, 6); (2, 1)]);
      (1, [(0, 6); (3, 1); (5, 8)]);
      (2, [(0, 1); (4, 3)]);
      (3, [(1, 1); (5, 5)]);
      (4, [(2, 3); (5, 4); (7, 3)]);
      (5, [(1, 8); (3, 5); (4, 4); (6, 5)]);
      (6, [(5, 5); (7, 4)]);
      (7, [(4, 3); (6, 4)]) ].

(** ** The tracer with object identities

    In Python [distances] and [visited_nodes] are mutable objects:
    [distances[neighbor] = distance] and [visited_nodes.add(current_node)]
    change them in place, and a recorded step holds references to the
    objects that [dict(distances)] and [set(visited_nodes)] create. This
    second model of [dijkstra_with_steps] keeps the objects in a store, to
    tell a copy from a reference to the live table. *)

Abbreviation loc := positive.

Inductive object : Type :=
  | DictObj (items : DistanceTable)
  | SetObj (elems : VisitedSet).

Abbreviation store := (gmap loc object).

(** The content of the dictionary, or of the set, at a location. *)
Definition read_dict (σ : store) (l : loc) : DistanceTable :=
  match σ !! l with
  | Some (DictObj items) => items
  | _ => ∅
  end.

Definition read_set (σ : store) (l : loc) : VisitedSet :=
  match σ !! l with
  | Some (SetObj elems) => elems
  | _ => ∅
  end.

(** A new object, at a location that is not in use. *)
Definition alloc (σ : store) (o : object) : loc * store :=
  let l := fresh (dom σ) in (l, <[l := o]> σ).

(** [d[k] = v] and [s.add(x)]: the object at the location changes. *)
Definition dict_setitem (σ : store) (l : loc) (k : Z) (v : dist) : store :=
  <[l := DictObj (<[k := v]> (read_dict σ l))]> σ.

Definition set_add (σ : store) (l : loc) (x : Z) : store :=
  <[l := SetObj ({[x]} ∪ read_set σ l)]> σ.

(** A recorded step, with the references it holds. *)
Record step_ref : Type := mk_step_ref {
  ref_visited_node : Z;
  ref_visited_path : option (Z * Z);
  ref_distances : loc;
  ref_visited_nodes_set : loc
}.

(** The local variables; [distances] and [visited_nodes] are references. *)
Record rstate : Type := mk_rstate {
  rs_store : store;
  rs_distances : loc;
  rs_priority_queue : list entry;
  rs_visited_nodes : loc;
  rs_animation_steps : list step_ref
}.

(** Lines 62-68 and 78-84: [dict(distances)] and [set(visited_nodes)]
    create two new objects, and the step that refers to them is appended
    to [animation_steps]. *)
Definition record_step (current_node : Z) (visited_path : option (Z * Z))
    (rst : rstate) : rstate :=
  let '(l1, σ1) :=
    alloc (rs_store rst)
      (DictObj (read_dict (rs_store rst) (rs_distances rst))) in
  let '(l2, σ2) :=
    alloc σ1 (SetObj (read_set σ1 (rs_visited_nodes rst))) in
  {| rs_store := σ2;
     rs_distances := rs_distances rst;
     rs_priority_queue := rs_priority_queue rst;
     rs_visited_nodes := rs_visited_nodes rst;
     rs_animation_steps :=
       rs_animation_steps rst ++
       [ {| ref_visited_node := current_node;
            ref_visited_path := visited_path;
            ref_distances := l1;
            ref_visited_nodes_set := l2 |} ] |}.

(** Lines 71-84. *)
Definition relax_ref (current_node current_distance : Z) (edge : Z * Z)
    (rst : rstate) : exn + rstate :=
  let '(neighbor, weight) := edge in
  if decide (neighbor ∈ read_set (rs_store rst) (rs_visited_nodes rst)) then
    inr rst
  else
    let distance := current_distance + weight in
    match read_dict (rs_store rst) (rs_distances rst) !! neighbor with
    | None => inl (KeyError neighbor)
    | Some dn =>
        if dist_ltb distance dn then
          inr (record_step current_node (Some (current_node, neighbor))
                 {| rs_store :=
                      dict_setitem (rs_store rst) (rs_distances rst)
                        neighbor (Fin distance);
                    rs_distances := rs_distances rst;
                    rs_priority_queue :=
                      heappush (rs_priority_queue rst) (distance, neighbor);
                    rs_visited_nodes := rs_visited_nodes rst;
                    rs_animation_steps := rs_animation_steps rst |})
        else inr rst
    end.

(** Line 70. *)
Fixpoint for_neighbors_ref (current_node current_distance : Z)
    (edges : list (Z * Z)) (rst : rstate) : exn + rstate :=
  match edges with
  | [] => inr rst
  | edge :: rest =>
      match relax_ref current_node current_distance edge rst with
      | inl e => inl e
      | inr rst' => for_neighbors_ref current_node current_distance rest rst'
      end
  end.

Inductive ref_iteration : Type :=
  | RefBreak (result : store * loc * list step_ref)
  | RefContinue (rst : rstate)
  | RefRaise (e : exn).

(** Lines 56-57. *)
Definition discard_ref (rest : list entry) (rst : rstate) : rstate :=
  {| rs_store := rs_store rst;
     rs_distances := rs_distances rst;
     rs_priority_queue := rest;
     rs_visited_nodes := rs_visited_nodes rst;
     rs_animation_steps := rs_animation_steps rst |}.

(** Lines 59-68. *)
Definition settle_ref (current_node : Z) (rest : list entry) (rst : rstate)
    : rstate :=
  record_step current_node None
    {| rs_store := set_add (rs_store rst) (rs_visited_nodes rst) current_node;
       rs_distances := rs_distances rst;
       rs_priority_queue := rest;
       rs_visited_nodes := rs_visited_nodes rst;
       rs_animation_steps := rs_animation_steps rst |}.

(** Lines 53-84. *)
Definition loop_body_ref (graph : Graph) (rst : rstate) : ref_iteration :=
  match heappop (rs_priority_queue rst) with
  | None =>
      RefBreak (rs_store rst, rs_distances rst, rs_animation_steps rst)
  | Some ((current_distance, current_node), rest) =>
      if decide (current_node
                 ∈ read_set (rs_store rst) (rs_visited_nodes rst)) then
        RefContinue (discard_ref rest rst)
      else
        match graph !! current_node with
        | None => RefRaise (KeyError current_node)
        | Some edges =>
            match for_neighbors_ref current_node current_distance edges
                    (settle_ref current_node rest rst) with
            | inl e => RefRaise e
            | inr rst' => RefContinue rst'
            end
        end
  end.

Fixpoint while_loop_ref (fuel : nat) (graph : Graph) (rst : rstate)
    : outcome (store * loc * list step_ref) :=
  match fuel with
  | O => OutOfFuel
  | S fuel' =>
      match loop_body_ref graph rst with
      | RefBreak result => Returned result
      | RefContinue rst' => while_loop_ref fuel' graph rst'
      | RefRaise e => Raised e
      end
  end.

Fixpoint iterations_ref (n : nat) (graph : Graph) (rst : rstate)
    : ref_iteration :=
  match n with
  | O => RefContinue rst
  | S n' =>
      match loop_body_ref graph rst with
      | RefContinue rst' => iterations_ref n' graph rst'
      | r => r
      end
  end.

(** Lines 45-51: the two live objects are created. *)
Definition initial_rstate (graph : Graph) (start_node : Z) : rstate :=
  let '(l_distances, σ1) :=
    alloc ∅ (DictObj (<[start_node := Fin 0]> ((λ _, Inf) <$> graph))) in
  let '(l_visited, σ2) := alloc σ1 (SetObj ∅) in
  {| rs_store := σ2;
     rs_distances := l_distances;
     rs_priority_queue := [(0, start_node)];
     rs_visited_nodes := l_visited;
     rs_animation_steps := [] |}.

(** The call returns the reference [distances] and the list of steps; the
    store says what the references stand for. *)
Definition dijkstra_with_steps_ref (graph : Graph) (start_node : Z)
    : outcome (store * loc * list step_ref) :=
  while_loop_ref (S (S (edge_count graph))) graph
    (initial_rstate graph start_node).

Definition rstate_after (n : nat) (graph : Graph) (start_node : Z)
    : rstate :=
  match iterations_ref n graph (initial_rstate graph start_node) with
  | RefContinue rst => rst
  | _ => initial_rstate graph start_node
  end.

Definition returned_or {A} (default : A) (o : outcome A) : A :=
  match o with
  | Returned a => a
  | _ => default
  end.

(** What a recorded step shows when its references are followed in a
    store. *)
Definition resolve (σ : store) (e : step_ref) : step_info :=
  {| visited_node := ref_visited_node e;
     visited_path := ref_visited_path e;
     distances := read_dict σ (ref_distances e);
     visited_nodes_set := read_set σ (ref_visited_nodes_set e) |}.

Definition resolve_result (r : store * loc * list step_ref)
    : DistanceTable * list step_info :=
  (read_dict r.1.1 r.1.2, resolve r.1.1 <$> r.2).

Definition outcome_map {A B} (f : A → B) (o : outcome A) : outcome B :=
  match o with
  | Returned a => Returned (f a)
  | Raised e => Raised e
  | OutOfFuel => OutOfFuel
  end.

(** The store of [rst] holds the tables of [st]: the live objects have the
    contents of [st], every recorded step resolves to the step recorded in
    [st], and no recorded step refers to a live object. *)
Record sim (rst : rstate) (st : state) : Prop := {
  sim_distances :
    rs_store rst !! rs_distances rst = Some (DictObj (st_distances st));
  sim_visited :
    rs_store rst !! rs_visited_nodes rst = Some (SetObj (st_visited_nodes st));
  sim_queue : rs_priority_queue rst = st_priority_queue st;
  sim_steps :
    resolve (rs_store rst) <$> rs_animation_steps rst = st_animation_steps st;
  sim_separate e :
    e ∈ rs_animation_steps rst →
    ref_distances e ∈ dom (rs_store rst) ∧
    ref_visited_nodes_set e ∈ dom (rs_store rst) ∧
    ref_distances e ≠ rs_distances rst ∧
    ref_distances e ≠ rs_visited_nodes rst ∧
    ref_visited_nodes_set e ≠ rs_distances rst ∧
    ref_visited_nodes_set e ≠ rs_visited_nodes rst
}.

Definition sim_result (r : exn + rstate) (s : exn + state) : Prop :=
  match r, s with
  | inl e1, inl e2 => e1 = e2
  | inr rst, inr st => sim rst st
  | _, _ => False
  end.

Definition sim_iteration (r : ref_iteration) (i : iteration) : Prop :=
  match r, i with
  | RefBreak a, Break b => resolve_result a = b
  | RefContinue rst, Continue st => sim rst st
  | RefRaise e1, Raise e2 => e1 = e2
  | _, _ => False
  end.

(** From [rst] to [rst'] the recorded steps stay in place and the objects
    they refer to keep their contents. *)
Definition preserved (rst rst' : rstate) : Prop :=
  ∀ (i : nat) e,
    rs_animation_steps rst !! i = Some e →
    rs_animation_steps rst' !! i = Some e ∧
    resolve (rs_store rst') e = resolve (rs_store rst) e.

(** The state in which a call that returns [result] leaves the loop. *)
Definition final_rstate (result : store * loc * list step_ref)
    (rst : rstate) : rstate :=
  {| rs_store := result.1.1;
     rs_distances := result.1.2;
     rs_priority_queue := [];
     rs_visited_nodes := rs_visited_nodes rst;
     rs_animation_steps := result.2 |}.

(** ** The player: the texts of the summary table

    The rows that lines 153-156 of [draw_graph] build, when every
    conversion of a number to text goes through. *)

(** The text of an integer: decimal digits, with a minus sign for a
    negative number. *)
Definition str (z : Z) : string := NilZero.string_of_int (Z.to_int z).

(** Line 155: the text of a distance in the table. *)
Definition distance_str (distance : dist) : string :=
  match distance with
  | Fin z => str z
  | Inf => "infinity"
  end.

(** [sorted(final_distances.items())]: the items in ascending order. The
    keys of a dictionary are distinct, so the order of the tuples is the
    order of their first components. *)
Definition item_le (x y : Z * dist) : Prop := x.1 ≤ y.1.

#[global] Instance item_le_dec : RelDecision item_le.
Proof. intros x y. unfold item_le. apply _. Defined.

Definition sorted_items (final_distances : DistanceTable) : list (Z * dist) :=
  merge_sort item_le (map_to_list final_distances).

(** Lines 153-156. *)
Definition table_data (final_distances : DistanceTable) : list (Z * string) :=
  (λ item : Z * dist, (item.1, distance_str item.2))
    <$> sorted_items final_distances.

(** ** Inputs *)

(** Every neighbor named in an adjacency list is itself a vertex (a key)
    of the graph. *)
Definition wf_graph (graph : Graph) : Prop :=
  map_Forall (λ _ edges, Forall (λ e : Z * Z, is_Some (graph !! e.1)) edges)
    graph.

Definition nonneg_weights (graph : Graph) : Prop :=
  map_Forall (λ _ edges, Forall (λ e : Z * Z, 0 ≤ e.2) edges) graph.

#[global] Instance wf_graph_dec graph : Decision (wf_graph graph).
Proof. unfold wf_graph. apply _. Defined.

#[global] Instance nonneg_weights_dec graph : Decision (nonneg_weights graph).
Proof. unfold nonneg_weights. apply _. Defined.

Definition has_negative_weight (graph : Graph) : Prop :=
  ∃ u edges v w, graph !! u = Some edges ∧ (v, w) ∈ edges ∧ w < 0.

(** ** Paths and shortest distances *)

(** [path graph u v w]: the graph has a directed path from [u] to [v]
    whose edge weights add up to [w]. *)
Inductive path (graph : Graph) : Z → Z → Z → Prop :=
  | path_nil u : path graph u u 0
  | path_cons u edges x c v w :
      graph !! u = Some edges → (x, c) ∈ edges →
      path graph x v w → path graph u v (c + w).

Definition reachable (graph : Graph) (u v : Z) : Prop :=
  ∃ w, path graph u v w.

(** [z] is the weight of a shortest path from [u] to [v]. *)
Definition shortest (graph : Graph) (u v z : Z) : Prop :=
  path graph u v z ∧ ∀ w, path graph u v w → z ≤ w.

(** ** Program points of the tracer

    The places where the loop invariants are stated: the head of the
    [while] loop, and the head of the [for] loop over the edges of
    [current_node], with the edges already handled and those to come. *)
Inductive point : Type :=
  | AtWhile (st : state)
  | AtFor (current_node current_distance : Z) (done todo : list (Z * Z))
      (st : state).

Definition locals (p : point) : state :=
  match p with
  | AtWhile st => st
  | AtFor _ _ _ _ st => st
  end.

Inductive step (graph : Graph) : point → point → Prop :=
  | step_stale st d u rest :
      heappop (st_priority_queue st) = Some ((d, u), rest) →
      u ∈ st_visited_nodes st →
      step graph (AtWhile st) (AtWhile (discard rest st))
  | step_settle st d u rest edges :
      heappop (st_priority_queue st) = Some ((d, u), rest) →
      u ∉ st_visited_nodes st →
      graph !! u = Some edges →
      step graph (AtWhile st) (AtFor u d [] edges (settle u rest st))
  | step_relax u d done e todo st st' :
      relax u d e st = inr st' →
      step graph (AtFor u d done (e :: todo) st)
        (AtFor u d (done ++ [e]) todo st')
  | step_for_end u d done st :
      step graph (AtFor u d done [] st) (AtWhile st).

(** The program points a call [dijkstra_with_steps graph start_node]
    goes through. *)
Definition reach (graph : Graph) (start_node : Z) (p : point) : Prop :=
  rtc (step graph) (AtWhile (initial_state graph start_node)) p.

(** Bound on the number of iterations still to come: the items in the
    queue, plus the edges of the vertices not yet visited. *)
Definition unvisited_edges (graph : Graph) (visited : VisitedSet) : nat :=
  edge_count (filter (λ kv, kv.1 ∉ visited) graph).

Definition measure (graph : Graph) (st : state) : nat :=
  (length (st_priority_queue st)
   + unvisited_edges graph (st_visited_nodes st))%nat.

(** Two states of the tracer that differ at most in the layout of the
    heap: the queues hold the same items. *)
Definition same_bag (st1 st2 : state) : Prop :=
  st_distances st1 = st_distances st2 ∧
  st_visited_nodes st1 = st_visited_nodes st2 ∧
  st_animation_steps st1 = st_animation_steps st2 ∧
  st_priority_queue st1 ≡ₚ st_priority_queue st2.

Definition same_iteration (r1 r2 : iteration) : Prop :=
  match r1, r2 with
  | Break a, Break b => a = b
  | Continue st1, Continue st2 => same_bag st1 st2
  | Raise e1, Raise e2 => e1 = e2
  | _, _ => False
  end.

(** A run of the loop in which the heap is free to lay out its items in
    any way between two iterations; [heapq] promises the least item at the
    front and nothing on the order of the others. *)
Inductive run (graph : Graph)
    : state → outcome (DistanceTable * list step_info) → Prop :=
  | run_break st result :
      loop_body graph st = Break result → run graph st (Returned result)
  | run_raise st e :
      loop_body graph st = Raise e → run graph st (Raised e)
  | run_continue st st1 st2 o :
      loop_body graph st = Continue st1 → same_bag st1 st2 →
      run graph st2 o → run graph st o.

(** The step that lines 62-68 record when [current_node] is popped. *)
Definition settlement_step (current_node : Z) (st : state) : step_info :=
  {| visited_node := current_node;
     visited_path := None;
     distances := st_distances st;
     visited_nodes_set := {[current_node]} ∪ st_visited_nodes st |}.

(** ** Loop invariants *)

(** At the head of the [while] loop every edge of a visited vertex has
    been handled; inside the [for] loop over the edges of [current_node]
    those of [current_node] still to come have not. *)
Definition handled (p : point) (u : Z) (e : Z * Z) : Prop :=
  match p with
  | AtWhile _ => True
  | AtFor current_node _ done _ _ => u ≠ current_node ∨ e ∈ done
  end.

(** Invariants of the tracer on every graph, whatever the weights. *)
Record ginv (graph : Graph) (start_node : Z) (p : point) : Prop := {
  ginv_dom :
    dom (st_distances (locals p)) = {[start_node]} ∪ dom graph;
  ginv_start :
    ∃ z, st_distances (locals p) !! start_node = Some (Fin z);
  ginv_queue d v :
    (d, v) ∈ st_priority_queue (locals p) →
    ∃ z, st_distances (locals p) !! v = Some (Fin z) ∧ z ≤ d;
  ginv_visited v :
    v ∈ st_visited_nodes (locals p) →
    is_Some (graph !! v) ∧ ∃ z, st_distances (locals p) !! v = Some (Fin z);
  ginv_pending v z :
    v ∉ st_visited_nodes (locals p) →
    st_distances (locals p) !! v = Some (Fin z) →
    (z, v) ∈ st_priority_queue (locals p);
  ginv_path v z :
    st_distances (locals p) !! v = Some (Fin z) → path graph start_node v z;
  ginv_current :
    match p with
    | AtWhile _ => True
    | AtFor u d done todo st =>
        graph !! u = Some (done ++ todo) ∧
        u ∈ st_visited_nodes st ∧
        st_distances st !! u = Some (Fin d)
    end;
  ginv_edges u edges e :
    u ∈ st_visited_nodes (locals p) → graph !! u = Some edges → e ∈ edges →
    handled p u e →
    ∃ z, st_distances (locals p) !! e.1 = Some (Fin z)
}.

(** The settlement events of a log: those that carry no edge. *)
Definition settlements (log : list step_info) : list step_info :=
  filter (λ e, visited_path e = None) log.

(** Invariants of the recorded steps, on every graph. *)
Record linv (graph : Graph) (start_node : Z) (p : point) : Prop := {
  linv_dom e :
    e ∈ st_animation_steps (locals p) →
    dom (distances e) = {[start_node]} ∪ dom graph;
  linv_visited e :
    e ∈ st_animation_steps (locals p) →
    visited_nodes_set e ⊆ st_visited_nodes (locals p);
  linv_node e :
    e ∈ st_animation_steps (locals p) →
    visited_node e ∈ visited_nodes_set e;
  linv_edge e u v :
    e ∈ st_animation_steps (locals p) →
    visited_path e = Some (u, v) → visited_node e = u;
  linv_finite e v :
    e ∈ st_animation_steps (locals p) → v ∈ visited_nodes_set e →
    ∃ z, distances e !! v = Some (Fin z);
  linv_above e v a b :
    e ∈ st_animation_steps (locals p) →
    distances e !! v = Some a → st_distances (locals p) !! v = Some b →
    dist_le b a;
  linv_current :
    match p with
    | AtWhile _ => True
    | AtFor u _ _ _ st =>
        (∀ e, e ∈ st_animation_steps st → visited_node e = u →
              visited_nodes_set e = st_visited_nodes st) ∧
        (∃ (i : nat) es, st_animation_steps st !! i = Some es ∧
                         visited_path es = None ∧ visited_node es = u)
    end;
  linv_source (j : nat) ej u v :
    st_animation_steps (locals p) !! j = Some ej →
    visited_path ej = Some (u, v) →
    ∃ (i : nat) es, (i < j)%nat ∧
      st_animation_steps (locals p) !! i = Some es ∧
      visited_path es = None ∧ visited_node es = u;
  linv_settled e1 e2 :
    e1 ∈ st_animation_steps (locals p) →
    e2 ∈ st_animation_steps (locals p) →
    visited_path e1 = None → visited_node e2 = visited_node e1 →
    visited_nodes_set e2 = visited_nodes_set e1;
  linv_mono (i j : nat) ei ej :
    (i ≤ j)%nat →
    st_animation_steps (locals p) !! i = Some ei →
    st_animation_steps (locals p) !! j = Some ej →
    visited_nodes_set ei ⊆ visited_nodes_set ej;
  linv_strict (i j : nat) ei ej u v :
    (i < j)%nat →
    st_animation_steps (locals p) !! i = Some ei →
    st_animation_steps (locals p) !! j = Some ej →
    visited_path ej = Some (u, v) →
    ∃ a b, distances ei !! v = Some a ∧ distances ej !! v = Some b ∧
           dist_lt b a;
  linv_size (k : nat) e :
    settlements (st_animation_steps (locals p)) !! k = Some e →
    size (visited_nodes_set e) = S k;
  linv_next (k : nat) e e' :
    settlements (st_animation_steps (locals p)) !! k = Some e →
    settlements (st_animation_steps (locals p)) !! S k = Some e' →
    visited_node e' ∉ visited_nodes_set e ∧
    visited_nodes_set e' = {[visited_node e']} ∪ visited_nodes_set e;
  linv_last :
    match last (settlements (st_animation_steps (locals p))) with
    | None => st_visited_nodes (locals p) = ∅
    | Some e => visited_nodes_set e = st_visited_nodes (locals p)
    end;
  linv_count :
    length (settlements (st_animation_steps (locals p)))
    = size (st_visited_nodes (locals p))
}.

(** Invariants that need non-negative weights: the distance of a visited
    vertex is final, and it bounds the distances of its neighbors. *)
Record ninv (graph : Graph) (start_node : Z) (p : point) : Prop := {
  ninv_start :
    ∃ z, st_distances (locals p) !! start_node = Some (Fin z) ∧ z ≤ 0;
  ninv_optimal v z w :
    v ∈ st_visited_nodes (locals p) →
    st_distances (locals p) !! v = Some (Fin z) →
    path graph start_node v w → z ≤ w;
  ninv_relaxed u zu edges v w :
    u ∈ st_visited_nodes (locals p) →
    st_distances (locals p) !! u = Some (Fin zu) →
    graph !! u = Some edges → (v, w) ∈ edges → handled p u (v, w) →
    ∃ zv, st_distances (locals p) !! v = Some (Fin zv) ∧ zv ≤ zu + w
}.

(** The graph of the scenario of §8, on which a stale queue item shows
    up: vertex 3 is pushed with distance 11 and then with distance 7. *)
Definition scenario_graph : Graph :=
  list_to_map
    [ (0, [(1, 6); (2, 1)]);
      (1, [(0, 6); (3, 1)]);
      (2, [(0, 1); (3, 10)]);
      (3, []) ].

(** A graph with a negative weight: the path 0 → 2 → 1 weighs 1, the
    edge 0 → 1 weighs 2. *)
Definition negative_graph : Graph :=
  list_to_map
    [ (0, [(1, 2); (2, 3)]);
      (1, []);
      (2, [(1, -2)]) ].

(** ** Further invariants of the recorded steps *)

(** The step recorded first: the settlement of the start vertex, when
    nothing else has been touched. *)
Definition first_step (graph : Graph) (start_node : Z) : step_info :=
  {| visited_node := start_node;
     visited_path := None;
     distances := <[start_node := Fin 0]> ((λ _, Inf) <$> graph);
     visited_nodes_set := {[start_node]} |}.

(** The edges of [current_node] that the [for] loop has still to handle. *)
Definition todo_length (p : point) : nat :=
  match p with
  | AtWhile _ => 0%nat
  | AtFor _ _ _ todo _ => length todo
  end.

Record xinv (graph : Graph) (start_node : Z) (p : point) : Prop := {
  xinv_frozen e v :
    e ∈ st_animation_steps (locals p) → v ∈ visited_nodes_set e →
    distances e !! v = st_distances (locals p) !! v;
  xinv_first :
    match st_animation_steps (locals p) with
    | [] => p = AtWhile (initial_state graph start_node)
    | e :: _ => e = first_step graph start_node
    end;
  xinv_last :
    match last (st_animation_steps (locals p)) with
    | Some e =>
        distances e = st_distances (locals p) ∧
        visited_nodes_set e = st_visited_nodes (locals p)
    | None => True
    end;
  xinv_decreasing (i j : nat) ei ej v a b :
    (i ≤ j)%nat →
    st_animation_steps (locals p) !! i = Some ei →
    st_animation_steps (locals p) !! j = Some ej →
    distances ei !! v = Some a → distances ej !! v = Some b →
    dist_le b a;
  xinv_edge e u v :
    e ∈ st_animation_steps (locals p) → visited_path e = Some (u, v) →
    u ∈ visited_nodes_set e ∧ v ∉ visited_nodes_set e ∧
    ∃ edges w zu,
      graph !! u = Some edges ∧ (v, w) ∈ edges ∧
      distances e !! u = Some (Fin zu) ∧
      distances e !! v = Some (Fin (zu + w));
  xinv_settled v :
    v ∈ st_visited_nodes (locals p) ↔
    ∃ e, e ∈ st_animation_steps (locals p) ∧
         visited_path e = None ∧ visited_node e = v;
  xinv_once :
    NoDup (visited_node <$> settlements (st_animation_steps (locals p)));
  xinv_length :
    (length (st_animation_steps (locals p))
     + unvisited_edges graph (st_visited_nodes (locals p)) + todo_length p
     ≤ size (st_visited_nodes (locals p)) + edge_count graph)%nat
}.

(** With non-negative weights the vertices are settled in the order of
    their distances: no queue item is below the distance of a visited
    vertex. *)
Record oinv (graph : Graph) (start_node : Z) (p : point) : Prop := {
  oinv_queue u zu d v :
    u ∈ st_visited_nodes (locals p) →
    st_distances (locals p) !! u = Some (Fin zu) →
    (d, v) ∈ st_priority_queue (locals p) → zu ≤ d;
  oinv_current :
    match p with
    | AtWhile _ => True
    | AtFor _ current_distance _ _ st =>
        ∀ u zu, u ∈ st_visited_nodes st →
                st_distances st !! u = Some (Fin zu) →
                zu ≤ current_distance
    end;
  oinv_order (i j : nat) ei ej a b :
    (i ≤ j)%nat →
    settlements (st_animation_steps (locals p)) !! i = Some ei →
    settlements (st_animation_steps (locals p)) !! j = Some ej →
    distances ei !! visited_node ei = Some (Fin a) →
    distances ej !! visited_node ej = Some (Fin b) →
    a ≤ b
}.

(** Every neighbor of a vertex that can be reached from [start_node] is a
    key of the graph. *)
Definition closed_from (graph : Graph) (start_node : Z) : Prop :=
  ∀ u edges v w,
    reachable graph start_node u → graph !! u = Some edges →
    (v, w) ∈ edges → v ∈ dom graph.

(** The objects that the recorded steps refer to. *)
Definition snapshot_locs (log : list step_ref) : list loc :=
  log ≫= λ e, [ref_distances e; ref_visited_nodes_set e].

(** A graph with an edge to a vertex that is not a key. *)
Definition dangling_graph : Graph := {[ 0 := [(1, 5)] ]}.

(** What the call on the sample graph from vertex 0 returns. *)
Definition sample_result : DistanceTable * list step_info :=
  returned_or (∅, []) (dijkstra_with_steps graph 0).

(** ** The player: what a frame shows

    [draw_graph] (lines 105-162) and [update] (lines 165-168). The calls
    into the drawing library are not modelled; the model keeps which
    positions, colours and texts are handed to it, and where the Python
    code itself raises before or between these calls: a dictionary lookup
    that fails, and a conversion of an integer to text that exceeds the
    digit limit. A position is what the layout gives for a vertex: in the
    program a pair of floats (lines 33-38), on which the arithmetic of
    lines 130 and 149 does not raise; the model does not look into it.
    [graph.items()] is the list of the items of the dictionary in its
    order, [nodes] the list of its keys (line 102). *)

(** A [for] loop whose body can raise: it stops at the first exception. *)
Fixpoint for_each {A B} (f : A → exn + B) (l : list A) : exn + list B :=
  match l with
  | [] => inr []
  | x :: l' =>
      match f x with
      | inl e => inl e
      | inr y =>
          match for_each f l' with
          | inl e => inl e
          | inr ys => inr (y :: ys)
          end
      end
  end.

(** [str(z)], and [z] in an f-string: Python refuses to convert an integer
    of more than [sys.int_max_str_digits] decimal digits, 4300 unless the
    program changes it, which this one does not, and raises
    [ValueError]. *)
Definition str_limit : Z := 10 ^ 4300.

Definition printable (z : Z) : Prop := Z.abs z < str_limit.

#[global] Instance printable_dec z : Decision (printable z).
Proof. unfold printable. apply _. Defined.

Definition py_str (z : Z) : exn + string :=
  if decide (printable z) then inr (str z) else inl ValueError.

(** Line 103: [node_labels = {node: str(node) for node in nodes}]. *)
Definition make_node_labels (nodes : list Z) : exn + gmap Z string :=
  match for_each
          (λ node, match py_str node with
                   | inl e => inl e
                   | inr label => inr (node, label)
                   end) nodes with
  | inl e => inl e
  | inr labels => inr (list_to_map labels)
  end.

(** Line 125: [visited_path and ((u,v) == visited_path or (v,u) ==
    visited_path)]. *)
Definition edge_highlighted (visited_path : option (Z * Z)) (u v : Z) : bool :=
  match visited_path with
  | None => false
  | Some path => bool_decide ((u, v) = path) || bool_decide ((v, u) = path)
  end.

Record edge_drawing (position : Type) : Type := mk_edge_drawing {
  ed_from : position;
  ed_to : position;
  ed_color : string;
  ed_thick : bool;
  ed_text : string
}.
Arguments mk_edge_drawing {position}.
Arguments ed_from {position}.
Arguments ed_to {position}.
Arguments ed_color {position}.
Arguments ed_thick {position}.
Arguments ed_text {position}.

Record node_drawing (position : Type) : Type := mk_node_drawing {
  nd_position : position;
  nd_color : string;
  nd_ring : string;
  nd_text : string;
  nd_distance : option string
}.
Arguments mk_node_drawing {position}.
Arguments nd_position {position}.
Arguments nd_color {position}.
Arguments nd_ring {position}.
Arguments nd_text {position}.
Arguments nd_distance {position}.

(** Lines 120-130: one edge. [ed_thick] stands for the line width 3, as
    against 1.5. *)
Definition draw_edge {position} (node_positions : gmap Z position)
    (visited_path : option (Z * Z)) (u : Z) (edge : Z * Z)
    : exn + edge_drawing position :=
  let '(v, weight) := edge in
  match node_positions !! u with
  | None => inl (KeyError u)
  | Some p1 =>
      match node_positions !! v with
      | None => inl (KeyError v)
      | Some p2 =>
          let highlighted := edge_highlighted visited_path u v in
          match py_str weight with
          | inl e => inl e
          | inr text =>
              inr {| ed_from := p1;
                     ed_to := p2;
                     ed_color := if highlighted then "red" else "gray";
                     ed_thick := highlighted;
                     ed_text := text |}
          end
      end
  end.

(** Lines 118-130. *)
Definition draw_edges {position} (items : list (Z * list (Z * Z)))
    (node_positions : gmap Z position) (visited_path : option (Z * Z))
    : exn + list (list (edge_drawing position)) :=
  for_each
    (λ item : Z * list (Z * Z),
       for_each (draw_edge node_positions visited_path item.1) item.2)
    items.

(** Lines 134-149: one node. The lookups are [node_positions[node]] (line
    134), [node_labels[node]] (line 145) and [current_distances[node]]
    (line 148); the f-string of line 149 converts the distance. *)
Definition draw_node {position} (node_positions : gmap Z position)
    (node_labels : gmap Z string) (step_info : step_info) (node : Z)
    : exn + node_drawing position :=
  match node_positions !! node with
  | None => inl (KeyError node)
  | Some pos =>
      match node_labels !! node with
      | None => inl (KeyError node)
      | Some label =>
          let drawing distance_label :=
            {| nd_position := pos;
               nd_color :=
                 if decide (node ∈ visited_nodes_set step_info)
                 then "#4caf50" else "white";
               nd_ring :=
                 if decide (node = visited_node step_info)
                 then "red" else "blue";
               nd_text := label;
               nd_distance := distance_label |} in
          match distances step_info !! node with
          | None => inl (KeyError node)
          | Some Inf => inr (drawing None)
          | Some (Fin z) =>
              match py_str z with
              | inl e => inl e
              | inr text => inr (drawing (Some ("d=" +:+ text)))
              end
          end
      end
  end.

(** Lines 117-149: the edges, then the nodes. *)
Definition draw_canvas {position} (items : list (Z * list (Z * Z)))
    (node_positions : gmap Z position) (node_labels : gmap Z string)
    (step_info : step_info)
    : exn + (list (list (edge_drawing position))
             * list (node_drawing position)) :=
  match draw_edges items node_positions (visited_path step_info) with
  | inl e => inl e
  | inr edges =>
      match for_each (draw_node node_positions node_labels step_info)
              items.*1 with
      | inl e => inl e
      | inr nodes => inr (edges, nodes)
      end
  end.

(** Line 155 with the conversion that can fail. *)
Definition distance_text (distance : dist) : exn + string :=
  match distance with
  | Fin z => py_str z
  | Inf => inr "infinity"
  end.

(** Lines 153-156. *)
Definition build_table (final_distances : DistanceTable)
    : exn + list (Z * string) :=
  for_each
    (λ item : Z * dist,
       match distance_text item.2 with
       | inl e => inl e
       | inr distance_str => inr (item.1, distance_str)
       end)
    (sorted_items final_distances).

Record frame (position : Type) : Type := mk_frame {
  frame_step : step_info;
  frame_canvas : list (list (edge_drawing position))
                 * list (node_drawing position);
  frame_table : option (list (Z * string))
}.
Arguments mk_frame {position}.
Arguments frame_step {position}.
Arguments frame_canvas {position}.
Arguments frame_table {position}.

(** Lines 105-162: the canvas, then the table on the final frame. *)
Definition draw_graph {position} (items : list (Z * list (Z * Z)))
    (node_positions : gmap Z position) (node_labels : gmap Z string)
    (final_distances : DistanceTable) (step_info : step_info)
    (is_final_frame : bool) : exn + frame position :=
  match draw_canvas items node_positions node_labels step_info with
  | inl e => inl e
  | inr canvas =>
      if is_final_frame then
        match build_table final_distances with
        | inl e => inl e
        | inr table_data =>
            inr {| frame_step := step_info;
                   frame_canvas := canvas;
                   frame_table := Some table_data |}
        end
      else
        inr {| frame_step := step_info;
               frame_canvas := canvas;
               frame_table := None |}
  end.

(** Lines 165-168. The frame indices come from
    [FuncAnimation(..., frames=len(animation_steps))], so they are natural
    numbers; nothing is drawn for an index past the end. *)
Definition update {position} (items : list (Z * list (Z * Z)))
    (node_positions : gmap Z position) (node_labels : gmap Z string)
    (animation_steps : list step_info) (final_distances : DistanceTable)
    (frame_index : nat) : exn + option (frame position) :=
  let is_final_frame :=
    bool_decide (Z.of_nat frame_index
                 = Z.of_nat (length animation_steps) - 1) in
  if decide (frame_index < length animation_steps)%nat then
    match animation_steps !! frame_index with
    | Some step_info =>
        match draw_graph items node_positions node_labels final_distances
                step_info is_final_frame with
        | inl e => inl e
        | inr f => inr (Some f)
        end
    | None => inr None
    end
  else inr None.

(** ** The size of the recorded distances *)

(** The sum of the absolute values of the weights, of a list of edges and
    of the graph. *)
Definition abs_sum (edges : list (Z * Z)) : Z :=
  foldr (λ e n, Z.abs e.2 + n) 0 edges.

Definition abs_weight (graph : Graph) : Z :=
  map_fold (λ _ edges n, abs_sum edges + n) 0 graph.

Definition unvisited_weight (graph : Graph) (visited : VisitedSet) : Z :=
  abs_weight (filter (λ kv, kv.1 ∉ visited) graph).

(** Every distance in the queue, in the table and in a recorded step is
    made of weights of edges of visited vertices. *)
Record binv (graph : Graph) (start_node : Z) (p : point) : Prop := {
  binv_queue d v :
    (d, v) ∈ st_priority_queue (locals p) →
    Z.abs d + unvisited_weight graph (st_visited_nodes (locals p))
    ≤ abs_weight graph;
  binv_distances v z :
    st_distances (locals p) !! v = Some (Fin z) →
    Z.abs z + unvisited_weight graph (st_visited_nodes (locals p))
    ≤ abs_weight graph;
  binv_steps e v z :
    e ∈ st_animation_steps (locals p) → distances e !! v = Some (Fin z) →
    Z.abs z + unvisited_weight graph (st_visited_nodes (locals p))
    ≤ abs_weight graph;
  binv_current :
    match p with
    | AtWhile _ => True
    | AtFor _ current_distance done todo st =>
        Z.abs current_distance + abs_sum (done ++ todo)
        + unvisited_weight graph (st_visited_nodes st)
        ≤ abs_weight graph
    end
}.

(** The layout covers the graph: every vertex and every neighbor has a
    position. *)
Definition layout_covers {position} (items : list (Z * list (Z * Z)))
    (node_positions : gmap Z position) : Prop :=
  Forall (λ item : Z * list (Z * Z),
            is_Some (node_positions !! item.1) ∧
            Forall (λ edge : Z * Z, is_Some (node_positions !! edge.1))
              item.2)
    items.

(** The items of the sample graph and its layout before scaling (lines
    9-30). *)
Definition graph_items : list (Z * list (Z * Z)) :=
  [ (0, [(1, 6); (2, 1)]);
    (1, [(0, 6); (3, 1); (5, 8)]);
    (2, [(0, 1); (4, 3)]);
    (3, [(1, 1); (5, 5)]);
    (4, [(2, 3); (5, 4); (7, 3)]);
    (5, [(1, 8); (3, 5); (4, 4); (6, 5)]);
    (6, [(5, 5); (7, 4)]);
    (7, [(4, 3); (6, 4)]) ].

Definition node_positions : gmap Z (Z * Z) :=
  list_to_map
    [ (0, (500, 100)); (1, (200, 200)); (2, (800, 200)); (3, (200, 400));
      (4, (800, 400)); (5, (500, 500)); (6, (200, 600)); (7, (800, 600)) ].

(** The labels of the nodes of the sample graph (line 103). *)
Definition sample_labels : gmap Z string :=
  list_to_map ((λ node, (node, str node)) <$> graph_items.*1).

#[global] Instance layout_covers_dec {position}
    (items : list (Z * list (Z * Z))) (positions : gmap Z position) :
  Decision (layout_covers items positions).
Proof. unfold layout_covers. apply _. Defined.

(** * Properties *)

(** ** Facts about the priority queue *)

Section heap.
Implicit Types (x y z : entry) (h r : list entry).

Lemma entry_leb_spec x y :
  entry_leb x y = true ↔ x.1 < y.1 ∨ (x.1 = y.1 ∧ x.2 ≤ y.2).
Proof.
  unfold entry_leb.
  rewrite orb_true_iff, andb_true_iff, Z.ltb_lt, Z.eqb_eq, Z.leb_le.
  done.
Qed.

Lemma entry_leb_refl x : entry_leb x x = true.
Proof. apply entry_leb_spec. lia. Qed.

Lemma entry_leb_total x y : entry_leb x y = false → entry_leb y x = true.
Proof.
  intros Hxy. apply entry_leb_spec.
  destruct (entry_leb_spec x y) as [_ H].
  destruct (decide (y.1 < x.1)); [by left|right].
  destruct (decide (x.1 < y.1)).
  { rewrite H in Hxy; [done|by left]. }
  split; [lia|].
  destruct (decide (y.2 ≤ x.2)); [done|].
  rewrite H in Hxy; [done|right; lia].
Qed.

Lemma entry_leb_trans x y z :
  entry_leb x y = true → entry_leb y z = true → entry_leb x z = true.
Proof. rewrite !entry_leb_spec. lia. Qed.

Lemma entry_leb_antisym x y :
  entry_leb x y = true → entry_leb y x = true → x = y.
Proof.
  rewrite !entry_leb_spec. destruct x, y; simpl.
  intros ??. f_equal; lia.
Qed.

Lemma heappop_None h : heappop h = None ↔ h = [].
Proof.
  split; [|by intros ->].
  destruct h as [|x h]; [done|]. simpl.
  destruct (heappop h) as [[m r]|]; [|done].
  by destruct (entry_leb x m).
Qed.

(** [heappop] takes one item out of the bag and leaves the others. *)
Lemma heappop_perm h x r : heappop h = Some (x, r) → h ≡ₚ x :: r.
Proof.
  revert x r. induction h as [|y h IH]; intros x r; [done|]. simpl.
  destruct (heappop h) as [[m r']|] eqn:Hpop.
  - specialize (IH _ _ eq_refl).
    destruct (entry_leb y m); intros [= <- <-]; [done|].
    rewrite IH. apply Permutation_swap.
  - apply heappop_None in Hpop as ->. by intros [= <- <-].
Qed.

(** The popped item is a least item of the heap. *)
Lemma heappop_min h x r y :
  heappop h = Some (x, r) → y ∈ h → entry_leb x y = true.
Proof.
  revert x r. induction h as [|a h IH]; intros x r; [done|]. simpl.
  destruct (heappop h) as [[m r']|] eqn:Hpop.
  - specialize (IH _ _ eq_refl).
    destruct (entry_leb a m) eqn:Ham; intros [= <- <-].
    + intros [->|Hy]%elem_of_cons; [apply entry_leb_refl|].
      eapply entry_leb_trans; [exact Ham|by apply IH].
    + intros [->|Hy]%elem_of_cons; [by apply entry_leb_total|by apply IH].
  - apply heappop_None in Hpop as ->. intros [= <- <-].
    intros [->|Hy]%elem_of_cons; [apply entry_leb_refl|].
    by apply elem_of_nil in Hy.
Qed.

Lemma heappop_elem_of h x r : heappop h = Some (x, r) → x ∈ h.
Proof. intros ->%heappop_perm. left. Qed.

Lemma heappop_elem_of_rest h x r y :
  heappop h = Some (x, r) → y ∈ r → y ∈ h.
Proof. intros ->%heappop_perm. by right. Qed.

Lemma heappop_elem_of_inv h x r y :
  heappop h = Some (x, r) → y ∈ h → y = x ∨ y ∈ r.
Proof. intros ->%heappop_perm. by intros ?%elem_of_cons. Qed.

Lemma heappop_length h x r :
  heappop h = Some (x, r) → length h = S (length r).
Proof. by intros ->%heappop_perm. Qed.

(** What [heappop] returns depends on the bag of items only, not on how
    the heap is laid out. *)
Lemma heappop_layout h1 h2 x r1 :
  h1 ≡ₚ h2 → heappop h1 = Some (x, r1) →
  ∃ r2, heappop h2 = Some (x, r2) ∧ r1 ≡ₚ r2.
Proof.
  intros Hperm Hpop1.
  destruct (heappop h2) as [[y r2]|] eqn:Hpop2.
  - assert (x = y) as <-.
    { apply entry_leb_antisym.
      - eapply heappop_min; [exact Hpop1|].
        rewrite Hperm. by eapply heappop_elem_of.
      - eapply heappop_min; [exact Hpop2|].
        rewrite <-Hperm. by eapply heappop_elem_of. }
    exists r2. split; [done|].
    apply heappop_perm in Hpop1, Hpop2.
    apply (Permutation_cons_inv (a:=x)). by rewrite <-Hpop1, <-Hpop2.
  - apply heappop_None in Hpop2 as ->.
    apply Permutation_nil_r in Hperm as ->. done.
Qed.
End heap.

(** ** The outcomes of handling one edge *)

Lemma relax_inv u d v w st st' :
  relax u d (v, w) st = inr st' →
  (st' = st ∧
   (v ∈ st_visited_nodes st ∨
    ∃ z, st_distances st !! v = Some (Fin z) ∧ z ≤ d + w)) ∨
  ((v ∉ st_visited_nodes st) ∧
   (∃ dn, st_distances st !! v = Some dn ∧ dist_lt (Fin (d + w)) dn) ∧
   st' = {| st_distances := <[v := Fin (d + w)]> (st_distances st);
            st_priority_queue := (d + w, v) :: st_priority_queue st;
            st_visited_nodes := st_visited_nodes st;
            st_animation_steps :=
              st_animation_steps st ++
              [ {| visited_node := u;
                   visited_path := Some (u, v);
                   distances := <[v := Fin (d + w)]> (st_distances st);
                   visited_nodes_set := st_visited_nodes st |} ] |}).
Proof.
  unfold relax. case_decide as Hv; [intros [= <-]; left; by auto|].
  destruct (st_distances st !! v) as [dn|] eqn:Hdn; [|done].
  destruct (dist_ltb (d + w) dn) eqn:Hlt; intros [= <-]; [right|left].
  - split; [done|]. split; [|done].
    exists dn. split; [done|].
    destruct dn; simpl in *; [by apply Z.ltb_lt|done].
  - split; [done|]. right.
    destruct dn as [z|]; simpl in *; [|done].
    exists z. split; [done|]. by apply Z.ltb_ge.
Qed.

Lemma relax_visited u d e st st' :
  relax u d e st = inr st' → st_visited_nodes st' = st_visited_nodes st.
Proof.
  destruct e as [v w]. intros [[-> ?]|(? & ? & ->)]%relax_inv; done.
Qed.

Lemma for_neighbors_visited u d edges st st' :
  for_neighbors u d edges st = inr st' →
  st_visited_nodes st' = st_visited_nodes st.
Proof.
  revert st. induction edges as [|e edges IH]; intros st; simpl.
  - by intros [= <-].
  - destruct (relax u d e st) as [|st1] eqn:Hrelax; [done|].
    intros ->%IH. by eapply relax_visited.
Qed.

(** ** The function and its program points *)

Lemma for_neighbors_steps graph u d done todo st st' :
  for_neighbors u d todo st = inr st' →
  rtc (step graph) (AtFor u d done todo st) (AtFor u d (done ++ todo) [] st').
Proof.
  revert done st. induction todo as [|e todo IH]; intros done st; simpl.
  - intros [= <-]. by rewrite app_nil_r.
  - destruct (relax u d e st) as [|st1] eqn:Hrelax; [done|].
    intros Hfor. eapply rtc_l; [by apply step_relax|].
    replace (done ++ e :: todo) with ((done ++ [e]) ++ todo)
      by (by rewrite <-app_assoc).
    by apply IH.
Qed.

Lemma loop_body_steps graph st st' :
  loop_body graph st = Continue st' →
  rtc (step graph) (AtWhile st) (AtWhile st').
Proof.
  unfold loop_body.
  destruct (heappop (st_priority_queue st)) as [[[d u] rest]|] eqn:Hpop;
    [|done].
  case_decide as Hu.
  - intros [= <-]. apply rtc_once. by eapply step_stale.
  - destruct (graph !! u) as [edges|] eqn:Hedges; [|done].
    destruct (for_neighbors u d edges (settle u rest st)) as [|st2] eqn:Hfor;
      [done|].
    intros [= <-].
    eapply rtc_l; [by eapply step_settle|].
    eapply rtc_r; [by apply (for_neighbors_steps _ _ _ [])|].
    apply step_for_end.
Qed.

Lemma loop_body_Break graph st r :
  loop_body graph st = Break r →
  st_priority_queue st = [] ∧ r = (st_distances st, st_animation_steps st).
Proof.
  unfold loop_body.
  destruct (heappop (st_priority_queue st)) as [[[d u] rest]|] eqn:Hpop.
  - case_decide; [done|]. destruct (graph !! u); [|done].
    by destruct (for_neighbors _ _ _ _).
  - apply heappop_None in Hpop. by intros [= <-].
Qed.

(** A call that returns went through the program points up to a loop head
    with an empty queue, and returns the tables of that point. *)
Lemma while_loop_Returned graph fuel st r :
  while_loop fuel graph st = Returned r →
  ∃ st', rtc (step graph) (AtWhile st) (AtWhile st') ∧
         st_priority_queue st' = [] ∧
         r = (st_distances st', st_animation_steps st').
Proof.
  revert st. induction fuel as [|fuel IH]; intros st; simpl; [done|].
  destruct (loop_body graph st) as [r'|st1|e] eqn:Hbody; [| |done].
  - intros [= <-]. apply loop_body_Break in Hbody as [??]. by exists st.
  - intros (st' & Hsteps & ?)%IH. exists st'. split; [|done].
    etrans; [by apply loop_body_steps|done].
Qed.

Lemma dijkstra_with_steps_Returned graph start_node r :
  dijkstra_with_steps graph start_node = Returned r →
  ∃ st, reach graph start_node (AtWhile st) ∧
        st_priority_queue st = [] ∧
        r = (st_distances st, st_animation_steps st).
Proof. apply while_loop_Returned. Qed.

(** ** Termination *)

Lemma unvisited_edges_empty graph : unvisited_edges graph ∅ = edge_count graph.
Proof.
  unfold unvisited_edges. f_equal. apply map_filter_id.
  intros i x _. simpl. set_solver.
Qed.

Lemma unvisited_edges_settle graph (visited : VisitedSet) u edges :
  graph !! u = Some edges → u ∉ visited →
  unvisited_edges graph visited
  = (length edges + unvisited_edges graph ({[u]} ∪ visited))%nat.
Proof.
  intros Hu Hvis. unfold unvisited_edges, edge_count.
  assert (filter (λ kv : Z * list (Z * Z), kv.1 ∉ {[u]} ∪ visited) graph
          = delete u (filter (λ kv : Z * list (Z * Z), kv.1 ∉ visited) graph))
    as ->.
  { apply map_eq. intros i. apply option_eq. intros x.
    rewrite map_lookup_filter_Some, lookup_delete_Some,
      map_lookup_filter_Some. simpl. set_solver. }
  apply (map_fold_delete_L (λ _ (edges : list (Z * Z)) (n : nat),
                              (length edges + n)%nat)).
  - intros. lia.
  - by apply map_lookup_filter_Some.
Qed.

Lemma relax_queue_length u d e st st' :
  relax u d e st = inr st' →
  (length (st_priority_queue st') ≤ S (length (st_priority_queue st)))%nat.
Proof.
  destruct e as [v w]. intros [[-> ?]|(? & ? & ->)]%relax_inv; simpl; lia.
Qed.

Lemma for_neighbors_queue_length u d edges st st' :
  for_neighbors u d edges st = inr st' →
  (length (st_priority_queue st')
   ≤ length (st_priority_queue st) + length edges)%nat.
Proof.
  revert st. induction edges as [|e edges IH]; intros st; simpl.
  - intros [= <-]. lia.
  - destruct (relax u d e st) as [|st1] eqn:Hrelax; [done|].
    intros ?%IH. apply relax_queue_length in Hrelax. lia.
Qed.

(** Every iteration that continues lowers the measure. *)
Lemma loop_body_measure graph st st' :
  loop_body graph st = Continue st' →
  (measure graph st' < measure graph st)%nat.
Proof.
  unfold loop_body, measure.
  destruct (heappop (st_priority_queue st)) as [[[d u] rest]|] eqn:Hpop;
    [|done].
  apply heappop_length in Hpop.
  case_decide as Hu.
  - intros [= <-]. simpl. lia.
  - destruct (graph !! u) as [edges|] eqn:Hedges; [|done].
    destruct (for_neighbors u d edges (settle u rest st)) as [|st2] eqn:Hfor;
      [done|].
    intros [= <-].
    rewrite (for_neighbors_visited _ _ _ _ _ Hfor).
    apply for_neighbors_queue_length in Hfor. simpl in *.
    rewrite (unvisited_edges_settle graph (st_visited_nodes st) u edges)
      by done.
    lia.
Qed.

Lemma while_loop_enough_fuel graph fuel st :
  (measure graph st < fuel)%nat → while_loop fuel graph st ≠ OutOfFuel.
Proof.
  revert st. induction fuel as [|fuel IH]; intros st Hfuel; [lia|]. simpl.
  destruct (loop_body graph st) as [r|st'|e] eqn:Hbody; [done| |done].
  apply IH. apply loop_body_measure in Hbody. lia.
Qed.

(** The number of iterations allowed in [dijkstra_with_steps] is never
    used up: the function is total. *)
Lemma dijkstra_with_steps_terminates graph start_node :
  dijkstra_with_steps graph start_node ≠ OutOfFuel.
Proof.
  apply while_loop_enough_fuel. unfold measure. simpl.
  rewrite unvisited_edges_empty. lia.
Qed.

(** ** Paths *)

Lemma path_snoc graph a u d edges v w :
  path graph a u d → graph !! u = Some edges → (v, w) ∈ edges →
  path graph a v (d + w).
Proof.
  intros Hpath Hu Hvw. induction Hpath as [u|a edges' x c u d' Ha Hx _ IH].
  - replace (0 + w) with (w + 0) by lia.
    eapply path_cons; [done..|apply path_nil].
  - replace (c + d' + w) with (c + (d' + w)) by lia.
    eapply path_cons; [done..|by apply IH].
Qed.

(** ** The invariants hold at every program point *)

Lemma ginv_initial graph start_node :
  ginv graph start_node (AtWhile (initial_state graph start_node)).
Proof.
  split; simpl.
  - by rewrite dom_insert_L, dom_fmap_L.
  - exists 0. apply lookup_insert_eq.
  - intros d v [= -> ->]%list_elem_of_singleton.
    exists 0. by rewrite lookup_insert_eq.
  - set_solver.
  - intros v z _. rewrite lookup_insert. case_decide as Hv.
    + subst v. intros [= <-]. apply list_elem_of_singleton. done.
    + rewrite lookup_fmap. by destruct (graph !! v).
  - intros v z. rewrite lookup_insert. case_decide as Hv.
    + subst v. intros [= <-]. apply path_nil.
    + rewrite lookup_fmap. by destruct (graph !! v).
  - done.
  - set_solver.
Qed.

Lemma ginv_step graph start_node p p' :
  ginv graph start_node p → step graph p p' → ginv graph start_node p'.
Proof.
  intros [Hdom Hstart Hqueue Hvisited Hpending Hpath Hcurrent Hedges] Hstep.
  destruct Hstep as [st d u rest Hpop Hu|st d u rest edges Hpop Hu Hgu
                    |u d done [v w] todo st st' Hrelax|u d done st];
    simpl in *.
  - (* a stale item is dropped *)
    split; simpl; try done.
    + intros d' v Hin. apply Hqueue. by eapply heappop_elem_of_rest.
    + intros v z Hv Hz.
      destruct (heappop_elem_of_inv _ _ _ _ Hpop (Hpending v z Hv Hz))
        as [[= -> ->]|?]; done.
  - (* a vertex is settled *)
    assert (st_distances st !! u = Some (Fin d)) as Hdu.
    { destruct (Hqueue d u) as (z & Hz & Hle);
        [by eapply heappop_elem_of|].
      pose proof (heappop_min _ _ _ _ Hpop (Hpending u z Hu Hz)) as Hmin.
      apply entry_leb_spec in Hmin. simpl in Hmin.
      rewrite Hz. do 2 f_equal. lia. }
    split; simpl; try done.
    + intros d' v Hin. apply Hqueue. by eapply heappop_elem_of_rest.
    + intros v [->%elem_of_singleton|Hv]%elem_of_union; [|by apply Hvisited].
      split; [done|]. by exists d.
    + intros v z Hv Hz.
      apply not_elem_of_union in Hv as [Hvu%not_elem_of_singleton Hv].
      destruct (heappop_elem_of_inv _ _ _ _ Hpop (Hpending v z Hv Hz))
        as [[= -> ->]|?]; done.
    + split_and!; [done|set_solver|done].
    + intros u' edges' e Hu' Hgu' He [Hne|Hin]; [|by apply elem_of_nil in Hin].
      eapply Hedges; [|done..]. set_solver.
  - (* one edge is handled *)
    destruct Hcurrent as (Hgu & Hu & Hdu).
    assert ((v, w) ∈ done ++ (v, w) :: todo) as Hvw by set_solver.
    apply relax_inv in Hrelax as [[-> Hskip]|(Hv & (dn & Hdn & Hlt) & ->)];
      simpl in *.
    + split; simpl; try done.
      * by rewrite <-app_assoc.
      * intros u' edges' e Hu' Hgu' He [Hne|Hin]; [by eapply Hedges; eauto|].
        apply elem_of_app in Hin as [Hin|Hin]; [by eapply Hedges; eauto|].
        apply list_elem_of_singleton in Hin as ->. simpl. destruct Hskip as [Hv|(z & Hz & _)]; [|by eauto].
        by apply Hvisited.
    + assert (u ≠ v) as Huv by (by intros ->).
      split; simpl.
      * rewrite dom_insert_L, Hdom.
        assert (v ∈ dom (st_distances st)) by (apply elem_of_dom; eauto).
        set_solver.
      * rewrite lookup_insert. case_decide; eauto.
      * intros d' v' [[= -> ->]|Hin]%elem_of_cons.
        { exists (d + w). by rewrite lookup_insert_eq. }
        rewrite lookup_insert. case_decide as Hvv; [|by apply Hqueue].
        subst v'. exists (d + w). split; [done|].
        destruct (Hqueue _ _ Hin) as (z & Hz & Hle).
        rewrite Hz in Hdn. injection Hdn as <-. simpl in Hlt. lia.
      * intros v' Hv'. rewrite lookup_insert_ne; [by apply Hvisited|].
        by intros ->.
      * intros v' z Hv'. rewrite lookup_insert. case_decide as Hvv.
        { subst v'. intros [= <-]. left. }
        intros Hz. right. by apply Hpending.
      * intros v' z. rewrite lookup_insert. case_decide as Hvv; [|by apply Hpath].
        subst v'. intros [= <-]. eapply path_snoc; [by apply Hpath|done..].
      * rewrite <-app_assoc. split_and!; [done..|].
        by rewrite lookup_insert_ne.
      * intros u' edges' e Hu' Hgu' He Hhandled.
        rewrite lookup_insert. case_decide; [by eauto|].
        destruct Hhandled as [Hne|Hin]; [by eapply Hedges; eauto|].
        apply elem_of_app in Hin as [Hin|Hin]; [by eapply Hedges; eauto|].
        by apply list_elem_of_singleton in Hin as ->.
  - (* the edges of the vertex are exhausted *)
    destruct Hcurrent as (Hgu & Hu & Hdu). rewrite app_nil_r in Hgu.
    split; simpl; try done.
    intros u' edges' e Hu' Hgu' He _.
    eapply Hedges; [done..|].
    destruct (decide (u' = u)) as [->|]; [right|by left]. congruence.
Qed.

Lemma reach_ginv graph start_node p :
  reach graph start_node p → ginv graph start_node p.
Proof.
  intros Hreach.
  eapply (rtc_ind_r (ginv graph start_node)); [|by eauto using ginv_step|done].
  apply ginv_initial.
Qed.

(** ** Well-formed inputs raise no exception *)

Lemma wf_graph_neighbor graph u edges v w :
  wf_graph graph → graph !! u = Some edges → (v, w) ∈ edges →
  v ∈ dom graph.
Proof.
  intros Hwf Hu Hvw. apply elem_of_dom.
  specialize (Hwf u edges Hu). simpl in Hwf.
  rewrite Forall_forall in Hwf. by apply (Hwf (v, w)).
Qed.

Lemma nonneg_weights_edge graph u edges v w :
  nonneg_weights graph → graph !! u = Some edges → (v, w) ∈ edges → 0 ≤ w.
Proof.
  intros Hnn Hu Hvw. specialize (Hnn u edges Hu). simpl in Hnn.
  rewrite Forall_forall in Hnn. by apply (Hnn (v, w)).
Qed.

Lemma relax_total graph start_node u d done e todo st :
  wf_graph graph →
  ginv graph start_node (AtFor u d done (e :: todo) st) →
  ∃ st', relax u d e st = inr st'.
Proof.
  intros Hwf Hinv. destruct e as [v w].
  destruct (ginv_current _ _ _ Hinv) as (Hgu & _ & _).
  assert (v ∈ dom (st_distances st)) as [dn Hdn]%elem_of_dom.
  { rewrite (ginv_dom _ _ _ Hinv : dom (st_distances st) = _).
    apply elem_of_union_r.
    eapply (wf_graph_neighbor _ _ _ v w); [done..|].
    apply elem_of_app. right. left. }
  unfold relax. case_decide; [by eauto|]. rewrite Hdn.
  destruct (dist_ltb _ _); eauto.
Qed.

Lemma for_neighbors_total graph start_node u d done todo st :
  wf_graph graph →
  reach graph start_node (AtFor u d done todo st) →
  ∃ st', for_neighbors u d todo st = inr st'.
Proof.
  intros Hwf. revert done st.
  induction todo as [|e todo IH]; intros done st Hreach; simpl; [by eauto|].
  destruct (relax_total graph start_node u d done e todo st)
    as [st1 Hrelax]; [done|by apply reach_ginv|].
  rewrite Hrelax. apply (IH (done ++ [e])).
  eapply rtc_r; [done|]. by apply step_relax.
Qed.

Lemma loop_body_total graph start_node st :
  wf_graph graph → start_node ∈ dom graph →
  reach graph start_node (AtWhile st) →
  ∀ e, loop_body graph st ≠ Raise e.
Proof.
  intros Hwf Hstart Hreach e. unfold loop_body.
  destruct (heappop (st_priority_queue st)) as [[[d u] rest]|] eqn:Hpop;
    [|done].
  case_decide as Hu; [done|].
  pose proof (reach_ginv _ _ _ Hreach) as Hinv.
  assert (u ∈ dom graph) as [edges Hedges]%elem_of_dom.
  { destruct (ginv_queue _ _ _ Hinv d u) as (z & Hz & _);
      [by eapply heappop_elem_of|].
    assert (u ∈ dom (st_distances st)) as Hdom by (apply elem_of_dom; eauto).
    rewrite (ginv_dom _ _ _ Hinv : dom (st_distances st) = _) in Hdom.
    set_solver. }
  rewrite Hedges.
  destruct (for_neighbors_total graph start_node u d [] edges
              (settle u rest st)) as [st' ->]; [done| |done].
  eapply rtc_r; [done|]. by eapply step_settle.
Qed.

Lemma while_loop_total graph start_node fuel st :
  wf_graph graph → start_node ∈ dom graph →
  reach graph start_node (AtWhile st) →
  ∀ e, while_loop fuel graph st ≠ Raised e.
Proof.
  intros Hwf Hstart. revert st.
  induction fuel as [|fuel IH]; intros st Hreach e; simpl; [done|].
  destruct (loop_body graph st) as [r|st'|e'] eqn:Hbody; [done| |].
  - apply IH. eapply rtc_trans; [exact Hreach|]. by apply loop_body_steps.
  - by eapply loop_body_total in Hbody.
Qed.

(** On a well-formed graph and a start vertex of the graph the tracer
    returns, and what it returns are the tables of a loop head with an
    empty queue. *)
Lemma dijkstra_with_steps_returns graph start_node :
  wf_graph graph → start_node ∈ dom graph →
  ∃ st, reach graph start_node (AtWhile st) ∧
        st_priority_queue st = [] ∧
        dijkstra_with_steps graph start_node
        = Returned (st_distances st, st_animation_steps st).
Proof.
  intros Hwf Hstart.
  destruct (dijkstra_with_steps graph start_node) as [r|e|] eqn:Hrun.
  - apply dijkstra_with_steps_Returned in Hrun as (st & ? & ? & ->).
    by exists st.
  - by eapply while_loop_total in Hrun; [|done..|apply rtc_refl].
  - by apply dijkstra_with_steps_terminates in Hrun.
Qed.

(** ** The recorded steps *)

Section lists.
Context {A : Type}.
Implicit Types (l : list A) (x a b : A) (i j : nat).

Lemma lookup_snoc_inv l x j b :
  (l ++ [x]) !! j = Some b → l !! j = Some b ∨ (j = length l ∧ b = x).
Proof.
  intros Hj. destruct (decide (j < length l)%nat) as [Hlt|Hge].
  - left. by rewrite lookup_app_l in Hj.
  - right. pose proof (lookup_lt_Some _ _ _ Hj) as Hlen.
    rewrite length_app in Hlen. simpl in Hlen.
    assert (j = length l) as -> by lia. split; [done|].
    rewrite lookup_app_r, Nat.sub_diag in Hj by lia. by injection Hj.
Qed.

Lemma lookup_snoc_lt l x i j a b :
  (i < j)%nat → (l ++ [x]) !! i = Some a → (l ++ [x]) !! j = Some b →
  l !! i = Some a ∧ (l !! j = Some b ∨ b = x).
Proof.
  intros Hij Hi Hj.
  apply lookup_snoc_inv in Hj as [Hj|[-> ->]].
  - pose proof (lookup_lt_Some _ _ _ Hj).
    rewrite lookup_app_l in Hi by lia. auto.
  - rewrite lookup_app_l in Hi by lia. auto.
Qed.

Lemma lookup_snoc_le l x i j a b :
  (i ≤ j)%nat → (l ++ [x]) !! i = Some a → (l ++ [x]) !! j = Some b →
  (l !! i = Some a ∧ (l !! j = Some b ∨ b = x)) ∨ (a = x ∧ b = x).
Proof.
  intros Hij Hi Hj.
  destruct (decide (i = j)) as [->|Hne].
  - rewrite Hi in Hj. injection Hj as <-.
    apply lookup_snoc_inv in Hi as [Hi|[-> ->]]; auto.
  - left. eapply lookup_snoc_lt; [|done..]. lia.
Qed.
End lists.

Lemma settlements_snoc_settle log e :
  visited_path e = None → settlements (log ++ [e]) = settlements log ++ [e].
Proof.
  intros He. unfold settlements. rewrite filter_app. f_equal.
  by rewrite filter_cons_True.
Qed.

Lemma settlements_snoc_relax log e :
  visited_path e ≠ None → settlements (log ++ [e]) = settlements log.
Proof.
  intros He. unfold settlements.
  rewrite filter_app, filter_cons_False by done. apply app_nil_r.
Qed.

Lemma dist_le_refl a : dist_le a a.
Proof. by left. Qed.

Lemma dist_lt_le_trans a b c : dist_lt a b → dist_le b c → dist_lt a c.
Proof.
  intros Hab [->|Hbc]; [done|].
  destruct a, b, c; simpl in *; try done. lia.
Qed.

Lemma linv_initial graph start_node :
  linv graph start_node (AtWhile (initial_state graph start_node)).
Proof. split; simpl; try done; intros *; by rewrite ?elem_of_nil. Qed.

Lemma linv_step graph start_node p p' :
  reach graph start_node p → linv graph start_node p → step graph p p' →
  linv graph start_node p'.
Proof.
  intros Hreach Hl Hstep.
  pose proof (reach_ginv _ _ _ Hreach) as Hg.
  assert (ginv graph start_node p') as Hg' by (by eapply ginv_step).
  destruct Hl as [Ldom Lvis Lnode Ledge Lfin Labove Lcur Lsrc Lset Lmono
                  Lstrict Lsize Lnext Llast Lcount].
  destruct Hstep as [st d u rest Hpop Hu|st d u rest edges Hpop Hu Hgu
                    |u d done [v w] todo st st' Hrelax|u d done st];
    simpl in *.
  - (* a stale item is dropped *)
    by split.
  - (* a vertex is settled *)
    assert (∀ e, e ∈ st_animation_steps st → visited_node e ≠ u) as Hfresh.
    { intros e He Heq. apply Hu. rewrite <-Heq. by apply (Lvis e He), Lnode. }
    split; simpl.
    + intros e [He|He]%elem_of_app; [by apply Ldom|].
      apply list_elem_of_singleton in He as ->. apply (ginv_dom _ _ _ Hg).
    + intros e [He|He]%elem_of_app.
      * specialize (Lvis e He). set_solver.
      * by apply list_elem_of_singleton in He as ->.
    + intros e [He|He]%elem_of_app; [by apply Lnode|].
      apply list_elem_of_singleton in He as ->. simpl. set_solver.
    + intros e u' v' [He|He]%elem_of_app; [by apply Ledge|].
      by apply list_elem_of_singleton in He as ->.
    + intros e v' [He|He]%elem_of_app; [by apply Lfin|].
      apply list_elem_of_singleton in He as ->. simpl. intros Hv'.
      by apply (ginv_visited _ _ _ Hg' v').
    + intros e v' a b [He|He]%elem_of_app; [by apply Labove|].
      apply list_elem_of_singleton in He as ->. simpl.
      intros -> [= ->]. apply dist_le_refl.
    + split.
      * intros e [He|He]%elem_of_app; [by intros ?%Hfresh|].
        by apply list_elem_of_singleton in He as ->.
      * eexists (length (st_animation_steps st)), _.
        split; [by apply list_lookup_middle|done].
    + intros j ej u' v' [Hj|[-> ->]]%lookup_snoc_inv; [|done].
      intros (i & es & ? & ? & ? & ?)%(Lsrc _ _ _ _ Hj).
      exists i, es. split_and!; [done|by apply lookup_app_l_Some|done..].
    + intros e1 e2 [He1|He1]%elem_of_app [He2|He2]%elem_of_app;
        try apply list_elem_of_singleton in He1 as ->;
        try apply list_elem_of_singleton in He2 as ->; simpl.
      * by apply Lset.
      * intros _ Heq. symmetry in Heq. by apply Hfresh in Heq.
      * intros _ Heq. by apply Hfresh in Heq.
      * done.
    + intros i j ei ej Hij Hi Hj.
      destruct (lookup_snoc_le _ _ _ _ _ _ Hij Hi Hj)
        as [[Hi' [Hj'| ->]]|[-> ->]]; [by eapply Lmono| |done].
      simpl. apply list_elem_of_lookup_2 in Hi'.
      specialize (Lvis ei Hi'). set_solver.
    + intros i j ei ej u' v' Hij Hi Hj.
      destruct (lookup_snoc_lt _ _ _ _ _ _ Hij Hi Hj) as [Hi' [Hj'| ->]];
        [by eapply Lstrict|done].
    + intros k e. rewrite settlements_snoc_settle by done.
      intros [Hk|[-> ->]]%lookup_snoc_inv; [by apply Lsize|]. simpl.
      rewrite size_union, size_singleton, Lcount by set_solver. done.
    + intros k e e'. rewrite settlements_snoc_settle by done.
      intros Hk [Hk'|[Hlen ->]]%lookup_snoc_inv.
      * apply lookup_lt_Some in Hk' as Hlt.
        rewrite lookup_app_l in Hk by lia. by eapply Lnext.
      * rewrite lookup_app_l in Hk by lia.
        rewrite last_lookup, <-Hlen in Llast. simpl in Llast.
        rewrite Hk in Llast. simpl. by rewrite Llast.
    + rewrite settlements_snoc_settle, last_snoc by done. done.
    + rewrite settlements_snoc_settle, length_app by done. simpl.
      rewrite size_union, size_singleton, Lcount by set_solver. lia.
  - (* one edge is handled *)
    destruct (ginv_current _ _ _ Hg) as (Hgu & Hu & Hdu).
    apply relax_inv in Hrelax as [[-> Hskip]|(Hv & (dn & Hdn & Hlt) & ->)];
      simpl in *; [by split|].
    split; simpl.
    + intros e [He|He]%elem_of_app; [by apply Ldom|].
      apply list_elem_of_singleton in He as ->. apply (ginv_dom _ _ _ Hg').
    + intros e [He|He]%elem_of_app; [by apply Lvis|].
      by apply list_elem_of_singleton in He as ->.
    + intros e [He|He]%elem_of_app; [by apply Lnode|].
      by apply list_elem_of_singleton in He as ->.
    + intros e u' v' [He|He]%elem_of_app; [by apply Ledge|].
      apply list_elem_of_singleton in He as ->. simpl. by intros [= -> _].
    + intros e v' [He|He]%elem_of_app; [by apply Lfin|].
      apply list_elem_of_singleton in He as ->. simpl. intros Hv'.
      by apply (ginv_visited _ _ _ Hg' v').
    + intros e v' a b [He|He]%elem_of_app.
      * intros Ha. rewrite lookup_insert. case_decide as Hvv.
        -- subst v'. intros [= <-]. right.
           eapply dist_lt_le_trans; [exact Hlt|].
           exact (Labove e v a dn He Ha Hdn).
        -- intros Hb. exact (Labove e v' a b He Ha Hb).
      * apply list_elem_of_singleton in He as ->. simpl.
        intros -> [= ->]. apply dist_le_refl.
    + destruct Lcur as [Lcur (i & es & ? & ? & ?)]. split.
      * intros e [He|He]%elem_of_app; [by apply Lcur|].
        by apply list_elem_of_singleton in He as ->.
      * exists i, es. split_and!; [by apply lookup_app_l_Some|done..].
    + intros j ej u' v' [Hj|[-> ->]]%lookup_snoc_inv.
      * intros (i & es & ? & ? & ? & ?)%(Lsrc _ _ _ _ Hj).
        exists i, es. split_and!; [done|by apply lookup_app_l_Some|done..].
      * simpl. intros [= <- <-].
        destruct Lcur as [_ (i & es & Hi & ? & ?)].
        exists i, es.
        split_and!; [by eapply lookup_lt_Some|by apply lookup_app_l_Some|done..].
    + intros e1 e2 [He1|He1]%elem_of_app [He2|He2]%elem_of_app;
        try apply list_elem_of_singleton in He1 as ->;
        try apply list_elem_of_singleton in He2 as ->; simpl; try done.
      * by apply Lset.
      * intros Hnone Heq. symmetry. apply Lcur; done.
    + intros i j ei ej Hij Hi Hj.
      destruct (lookup_snoc_le _ _ _ _ _ _ Hij Hi Hj)
        as [[Hi' [Hj'| ->]]|[-> ->]]; [by eapply Lmono| |done].
      simpl. apply list_elem_of_lookup_2 in Hi'. by apply Lvis.
    + intros i j ei ej u' v' Hij Hi Hj.
      destruct (lookup_snoc_lt _ _ _ _ _ _ Hij Hi Hj) as [Hi' [Hj'| ->]];
        [by eapply Lstrict|].
      simpl. intros [= <- <-].
      apply list_elem_of_lookup_2 in Hi'.
      assert (v ∈ dom (distances ei)) as [a Ha]%elem_of_dom.
      { rewrite (Ldom ei Hi'), <-(ginv_dom _ _ _ Hg). simpl.
        apply elem_of_dom. eauto. }
      exists a, (Fin (d + w)). split_and!; [done|apply lookup_insert_eq|].
      eapply dist_lt_le_trans; [exact Hlt|].
      exact (Labove ei v a dn Hi' Ha Hdn).
    + intros k e. rewrite settlements_snoc_relax by done. apply Lsize.
    + intros k e e'. rewrite settlements_snoc_relax by done. apply Lnext.
    + by rewrite settlements_snoc_relax.
    + by rewrite settlements_snoc_relax.
  - (* the edges of the vertex are exhausted *)
    by split.
Qed.

Lemma reach_ind graph start_node (P : point → Prop) :
  P (AtWhile (initial_state graph start_node)) →
  (∀ p p', reach graph start_node p → P p → step graph p p' → P p') →
  ∀ p, reach graph start_node p → P p.
Proof.
  intros Hinit Hstep p Hreach.
  eapply (rtc_ind_r (λ p, P p)); [exact Hinit| |exact Hreach].
  intros p1 p2 Hp1 Hs HP. by eapply Hstep.
Qed.

Lemma reach_linv graph start_node p :
  reach graph start_node p → linv graph start_node p.
Proof.
  revert p. apply reach_ind; [apply linv_initial|].
  intros p p' Hreach Hl Hstep. by eapply linv_step.
Qed.

(** ** Shortest distances (non-negative weights) *)

Lemma path_nonneg graph a b w :
  nonneg_weights graph → path graph a b w → 0 ≤ w.
Proof.
  intros Hnn Hpath. induction Hpath as [u|u edges x c v w Hu Hx _ IH]; [done|].
  pose proof (nonneg_weights_edge _ _ _ _ _ Hnn Hu Hx). lia.
Qed.

(** A path that starts inside a set of vertices and ends outside of it has
    an edge that leaves the set. *)
Lemma path_crossing graph (V : VisitedSet) a u w :
  path graph a u w → a ∈ V → u ∉ V →
  ∃ x edges y c w1 w2,
    path graph a x w1 ∧ x ∈ V ∧ graph !! x = Some edges ∧ (y, c) ∈ edges ∧
    y ∉ V ∧ path graph y u w2 ∧ w = w1 + c + w2.
Proof.
  intros Hpath. induction Hpath as [u|a edges x c u w Ha Hx Hpath IH];
    intros Hin Hout; [done|].
  destruct (decide (x ∈ V)) as [HxV|HxV].
  - destruct (IH HxV Hout) as (x' & edges' & y & c' & w1 & w2 & Hp1 & ? & ?
                               & ? & ? & Hp2 & ->).
    exists x', edges', y, c', (c + w1), w2.
    split_and!; [by eapply path_cons|done..|lia].
  - exists a, edges, x, c, 0, w.
    split_and!; [apply path_nil|done..|lia].
Qed.

Lemma ninv_initial graph start_node :
  ninv graph start_node (AtWhile (initial_state graph start_node)).
Proof.
  split; simpl; [|set_solver..].
  exists 0. by rewrite lookup_insert_eq.
Qed.

Lemma ninv_step graph start_node p p' :
  nonneg_weights graph →
  reach graph start_node p → ninv graph start_node p → step graph p p' →
  ninv graph start_node p'.
Proof.
  intros Hnn Hreach [Nstart Nopt Nrel] Hstep.
  pose proof (reach_ginv _ _ _ Hreach) as Hg.
  destruct Hstep as [st d u rest Hpop Hu|st d u rest edges Hpop Hu Hgu
                    |u d done [v w] todo st st' Hrelax|u d done st];
    simpl in *.
  - (* a stale item is dropped *)
    by split.
  - (* a vertex is settled: its distance is that of a shortest path *)
    assert (∀ z, (z, u) ∈ st_priority_queue st → d ≤ z) as Hmin_u.
    { intros z Hz. pose proof (heappop_min _ _ _ _ Hpop Hz) as Hmin.
      apply entry_leb_spec in Hmin. simpl in Hmin. lia. }
    assert (∀ z y, (z, y) ∈ st_priority_queue st → d ≤ z) as Hmin.
    { intros z y Hz. pose proof (heappop_min _ _ _ _ Hpop Hz) as Hmin.
      apply entry_leb_spec in Hmin. simpl in Hmin. lia. }
    split; simpl; [done| |].
    + intros v z w [->%elem_of_singleton|Hv]%elem_of_union Hz Hpath;
        [|by eapply Nopt].
      assert (d ≤ w) as Hdw.
      { destruct (decide (start_node ∈ st_visited_nodes st)) as [Hs|Hs].
        - destruct (path_crossing _ _ _ _ _ Hpath Hs Hu)
            as (x & edges' & y & c & w1 & w2 & Hp1 & Hx & Hgx & Hy & HyV
                & Hp2 & ->).
          destruct (ginv_visited _ _ _ Hg x Hx) as (_ & zx & Hzx).
          simpl in Hzx.
          pose proof (Nopt x zx w1 Hx Hzx Hp1).
          destruct (Nrel x zx edges' y c Hx Hzx Hgx Hy I) as (zy & Hzy & ?).
          pose proof (Hmin _ _ (ginv_pending _ _ _ Hg y zy HyV Hzy)).
          pose proof (path_nonneg _ _ _ _ Hnn Hp2). lia.
        - destruct Nstart as (zs & Hzs & ?).
          pose proof (Hmin _ _ (ginv_pending _ _ _ Hg _ zs Hs Hzs)).
          pose proof (path_nonneg _ _ _ _ Hnn Hpath). lia. }
      destruct (ginv_queue _ _ _ Hg d u) as (z' & Hz' & ?);
        [by eapply heappop_elem_of|].
      simpl in Hz'. rewrite Hz in Hz'. injection Hz' as <-. lia.
    + intros u' zu edges' v w Hu' Hzu Hgu' Hvw [Hne|Hin];
        [|by apply elem_of_nil in Hin].
      eapply Nrel; [|done..]. set_solver.
  - (* one edge is handled *)
    destruct (ginv_current _ _ _ Hg) as (Hgu & Hu & Hdu).
    assert ((v, w) ∈ done ++ (v, w) :: todo) as Hvw
      by (apply elem_of_app; right; left).
    apply relax_inv in Hrelax as [[-> Hskip]|(Hv & (dn & Hdn & Hlt) & ->)];
      simpl in *.
    + split; simpl; [done..|].
      intros u' zu edges' v' w' Hu' Hzu Hgu' Hvw' [Hne|Hin];
        [by eapply Nrel; eauto|].
      apply elem_of_app in Hin as [Hin|Hin]; [by eapply Nrel; eauto|].
      apply list_elem_of_singleton in Hin as [= -> ->].
      assert (u' = u ∨ u' ≠ u) as [->|Hne] by (destruct (decide (u' = u)); auto);
        [|by eapply Nrel; eauto].
      rewrite Hdu in Hzu. injection Hzu as <-.
      destruct Hskip as [Hv|?]; [|done].
      destruct (ginv_visited _ _ _ Hg v Hv) as (_ & zv & Hzv). simpl in Hzv.
      exists zv. split; [done|].
      apply (Nopt v zv (d + w) Hv Hzv).
      eapply path_snoc; [|done..]. by apply (ginv_path _ _ _ Hg).
    + assert (u ≠ v) as Huv by (by intros ->).
      split; simpl.
      * destruct Nstart as (zs & Hzs & ?).
        rewrite lookup_insert. case_decide as Hvs; [|by eauto].
        subst v. exists (d + w). split; [done|].
        rewrite Hzs in Hdn. injection Hdn as <-. simpl in Hlt. lia.
      * intros v' z w' Hv'. rewrite lookup_insert_ne by (by intros ->).
        by apply Nopt.
      * intros u' zu edges' v' w' Hu'.
        rewrite lookup_insert_ne by (by intros ->).
        intros Hzu Hgu' Hvw' Hhandled.
        assert (u' ≠ u ∨ (v', w') ∈ done ∨ (u' = u ∧ v' = v ∧ w' = w))
          as Hcases.
        { destruct Hhandled as [?|Hin]; [by left|].
          apply elem_of_app in Hin as [?|Hin]; [by auto|].
          apply list_elem_of_singleton in Hin as [= -> ->].
          destruct (decide (u' = u)); auto. }
        rewrite lookup_insert. case_decide as Hvv.
        -- subst v'. exists (d + w). split; [done|].
           destruct Hcases as [Hne|[Hin|(-> & _ & ->)]].
           ++ destruct (Nrel u' zu edges' v w' Hu' Hzu Hgu' Hvw')
                as (zv & Hzv & ?); [by left|].
              rewrite Hzv in Hdn. injection Hdn as <-. simpl in Hlt. lia.
           ++ destruct (Nrel u' zu edges' v w' Hu' Hzu Hgu' Hvw')
                as (zv & Hzv & ?); [by right|].
              rewrite Hzv in Hdn. injection Hdn as <-. simpl in Hlt. lia.
           ++ rewrite Hdu in Hzu. injection Hzu as <-. lia.
        -- destruct Hcases as [Hne|[Hin|(_ & -> & _)]]; [| |done].
           ++ eapply Nrel; [done..|by left].
           ++ eapply Nrel; [done..|by right].
  - (* the edges of the vertex are exhausted *)
    destruct (ginv_current _ _ _ Hg) as (Hgu & Hu & Hdu).
    rewrite app_nil_r in Hgu.
    split; simpl; [done..|].
    intros u' zu edges' v w Hu' Hzu Hgu' Hvw _.
    eapply Nrel; [done..|].
    destruct (decide (u' = u)) as [->|]; [right|by left]. congruence.
Qed.

Lemma reach_ninv graph start_node p :
  nonneg_weights graph →
  reach graph start_node p → ninv graph start_node p.
Proof.
  intros Hnn. revert p. apply reach_ind; [apply ninv_initial|].
  intros p p' Hreach Hn Hstep. by eapply ninv_step.
Qed.

(** ** The end of the loop *)

(** When the queue is empty the visited vertices are the vertices that can
    be reached from the start. *)
Lemma final_visited graph start_node st :
  reach graph start_node (AtWhile st) → st_priority_queue st = [] →
  ∀ v, v ∈ st_visited_nodes st ↔ reachable graph start_node v.
Proof.
  intros Hreach Hempty v. pose proof (reach_ginv _ _ _ Hreach) as Hg.
  assert (∀ x z, st_distances st !! x = Some (Fin z) →
                 x ∈ st_visited_nodes st) as Hqueue.
  { intros x z Hz. destruct (decide (x ∈ st_visited_nodes st)); [done|].
    pose proof (ginv_pending _ _ _ Hg x z) as Hin. simpl in Hin.
    rewrite Hempty in Hin. by apply elem_of_nil in Hin. }
  split.
  - intros (_ & z & Hz)%(ginv_visited _ _ _ Hg). simpl in Hz.
    exists z. by apply (ginv_path _ _ _ Hg).
  - intros [w Hpath].
    assert (start_node ∈ st_visited_nodes st) as Hs.
    { destruct (ginv_start _ _ _ Hg) as [z Hz]. by eapply Hqueue. }
    assert (∀ a, path graph a v w → a ∈ st_visited_nodes st →
                 v ∈ st_visited_nodes st) as Hclosed; [|by eauto].
    clear Hpath Hs. intros a Hpath.
    induction Hpath as [u|u edges x c v w Hu Hx _ IH]; intros Hs; [done|].
    apply IH.
    destruct (ginv_edges _ _ _ Hg u edges (x, c)) as [z Hz]; [done..|].
    by eapply Hqueue.
Qed.

(** ** C1: the returned distances are the shortest distances *)

(** C1. On a graph whose weights are all non-negative, from a start vertex
    of the graph, [dijkstra_with_steps] returns a distance table over the
    vertices of the graph that gives every vertex reachable from the start
    the weight of a shortest path to it, and every other vertex the
    infinite value. *)
Theorem dijkstra_shortest_distances graph start_node :
  wf_graph graph → nonneg_weights graph → start_node ∈ dom graph →
  ∃ final_distances animation_steps,
    dijkstra_with_steps graph start_node
    = Returned (final_distances, animation_steps) ∧
    dom final_distances = dom graph ∧
    ∀ v, v ∈ dom graph →
      (reachable graph start_node v →
       ∃ z, final_distances !! v = Some (Fin z) ∧
            shortest graph start_node v z) ∧
      (¬ reachable graph start_node v → final_distances !! v = Some Inf).
Proof.
  intros Hwf Hnn Hstart.
  destruct (dijkstra_with_steps_returns graph start_node Hwf Hstart)
    as (st & Hreach & Hempty & Hrun).
  pose proof (reach_ginv _ _ _ Hreach) as Hg.
  pose proof (reach_ninv _ _ _ Hnn Hreach) as Hn.
  exists (st_distances st), (st_animation_steps st).
  assert (dom (st_distances st) = dom graph) as Hdom.
  { rewrite (ginv_dom _ _ _ Hg : dom (st_distances st) = _). set_solver. }
  split_and!; [done..|].
  intros v Hv. split.
  - intros Hvis%(final_visited _ _ _ Hreach Hempty).
    destruct (ginv_visited _ _ _ Hg v Hvis) as (_ & z & Hz). simpl in Hz.
    exists z. split; [done|]. split; [by apply (ginv_path _ _ _ Hg)|].
    intros w Hpath. by apply (ninv_optimal _ _ _ Hn v z w).
  - intros Hunreach. rewrite <-Hdom in Hv.
    apply elem_of_dom in Hv as [[z|] Hz]; [|done].
    destruct Hunreach. exists z. by apply (ginv_path _ _ _ Hg).
Qed.

Lemma dijkstra_shortest_distances_witness :
  ∃ final_distances animation_steps,
    dijkstra_with_steps graph 0 = Returned (final_distances, animation_steps) ∧
    dom final_distances = dom graph ∧
    ∀ v, v ∈ dom graph →
      (reachable graph 0 v →
       ∃ z, final_distances !! v = Some (Fin z) ∧ shortest graph 0 v z) ∧
      (¬ reachable graph 0 v → final_distances !! v = Some Inf).
Proof.
  apply (dijkstra_shortest_distances graph 0).
  - apply (bool_decide_unpack _). vm_compute. exact I.
  - apply (bool_decide_unpack _). vm_compute. exact I.
  - apply (bool_decide_unpack _). vm_compute. exact I.
Defined.

(** The scenario of §8: the final distances are 0, 6, 1 and 7. *)
Example scenario_distances :
  ∃ final_distances animation_steps,
    dijkstra_with_steps scenario_graph 0
    = Returned (final_distances, animation_steps) ∧
    final_distances
    = list_to_map [(0, Fin 0); (1, Fin 6); (2, Fin 1); (3, Fin 7)].
Proof. eexists _, _. split; vm_compute; reflexivity. Qed.

(** A neighbor that is not a key of the graph: [distances[neighbor]]
    raises [KeyError]. *)
Example dangling_neighbor_raises :
  dijkstra_with_steps {[ 0 := [(1, 5)] ]} 0 = Raised (KeyError 1).
Proof. vm_compute. reflexivity. Qed.

(** ** C2: negative weights *)

(** C2, as the code has it. The tracer does not look at the sign of the
    weights: on a graph with a negative weight, from a start vertex of the
    graph, it raises no exception and returns a distance table and the
    recorded steps. *)
Theorem negative_weight_returns graph start_node :
  has_negative_weight graph →
  wf_graph graph → start_node ∈ dom graph →
  ∃ final_distances animation_steps,
    dijkstra_with_steps graph start_node
    = Returned (final_distances, animation_steps).
Proof.
  intros _ Hwf Hstart.
  destruct (dijkstra_with_steps_returns graph start_node Hwf Hstart)
    as (st & _ & _ & Hrun).
  eauto.
Qed.

Lemma negative_graph_has_negative_weight : has_negative_weight negative_graph.
Proof.
  exists 2, [(1, -2)], 1, (-2). split_and!; [done|by left|lia].
Qed.

Lemma negative_weight_returns_witness :
  ∃ final_distances animation_steps,
    dijkstra_with_steps negative_graph 0
    = Returned (final_distances, animation_steps).
Proof.
  apply (negative_weight_returns negative_graph 0).
  - exists 2, [(1, -2)], 1, (-2). split_and!; [reflexivity|by left|lia].
  - apply (bool_decide_unpack _). vm_compute. exact I.
  - apply (bool_decide_unpack _). vm_compute. exact I.
Defined.

(** C2 does not hold of the code: [negative_graph] has the edge 2 → 1 of
    weight -2, and the call returns; it even returns distance 2 for
    vertex 1, which the path 0 → 2 → 1 reaches at distance 1. *)
Lemma negative_weight_not_rejected :
  has_negative_weight negative_graph ∧
  (∃ final_distances animation_steps,
     dijkstra_with_steps negative_graph 0
     = Returned (final_distances, animation_steps) ∧
     final_distances !! 1 = Some (Fin 2)) ∧
  path negative_graph 0 1 1.
Proof.
  split_and!.
  - apply negative_graph_has_negative_weight.
  - eexists _, _. split; [vm_compute; reflexivity|]. reflexivity.
  - change 1 with (3 + (-2 + 0)) at 2.
    eapply (path_cons _ 0 _ 2); [reflexivity|by right; left|].
    eapply (path_cons _ 2 _ 1); [reflexivity|by left|]. apply path_nil.
Qed.

(** ** C3: a start vertex that is not in the graph *)

(** C3. When the start vertex is not a key of the graph, the call fails:
    [graph[current_node]] raises [KeyError] for the start vertex in the
    first iteration, and nothing is returned (no recorded steps). *)
Theorem unknown_start_raises graph start_node :
  start_node ∉ dom graph →
  dijkstra_with_steps graph start_node = Raised (KeyError start_node) ∧
  ∀ r, dijkstra_with_steps graph start_node ≠ Returned r.
Proof.
  intros Hstart%not_elem_of_dom.
  assert (dijkstra_with_steps graph start_node = Raised (KeyError start_node))
    as Hrun.
  { unfold dijkstra_with_steps. simpl. unfold loop_body. simpl.
    case_decide; [set_solver|]. by rewrite Hstart. }
  split; [done|]. intros r. by rewrite Hrun.
Qed.

Lemma unknown_start_raises_witness :
  dijkstra_with_steps graph 8 = Raised (KeyError 8) ∧
  ∀ r, dijkstra_with_steps graph 8 ≠ Returned r.
Proof.
  apply (unknown_start_raises graph 8).
  apply (bool_decide_unpack _). vm_compute. exact I.
Defined.

(** ** C4: stale queue items *)

(** C4. When the item popped from the queue names a vertex that is already
    visited, the iteration only drops the item: the loop goes on with the
    rest of the queue, and the recorded steps, the distance table and the
    visited set are unchanged. *)
Theorem stale_item_discarded graph st d u rest :
  heappop (st_priority_queue st) = Some ((d, u), rest) →
  u ∈ st_visited_nodes st →
  ∃ st', loop_body graph st = Continue st' ∧
         st_priority_queue st' = rest ∧
         st_animation_steps st' = st_animation_steps st ∧
         st_distances st' = st_distances st ∧
         st_visited_nodes st' = st_visited_nodes st.
Proof.
  intros Hpop Hu. exists (discard rest st).
  unfold loop_body. rewrite Hpop. by rewrite decide_True.
Qed.

(** In the run on [scenario_graph] the fifth iteration pops the stale item
    [(11, 3)]. *)
Lemma stale_item_discarded_witness :
  iterations 4 scenario_graph (initial_state scenario_graph 0)
  = Continue (state_after 4 scenario_graph 0) ∧
  heappop (st_priority_queue (state_after 4 scenario_graph 0))
  = Some ((11, 3), []) ∧
  ∃ st', loop_body scenario_graph (state_after 4 scenario_graph 0)
         = Continue st' ∧
         st_priority_queue st' = [] ∧
         st_animation_steps st'
         = st_animation_steps (state_after 4 scenario_graph 0) ∧
         st_distances st' = st_distances (state_after 4 scenario_graph 0) ∧
         st_visited_nodes st'
         = st_visited_nodes (state_after 4 scenario_graph 0).
Proof.
  split; [vm_compute; reflexivity|].
  split; [vm_compute; reflexivity|].
  apply (stale_item_discarded scenario_graph
           (state_after 4 scenario_graph 0) 11 3 []).
  - vm_compute. reflexivity.
  - apply (bool_decide_unpack _). vm_compute. exact I.
Defined.

(** ** C5: relaxation events *)

(** C5. In the steps recorded by a run on a well-formed graph from a start
    vertex of the graph, every relaxation event, of edge [(u, v)], is
    recorded for the vertex [u]; its distance snapshot gives [v] a value
    strictly smaller than the snapshot of every earlier event does; the
    settlement event of [u] was recorded before it; and its visited-set
    snapshot is that of the settlement event of [u]. *)
Theorem relaxation_events graph start_node :
  wf_graph graph → start_node ∈ dom graph →
  ∃ final_distances animation_steps,
    dijkstra_with_steps graph start_node
    = Returned (final_distances, animation_steps) ∧
    ∀ (j : nat) ej u v,
      animation_steps !! j = Some ej → visited_path ej = Some (u, v) →
      visited_node ej = u ∧
      (∀ (i : nat) ei,
         (i < j)%nat → animation_steps !! i = Some ei →
         ∃ a b, distances ei !! v = Some a ∧ distances ej !! v = Some b ∧
                dist_lt b a) ∧
      (∃ (i : nat) es,
         (i < j)%nat ∧ animation_steps !! i = Some es ∧
         visited_path es = None ∧ visited_node es = u) ∧
      (∀ es, es ∈ animation_steps →
             visited_path es = None → visited_node es = u →
             visited_nodes_set ej = visited_nodes_set es).
Proof.
  intros Hwf Hstart.
  destruct (dijkstra_with_steps_returns graph start_node Hwf Hstart)
    as (st & Hreach & _ & Hrun).
  pose proof (reach_linv _ _ _ Hreach) as Hl.
  exists (st_distances st), (st_animation_steps st). split; [done|].
  intros j ej u v Hj Hpath.
  assert (ej ∈ st_animation_steps st) as Hin
    by (by eapply list_elem_of_lookup_2).
  assert (visited_node ej = u) as Hnode
    by (by apply (linv_edge _ _ _ Hl ej u v)).
  split_and!; [done| | |].
  - intros i ei Hij Hi. by apply (linv_strict _ _ _ Hl i j ei ej u v).
  - by apply (linv_source _ _ _ Hl j ej u v).
  - intros es Hes Hnone Hu.
    apply (linv_settled _ _ _ Hl es ej); [done..|congruence].
Qed.

Lemma relaxation_events_witness :
  ∃ final_distances animation_steps,
    dijkstra_with_steps graph 0 = Returned (final_distances, animation_steps) ∧
    ∀ (j : nat) ej u v,
      animation_steps !! j = Some ej → visited_path ej = Some (u, v) →
      visited_node ej = u ∧
      (∀ (i : nat) ei,
         (i < j)%nat → animation_steps !! i = Some ei →
         ∃ a b, distances ei !! v = Some a ∧ distances ej !! v = Some b ∧
                dist_lt b a) ∧
      (∃ (i : nat) es,
         (i < j)%nat ∧ animation_steps !! i = Some es ∧
         visited_path es = None ∧ visited_node es = u) ∧
      (∀ es, es ∈ animation_steps →
             visited_path es = None → visited_node es = u →
             visited_nodes_set ej = visited_nodes_set es).
Proof.
  apply (relaxation_events graph 0).
  - apply (bool_decide_unpack _). vm_compute. exact I.
  - apply (bool_decide_unpack _). vm_compute. exact I.
Defined.

(** ** C6: growth of the visited set *)

(** C6. In the steps recorded by a run on a well-formed graph from a start
    vertex of the graph: the visited-set snapshot of the [k]-th settlement
    event (counting from 0) has [k + 1] vertices, and is the snapshot of
    the settlement event before it plus the vertex just settled; the
    snapshots never lose a vertex from one event to a later one; and the
    snapshot of the last settlement event is the set of the vertices
    reachable from the start. *)
Theorem visited_set_growth graph start_node :
  wf_graph graph → start_node ∈ dom graph →
  ∃ final_distances animation_steps,
    dijkstra_with_steps graph start_node
    = Returned (final_distances, animation_steps) ∧
    (∀ (k : nat) e,
       settlements animation_steps !! k = Some e →
       size (visited_nodes_set e) = S k) ∧
    (∀ (k : nat) e e',
       settlements animation_steps !! k = Some e →
       settlements animation_steps !! S k = Some e' →
       visited_node e' ∉ visited_nodes_set e ∧
       visited_nodes_set e' = {[visited_node e']} ∪ visited_nodes_set e) ∧
    (∀ (i j : nat) ei ej,
       (i ≤ j)%nat →
       animation_steps !! i = Some ei → animation_steps !! j = Some ej →
       visited_nodes_set ei ⊆ visited_nodes_set ej) ∧
    (∃ e, last (settlements animation_steps) = Some e ∧
          ∀ v, v ∈ visited_nodes_set e ↔ reachable graph start_node v).
Proof.
  intros Hwf Hstart.
  destruct (dijkstra_with_steps_returns graph start_node Hwf Hstart)
    as (st & Hreach & Hempty & Hrun).
  pose proof (reach_linv _ _ _ Hreach) as Hl.
  exists (st_distances st), (st_animation_steps st).
  split_and!; [done|..].
  - apply (linv_size _ _ _ Hl).
  - apply (linv_next _ _ _ Hl).
  - apply (linv_mono _ _ _ Hl).
  - pose proof (linv_last _ _ _ Hl) as Hlast. simpl in Hlast.
    destruct (last (settlements (st_animation_steps st))) as [e|].
    + exists e. split; [done|]. rewrite Hlast.
      by apply final_visited.
    + assert (start_node ∈ st_visited_nodes st) as Hs.
      { apply (final_visited _ _ _ Hreach Hempty).
        exists 0. apply path_nil. }
      set_solver.
Qed.

Lemma visited_set_growth_witness :
  ∃ final_distances animation_steps,
    dijkstra_with_steps graph 0 = Returned (final_distances, animation_steps) ∧
    (∀ (k : nat) e,
       settlements animation_steps !! k = Some e →
       size (visited_nodes_set e) = S k) ∧
    (∀ (k : nat) e e',
       settlements animation_steps !! k = Some e →
       settlements animation_steps !! S k = Some e' →
       visited_node e' ∉ visited_nodes_set e ∧
       visited_nodes_set e' = {[visited_node e']} ∪ visited_nodes_set e) ∧
    (∀ (i j : nat) ei ej,
       (i ≤ j)%nat →
       animation_steps !! i = Some ei → animation_steps !! j = Some ej →
       visited_nodes_set ei ⊆ visited_nodes_set ej) ∧
    (∃ e, last (settlements animation_steps) = Some e ∧
          ∀ v, v ∈ visited_nodes_set e ↔ reachable graph 0 v).
Proof.
  apply (visited_set_growth graph 0).
  - apply (bool_decide_unpack _). vm_compute. exact I.
  - apply (bool_decide_unpack _). vm_compute. exact I.
Defined.

(** ** C10: visited vertices have a finite distance *)

(** C10. In every step recorded by a run on a well-formed graph from a
    start vertex of the graph, every vertex of the visited-set snapshot has
    a finite value in the distance snapshot of the same step. *)
Theorem visited_distances_finite graph start_node :
  wf_graph graph → start_node ∈ dom graph →
  ∃ final_distances animation_steps,
    dijkstra_with_steps graph start_node
    = Returned (final_distances, animation_steps) ∧
    ∀ e v, e ∈ animation_steps → v ∈ visited_nodes_set e →
           ∃ z, distances e !! v = Some (Fin z).
Proof.
  intros Hwf Hstart.
  destruct (dijkstra_with_steps_returns graph start_node Hwf Hstart)
    as (st & Hreach & _ & Hrun).
  exists (st_distances st), (st_animation_steps st). split; [done|].
  apply (linv_finite _ _ _ (reach_linv _ _ _ Hreach)).
Qed.

Lemma visited_distances_finite_witness :
  ∃ final_distances animation_steps,
    dijkstra_with_steps graph 0 = Returned (final_distances, animation_steps) ∧
    ∀ e v, e ∈ animation_steps → v ∈ visited_nodes_set e →
           ∃ z, distances e !! v = Some (Fin z).
Proof.
  apply (visited_distances_finite graph 0).
  - apply (bool_decide_unpack _). vm_compute. exact I.
  - apply (bool_decide_unpack _). vm_compute. exact I.
Defined.

(** ** C8: determinism *)

Lemma same_bag_refl st : same_bag st st.
Proof. by split_and!. Qed.

Lemma relax_layout u d e st1 st2 :
  same_bag st1 st2 →
  sum_relation eq same_bag (relax u d e st1) (relax u d e st2).
Proof.
  destruct st1 as [d1 q1 v1 l1], st2 as [d2 q2 v2 l2], e as [v w].
  intros (Hd & Hv & Hl & Hq). simpl in *. subst d2 v2 l2.
  unfold relax. simpl. case_decide.
  { constructor. by split_and!. }
  destruct (d1 !! v) as [dn|]; [|by constructor].
  destruct (dist_ltb (d + w) dn); constructor; split_and!; simpl; try done.
  unfold heappush. by rewrite Hq.
Qed.

Lemma for_neighbors_layout u d edges st1 st2 :
  same_bag st1 st2 →
  sum_relation eq same_bag
    (for_neighbors u d edges st1) (for_neighbors u d edges st2).
Proof.
  revert st1 st2. induction edges as [|e edges IH]; intros st1 st2 Hsame.
  - by constructor.
  - simpl. destruct (relax_layout u d e st1 st2 Hsame) as [? ? ->|st1' st2' ?].
    + by constructor.
    + by apply IH.
Qed.

Lemma loop_body_layout graph st1 st2 :
  same_bag st1 st2 →
  same_iteration (loop_body graph st1) (loop_body graph st2).
Proof.
  intros (Hd & Hv & Hl & Hq). unfold loop_body.
  destruct (heappop (st_priority_queue st1)) as [[[d u] rest1]|] eqn:Hpop1.
  - destruct (heappop_layout _ _ _ _ Hq Hpop1) as (rest2 & -> & Hrest).
    rewrite <-Hv. case_decide.
    { simpl. by split_and!. }
    destruct (graph !! u) as [edges|]; [|done].
    assert (same_bag (settle u rest1 st1) (settle u rest2 st2)) as Hsettle.
    { unfold settle. split_and!; simpl; by rewrite ?Hd, ?Hv, ?Hl. }
    by destruct (for_neighbors_layout u d edges _ _ Hsettle) as [? ? ->|??].
  - apply heappop_None in Hpop1. rewrite Hpop1 in Hq.
    apply Permutation_nil_l in Hq. rewrite <-Hq. simpl. by rewrite Hd, Hl.
Qed.

Lemma while_loop_layout graph fuel st1 st2 :
  same_bag st1 st2 → while_loop fuel graph st1 = while_loop fuel graph st2.
Proof.
  revert st1 st2. induction fuel as [|fuel IH]; intros st1 st2 Hsame; [done|].
  simpl. pose proof (loop_body_layout graph st1 st2 Hsame) as Hbody.
  destruct (loop_body graph st1), (loop_body graph st2); simpl in Hbody;
    try done; [by subst|by apply IH|by subst].
Qed.

Lemma same_bag_sym st1 st2 : same_bag st1 st2 → same_bag st2 st1.
Proof. intros (? & ? & ? & ?). by split_and!. Qed.

Lemma same_bag_trans st1 st2 st3 :
  same_bag st1 st2 → same_bag st2 st3 → same_bag st1 st3.
Proof.
  intros (? & ? & ? & ?) (? & ? & ? & ?).
  split_and!; by etrans.
Qed.

(** Runs from states that hold the same items have the same outcome,
    however the heap lays out its items in each of them. *)
Lemma run_layout graph st1 o1 :
  run graph st1 o1 →
  ∀ st2 o2, same_bag st1 st2 → run graph st2 o2 → o1 = o2.
Proof.
  induction 1 as [st1 r1 Hbody1|st1 e1 Hbody1|st1 st1' st1'' o1 Hbody1 Hbag1 _ IH];
    intros st2 o2 Hsame Hrun2;
    pose proof (loop_body_layout graph st1 st2 Hsame) as Hbody;
    rewrite Hbody1 in Hbody;
    destruct Hrun2 as [st2 r2 Hbody2|st2 e2 Hbody2|st2 st2' st2'' o2 Hbody2 Hbag2 Hrun2];
    rewrite Hbody2 in Hbody; simpl in Hbody; try done; try by subst.
  apply (IH st2''); [|done].
  eapply same_bag_trans; [by apply same_bag_sym|].
  by eapply same_bag_trans.
Qed.

Lemma while_loop_run graph fuel st :
  while_loop fuel graph st ≠ OutOfFuel →
  run graph st (while_loop fuel graph st).
Proof.
  revert st. induction fuel as [|fuel IH]; intros st; simpl; [done|].
  destruct (loop_body graph st) as [r|st'|e] eqn:Hbody; intros Hfuel.
  - by apply run_break.
  - eapply run_continue; [done|apply same_bag_refl|by apply IH].
  - by apply run_raise.
Qed.

(** The steps that the [for] loop records are relaxations from
    [current_node]. *)
Lemma for_neighbors_log u d edges st st' :
  for_neighbors u d edges st = inr st' →
  ∃ later,
    st_animation_steps st' = st_animation_steps st ++ later ∧
    Forall (λ e, visited_node e = u ∧ ∃ v, visited_path e = Some (u, v))
      later.
Proof.
  revert st.
  induction edges as [|[v w] edges IH]; intros st; cbn [for_neighbors].
  - intros [= <-]. exists []. by rewrite app_nil_r.
  - destruct (relax u d (v, w) st) as [|st1] eqn:Hrelax; [done|].
    intros (later & -> & Hlater)%IH.
    apply relax_inv in Hrelax as [[-> _]|(_ & _ & ->)]; [by exists later|].
    simpl. eexists (_ :: later). rewrite <-app_assoc. split; [done|].
    constructor; [|done]. simpl. by eauto.
Qed.

(** One iteration handles the least item of the queue, in the order of
    the pairs, and the steps it records are those of the vertex of that
    item. *)
Lemma loop_body_least graph st st' :
  loop_body graph st = Continue st' →
  ∃ d u,
    (d, u) ∈ st_priority_queue st ∧
    (∀ d' u', (d', u') ∈ st_priority_queue st →
              d < d' ∨ (d = d' ∧ u ≤ u')) ∧
    if decide (u ∈ st_visited_nodes st) then
      st_animation_steps st' = st_animation_steps st
    else
      ∃ later,
        st_animation_steps st'
        = st_animation_steps st ++ settlement_step u st :: later ∧
        Forall (λ e, visited_node e = u ∧ ∃ v, visited_path e = Some (u, v))
          later.
Proof.
  unfold loop_body.
  destruct (heappop (st_priority_queue st)) as [[[d u] rest]|] eqn:Hpop;
    [|done].
  intros Hbody. exists d, u. split_and!.
  - apply heappop_perm in Hpop. rewrite Hpop. left.
  - intros d' u' Hin. apply (entry_leb_spec (d, u) (d', u')).
    by apply (heappop_min (st_priority_queue st) _ rest).
  - case_decide as Hu; [by injection Hbody as <-|].
    destruct (graph !! u) as [edges|]; [|done].
    destruct (for_neighbors u d edges (settle u rest st)) as [|st2] eqn:Hfor;
      [done|].
    injection Hbody as <-.
    apply for_neighbors_log in Hfor as (later & -> & Hlater).
    exists later. simpl. by rewrite <-app_assoc.
Qed.

(** C8. The tracer is deterministic. Every run of the loop from the
    initial state, however the heap lays out its items, has the outcome of
    [dijkstra_with_steps]: the same distance table and the same steps in
    the same order, or the same exception. And every iteration of the loop
    handles the item of the queue with the least distance and, among the
    items of that distance, the least vertex: when that vertex is not yet
    visited the next step recorded is its settlement, followed only by
    relaxations from it; when it is visited, no step is recorded. *)
Theorem tracer_deterministic graph start_node :
  run graph (initial_state graph start_node)
    (dijkstra_with_steps graph start_node) ∧
  (∀ st o,
     same_bag (initial_state graph start_node) st → run graph st o →
     o = dijkstra_with_steps graph start_node) ∧
  (∀ st st',
     loop_body graph st = Continue st' →
     ∃ d u,
       (d, u) ∈ st_priority_queue st ∧
       (∀ d' u', (d', u') ∈ st_priority_queue st →
                 d < d' ∨ (d = d' ∧ u ≤ u')) ∧
       if decide (u ∈ st_visited_nodes st) then
         st_animation_steps st' = st_animation_steps st
       else
         ∃ later,
           st_animation_steps st'
           = st_animation_steps st ++ settlement_step u st :: later ∧
           Forall (λ e, visited_node e = u ∧
                        ∃ v, visited_path e = Some (u, v)) later).
Proof.
  assert (run graph (initial_state graph start_node)
            (dijkstra_with_steps graph start_node)) as Hrun.
  { apply while_loop_run, dijkstra_with_steps_terminates. }
  split_and!.
  - done.
  - intros st o Hsame Hrun'. symmetry. by eapply run_layout.
  - apply loop_body_least.
Qed.

(** In the run on the sample graph the queue holds [(7, 3)], [(7, 7)] and
    [(8, 5)] after four iterations: the fifth iteration settles vertex 3,
    not vertex 7. *)
Lemma tracer_deterministic_witness :
  loop_body graph (state_after 4 graph 0) = Continue (state_after 5 graph 0) ∧
  st_priority_queue (state_after 4 graph 0) = [(7, 3); (7, 7); (8, 5)] ∧
  visited_node
    <$> drop (length (st_animation_steps (state_after 4 graph 0)))
          (st_animation_steps (state_after 5 graph 0))
  = [3] ∧
  ∃ d u,
    (d, u) ∈ st_priority_queue (state_after 4 graph 0) ∧
    (∀ d' u', (d', u') ∈ st_priority_queue (state_after 4 graph 0) →
              d < d' ∨ (d = d' ∧ u ≤ u')) ∧
    if decide (u ∈ st_visited_nodes (state_after 4 graph 0)) then
      st_animation_steps (state_after 5 graph 0)
      = st_animation_steps (state_after 4 graph 0)
    else
      ∃ later,
        st_animation_steps (state_after 5 graph 0)
        = st_animation_steps (state_after 4 graph 0)
          ++ settlement_step u (state_after 4 graph 0) :: later ∧
        Forall (λ e, visited_node e = u ∧
                     ∃ v, visited_path e = Some (u, v)) later.
Proof.
  split; [vm_compute; reflexivity|].
  split; [vm_compute; reflexivity|].
  split; [vm_compute; reflexivity|].
  apply (proj2 (proj2 (tracer_deterministic graph 0))
           (state_after 4 graph 0) (state_after 5 graph 0)).
  vm_compute. reflexivity.
Defined.

(** ** C7: snapshots are copies *)

Lemma resolve_ext σ σ' e :
  σ' !! ref_distances e = σ !! ref_distances e →
  σ' !! ref_visited_nodes_set e = σ !! ref_visited_nodes_set e →
  resolve σ' e = resolve σ e.
Proof. intros Hd Hv. unfold resolve, read_dict, read_set. by rewrite Hd, Hv. Qed.

Lemma sim_live_distinct rst st :
  sim rst st → rs_distances rst ≠ rs_visited_nodes rst.
Proof.
  intros Hsim Heq. pose proof (sim_distances _ _ Hsim) as Hd.
  rewrite Heq, (sim_visited _ _ Hsim) in Hd. done.
Qed.

(** A change of the store at the live objects only leaves every recorded
    step as it is. *)
Lemma sim_mutate rst st σ' d' v' q' :
  sim rst st →
  σ' !! rs_distances rst = Some (DictObj d') →
  σ' !! rs_visited_nodes rst = Some (SetObj v') →
  (∀ l, l ≠ rs_distances rst → l ≠ rs_visited_nodes rst →
        σ' !! l = rs_store rst !! l) →
  sim {| rs_store := σ';
         rs_distances := rs_distances rst;
         rs_priority_queue := q';
         rs_visited_nodes := rs_visited_nodes rst;
         rs_animation_steps := rs_animation_steps rst |}
      {| st_distances := d';
         st_priority_queue := q';
         st_visited_nodes := v';
         st_animation_steps := st_animation_steps st |}.
Proof.
  intros Hsim Hd Hv Hframe. split; simpl; [done..| |].
  - rewrite <-(sim_steps _ _ Hsim). apply list_fmap_ext. intros i e Hi.
    apply list_elem_of_lookup_2 in Hi.
    destruct (sim_separate _ _ Hsim e Hi) as (_ & _ & ? & ? & ? & ?).
    apply resolve_ext; by apply Hframe.
  - intros e He.
    destruct (sim_separate _ _ Hsim e He) as (Hd1 & Hd2 & ? & ? & ? & ?).
    split_and!; try done.
    + apply elem_of_dom. rewrite Hframe by done. by apply elem_of_dom.
    + apply elem_of_dom. rewrite Hframe by done. by apply elem_of_dom.
Qed.

Lemma sim_read_dict rst st :
  sim rst st → read_dict (rs_store rst) (rs_distances rst) = st_distances st.
Proof. intros Hsim. unfold read_dict. by rewrite (sim_distances _ _ Hsim). Qed.

Lemma sim_read_set rst st :
  sim rst st →
  read_set (rs_store rst) (rs_visited_nodes rst) = st_visited_nodes st.
Proof. intros Hsim. unfold read_set. by rewrite (sim_visited _ _ Hsim). Qed.

(** Recording a step creates two objects that hold the contents of the live
    tables, and changes no other object. *)
Lemma sim_record_step rst st current_node path :
  sim rst st →
  sim (record_step current_node path rst)
      {| st_distances := st_distances st;
         st_priority_queue := st_priority_queue st;
         st_visited_nodes := st_visited_nodes st;
         st_animation_steps :=
           st_animation_steps st ++
           [ {| visited_node := current_node;
                visited_path := path;
                distances := st_distances st;
                visited_nodes_set := st_visited_nodes st |} ] |}.
Proof.
  intros Hsim. unfold record_step, alloc. simpl.
  set (σ := rs_store rst).
  set (l1 := fresh (dom σ)).
  set (σ1 := <[l1 := DictObj (read_dict σ (rs_distances rst))]> σ).
  set (l2 := fresh (dom σ1)).
  assert (l1 ∉ dom σ) as Hl1 by apply is_fresh.
  assert (l2 ∉ dom σ1) as Hl2 by apply is_fresh.
  assert (l2 ≠ l1 ∧ l2 ∉ dom σ) as [Hl21 Hl2'].
  { unfold σ1 in Hl2. rewrite dom_insert_L in Hl2. set_solver. }
  assert (∀ l, l ∈ dom σ → l ≠ l1 ∧ l ≠ l2) as Hold.
  { intros l Hl. split; by intros ->. }
  assert (rs_distances rst ∈ dom σ) as Hd
    by (apply elem_of_dom; eexists; apply (sim_distances _ _ Hsim)).
  assert (rs_visited_nodes rst ∈ dom σ) as Hv
    by (apply elem_of_dom; eexists; apply (sim_visited _ _ Hsim)).
  destruct (Hold _ Hd) as [Hd1 Hd2], (Hold _ Hv) as [Hv1 Hv2].
  assert (∀ l, l ∈ dom σ →
               <[l2 := SetObj (read_set σ1 (rs_visited_nodes rst))]> σ1 !! l
               = σ !! l) as Hframe.
  { intros l [??]%Hold. unfold σ1. by rewrite !lookup_insert_ne. }
  assert (read_set σ1 (rs_visited_nodes rst) = st_visited_nodes st) as Hset.
  { unfold read_set, σ1. rewrite lookup_insert_ne by done.
    by apply sim_read_set. }
  split; simpl.
  - rewrite Hframe by done. apply (sim_distances _ _ Hsim).
  - rewrite Hframe by done. apply (sim_visited _ _ Hsim).
  - apply (sim_queue _ _ Hsim).
  - rewrite fmap_app. f_equal.
    + rewrite <-(sim_steps _ _ Hsim). apply list_fmap_ext. intros i e Hi.
      apply list_elem_of_lookup_2 in Hi.
      destruct (sim_separate _ _ Hsim e Hi) as (He1 & He2 & _).
      apply resolve_ext; by apply Hframe.
    + simpl. unfold resolve. simpl. do 2 f_equal.
      * unfold read_dict at 1. rewrite lookup_insert_ne by done.
        unfold σ1. rewrite lookup_insert_eq. by apply sim_read_dict.
      * unfold read_set at 1. by rewrite lookup_insert_eq.
  - intros e [He|He]%elem_of_app.
    + destruct (sim_separate _ _ Hsim e He) as (He1 & He2 & ? & ? & ? & ?).
      split_and!; try done; rewrite !dom_insert_L; set_solver.
    + apply list_elem_of_singleton in He as ->. simpl.
      split_and!; try done; try (by apply not_eq_sym);
        unfold σ1; rewrite !dom_insert_L; set_solver.
Qed.

Lemma sim_dict_setitem rst st k v q' :
  sim rst st →
  sim {| rs_store := dict_setitem (rs_store rst) (rs_distances rst) k v;
         rs_distances := rs_distances rst;
         rs_priority_queue := q';
         rs_visited_nodes := rs_visited_nodes rst;
         rs_animation_steps := rs_animation_steps rst |}
      {| st_distances := <[k := v]> (st_distances st);
         st_priority_queue := q';
         st_visited_nodes := st_visited_nodes st;
         st_animation_steps := st_animation_steps st |}.
Proof.
  intros Hsim. pose proof (sim_live_distinct _ _ Hsim).
  apply sim_mutate; [done|unfold dict_setitem..].
  - by rewrite lookup_insert_eq, (sim_read_dict _ _ Hsim).
  - rewrite lookup_insert_ne by done. apply (sim_visited _ _ Hsim).
  - intros l ? _. by rewrite lookup_insert_ne.
Qed.

Lemma sim_set_add rst st x q' :
  sim rst st →
  sim {| rs_store := set_add (rs_store rst) (rs_visited_nodes rst) x;
         rs_distances := rs_distances rst;
         rs_priority_queue := q';
         rs_visited_nodes := rs_visited_nodes rst;
         rs_animation_steps := rs_animation_steps rst |}
      {| st_distances := st_distances st;
         st_priority_queue := q';
         st_visited_nodes := {[x]} ∪ st_visited_nodes st;
         st_animation_steps := st_animation_steps st |}.
Proof.
  intros Hsim. pose proof (sim_live_distinct _ _ Hsim).
  apply sim_mutate; [done|unfold set_add..].
  - rewrite lookup_insert_ne by done. apply (sim_distances _ _ Hsim).
  - by rewrite lookup_insert_eq, (sim_read_set _ _ Hsim).
  - intros l _ ?. by rewrite lookup_insert_ne.
Qed.

Lemma relax_sim u d e rst st :
  sim rst st → sim_result (relax_ref u d e rst) (relax u d e st).
Proof.
  intros Hsim. destruct e as [v w]. unfold relax_ref, relax.
  rewrite (sim_read_set _ _ Hsim), (sim_read_dict _ _ Hsim).
  case_decide; [done|].
  destruct (st_distances st !! v) as [dn|]; [|done].
  destruct (dist_ltb (d + w) dn); simpl; [|done].
  rewrite (sim_queue _ _ Hsim).
  exact (sim_record_step _ _ u (Some (u, v))
           (sim_dict_setitem rst st v (Fin (d + w))
              (heappush (st_priority_queue st) (d + w, v)) Hsim)).
Qed.

Lemma for_neighbors_sim u d edges rst st :
  sim rst st →
  sim_result (for_neighbors_ref u d edges rst) (for_neighbors u d edges st).
Proof.
  revert rst st. induction edges as [|e edges IH]; intros rst st Hsim; [done|].
  simpl. pose proof (relax_sim u d e rst st Hsim) as Hrelax.
  destruct (relax_ref u d e rst), (relax u d e st); simpl in Hrelax;
    try done. by apply IH.
Qed.

Lemma settle_sim u rest rst st :
  sim rst st → sim (settle_ref u rest rst) (settle u rest st).
Proof.
  intros Hsim.
  exact (sim_record_step _ _ u None (sim_set_add rst st u rest Hsim)).
Qed.

Lemma loop_body_sim graph rst st :
  sim rst st → sim_iteration (loop_body_ref graph rst) (loop_body graph st).
Proof.
  intros Hsim. unfold loop_body_ref, loop_body.
  rewrite (sim_queue _ _ Hsim), (sim_read_set _ _ Hsim).
  destruct (heappop (st_priority_queue st)) as [[[d u] rest]|]; simpl.
  - case_decide.
    { simpl. unfold discard_ref, discard.
      apply (sim_mutate rst st);
        [done|apply (sim_distances _ _ Hsim)|apply (sim_visited _ _ Hsim)
        |done]. }
    destruct (graph !! u) as [edges|]; [|done].
    pose proof (for_neighbors_sim u d edges _ _ (settle_sim u rest _ _ Hsim))
      as Hfor.
    by destruct (for_neighbors_ref _ _ _ _), (for_neighbors _ _ _ _).
  - unfold resolve_result. simpl.
    by rewrite (sim_read_dict _ _ Hsim), (sim_steps _ _ Hsim).
Qed.

Lemma while_loop_sim graph fuel rst st :
  sim rst st →
  outcome_map resolve_result (while_loop_ref fuel graph rst)
  = while_loop fuel graph st.
Proof.
  revert rst st. induction fuel as [|fuel IH]; intros rst st Hsim; [done|].
  simpl. pose proof (loop_body_sim graph rst st Hsim) as Hbody.
  destruct (loop_body_ref graph rst), (loop_body graph st); simpl in Hbody;
    try done; [by subst|by apply IH|by subst].
Qed.

Lemma initial_sim graph start_node :
  sim (initial_rstate graph start_node) (initial_state graph start_node).
Proof.
  unfold initial_rstate, initial_state, alloc.
  set (d0 := <[start_node := Fin 0]> ((λ _, Inf) <$> graph)).
  set (l1 := fresh (dom (∅ : store))).
  set (σ1 := <[l1 := DictObj d0]> (∅ : store)).
  assert (fresh (dom σ1) ≠ l1) as Hne.
  { intros Heq. apply (is_fresh (dom σ1)). rewrite Heq.
    unfold σ1. rewrite dom_insert_L. set_solver. }
  split; simpl; [|by rewrite lookup_insert_eq|done..|by intros e ?%elem_of_nil].
  rewrite lookup_insert_ne by done. apply lookup_insert_eq.
Qed.

Lemma preserved_refl rst : preserved rst rst.
Proof. by intros i e Hi. Qed.

Lemma preserved_trans rst1 rst2 rst3 :
  preserved rst1 rst2 → preserved rst2 rst3 → preserved rst1 rst3.
Proof.
  intros H12 H23 i e Hi. destruct (H12 i e Hi) as [Hi2 Hr2].
  destruct (H23 i e Hi2) as [Hi3 Hr3]. split; [done|congruence].
Qed.

(** The mutations of the live tables, [distances[neighbor] = distance] and
    [visited_nodes.add(current_node)], leave the contents of every recorded
    step as they were. *)
Lemma mutate_preserved rst st σ' q' :
  sim rst st →
  (∀ l, l ≠ rs_distances rst → l ≠ rs_visited_nodes rst →
        σ' !! l = rs_store rst !! l) →
  preserved rst
    {| rs_store := σ';
       rs_distances := rs_distances rst;
       rs_priority_queue := q';
       rs_visited_nodes := rs_visited_nodes rst;
       rs_animation_steps := rs_animation_steps rst |}.
Proof.
  intros Hsim Hframe i e Hi. split; [done|]. simpl.
  apply list_elem_of_lookup_2 in Hi.
  destruct (sim_separate _ _ Hsim e Hi) as (_ & _ & ? & ? & ? & ?).
  apply resolve_ext; by apply Hframe.
Qed.

Lemma record_step_preserved rst st current_node path :
  sim rst st → preserved rst (record_step current_node path rst).
Proof.
  intros Hsim i e Hi. unfold record_step, alloc. simpl.
  split; [by apply lookup_app_l_Some|].
  apply list_elem_of_lookup_2 in Hi.
  destruct (sim_separate _ _ Hsim e Hi) as (He1 & He2 & _).
  set (σ := rs_store rst) in *.
  set (l1 := fresh (dom σ)).
  set (σ1 := <[l1 := DictObj (read_dict σ (rs_distances rst))]> σ).
  set (l2 := fresh (dom σ1)).
  assert (l1 ∉ dom σ) as Hl1 by apply is_fresh.
  assert (l2 ∉ dom σ1) as Hl2 by apply is_fresh.
  assert (l2 ∉ dom σ) as Hl2'.
  { unfold σ1 in Hl2. rewrite dom_insert_L in Hl2. set_solver. }
  assert (∀ l, l ∈ dom σ → l1 ≠ l ∧ l2 ≠ l) as Hold.
  { intros l Hl. split; by intros ->. }
  destruct (Hold _ He1), (Hold _ He2).
  apply resolve_ext; unfold σ1; by rewrite !lookup_insert_ne.
Qed.

Lemma relax_ref_preserved u d e rst st rst' :
  sim rst st → relax_ref u d e rst = inr rst' → preserved rst rst'.
Proof.
  intros Hsim. pose proof (sim_live_distinct _ _ Hsim).
  destruct e as [v w]. unfold relax_ref.
  case_decide; [intros [= <-]; apply preserved_refl|].
  destruct (read_dict _ _ !! v) as [dn|]; [|done].
  destruct (dist_ltb (d + w) dn); intros [= <-]; [|apply preserved_refl].
  eapply preserved_trans;
    [|exact (record_step_preserved _ _ u (Some (u, v))
               (sim_dict_setitem rst st v (Fin (d + w)) _ Hsim))].
  eapply mutate_preserved; [done|].
  intros l ? _. unfold dict_setitem. by rewrite lookup_insert_ne.
Qed.

Lemma for_neighbors_ref_preserved u d edges rst st rst' :
  sim rst st → for_neighbors_ref u d edges rst = inr rst' →
  preserved rst rst'.
Proof.
  revert rst st. induction edges as [|e edges IH]; intros rst st Hsim; simpl.
  - intros [= <-]. apply preserved_refl.
  - pose proof (relax_sim u d e rst st Hsim) as Hrelax.
    destruct (relax_ref u d e rst) as [|rst1] eqn:Href; [done|].
    destruct (relax u d e st) as [|st1]; [done|]. simpl in Hrelax.
    intros Hfor. eapply preserved_trans.
    + by eapply relax_ref_preserved.
    + by eapply IH.
Qed.

Lemma loop_body_ref_preserved graph rst st rst' :
  sim rst st → loop_body_ref graph rst = RefContinue rst' →
  preserved rst rst'.
Proof.
  intros Hsim. pose proof (sim_live_distinct _ _ Hsim).
  unfold loop_body_ref.
  destruct (heappop (rs_priority_queue rst)) as [[[d u] rest]|]; [|done].
  case_decide.
  { intros [= <-]. by apply (mutate_preserved rst st). }
  destruct (graph !! u) as [edges|]; [|done].
  destruct (for_neighbors_ref u d edges (settle_ref u rest rst))
    as [|rst1] eqn:Hfor; [done|].
  intros [= <-].
  eapply preserved_trans;
    [|exact (for_neighbors_ref_preserved _ _ _ _ _ _
               (settle_sim u rest _ _ Hsim) Hfor)].
  eapply preserved_trans;
    [|exact (record_step_preserved _ _ u None (sim_set_add rst st u rest Hsim))].
  eapply mutate_preserved; [done|].
  intros l _ ?. unfold set_add. by rewrite lookup_insert_ne.
Qed.

Lemma loop_body_ref_RefBreak graph rst result :
  loop_body_ref graph rst = RefBreak result →
  result = (rs_store rst, rs_distances rst, rs_animation_steps rst).
Proof.
  unfold loop_body_ref.
  destruct (heappop (rs_priority_queue rst)) as [[[d u] rest]|].
  - case_decide; [done|]. destruct (graph !! u); [|done].
    by destruct (for_neighbors_ref _ _ _ _).
  - by intros [= <-].
Qed.

(** When the call returns, the steps recorded at any earlier time are in
    the returned list, the objects they refer to have the contents they had
    then, and none of them is the live table that the call returns. *)
Lemma while_loop_ref_preserved graph fuel rst st result :
  sim rst st → while_loop_ref fuel graph rst = Returned result →
  preserved rst (final_rstate result rst) ∧
  ∀ e, e ∈ result.2 →
       ref_distances e ≠ result.1.2 ∧ ref_visited_nodes_set e ≠ result.1.2.
Proof.
  revert rst st. induction fuel as [|fuel IH]; intros rst st Hsim; [done|].
  simpl. pose proof (loop_body_sim graph rst st Hsim) as Hsim'.
  destruct (loop_body_ref graph rst) as [r|rst1|] eqn:Hbody; [| |done].
  - intros [= <-]. apply loop_body_ref_RefBreak in Hbody as ->. simpl.
    split; [by intros i e Hi|].
    intros e He. destruct (sim_separate _ _ Hsim e He) as (_&_&?&_&?&_).
    done.
  - destruct (loop_body graph st) as [|st1|]; [done| |done]. simpl in Hsim'.
    intros Hloop. destruct (IH rst1 st1 Hsim' Hloop) as [Hpres Hlive].
    split; [|done].
    intros i e Hi.
    destruct (loop_body_ref_preserved _ _ _ _ Hsim Hbody i e Hi) as [Hi1 Hr1].
    destruct (Hpres i e Hi1) as [Hi2 Hr2]. split; [done|]. simpl in *.
    congruence.
Qed.

Lemma iterations_sim graph n rst st :
  sim rst st →
  sim_iteration (iterations_ref n graph rst) (iterations n graph st).
Proof.
  revert rst st. induction n as [|n IH]; intros rst st Hsim; [done|].
  simpl. pose proof (loop_body_sim graph rst st Hsim) as Hbody.
  destruct (loop_body_ref graph rst), (loop_body graph st); simpl in Hbody;
    try done. by apply IH.
Qed.

Lemma iterations_ref_while_loop graph n fuel rst rst' result :
  iterations_ref n graph rst = RefContinue rst' →
  while_loop_ref fuel graph rst = Returned result →
  ∃ fuel', while_loop_ref fuel' graph rst' = Returned result.
Proof.
  revert fuel rst. induction n as [|n IH]; intros fuel rst; simpl.
  - intros [= <-] ?. by exists fuel.
  - destruct (loop_body_ref graph rst) as [|rst1|] eqn:Hbody; [done| |done].
    intros Hiter. destruct fuel as [|fuel]; [done|]. simpl. rewrite Hbody.
    by apply IH.
Qed.

(** C7. The snapshots of a recorded step are copies. Following the
    references of the returned steps in the store the call ends with, after
    every mutation of the live tables, gives the steps of the value model,
    where a step holds the tables as they were when it was recorded. And a
    step recorded in the first [n] iterations is in the returned list at
    the same index, the objects it refers to have at the end the contents
    they had after these iterations, and they are not the live distance
    table. *)
Theorem snapshots_are_copies graph start_node :
  outcome_map resolve_result (dijkstra_with_steps_ref graph start_node)
  = dijkstra_with_steps graph start_node ∧
  ∀ n rst result,
    iterations_ref n graph (initial_rstate graph start_node)
    = RefContinue rst →
    dijkstra_with_steps_ref graph start_node = Returned result →
    ∀ (i : nat) e,
      rs_animation_steps rst !! i = Some e →
      result.2 !! i = Some e ∧
      resolve result.1.1 e = resolve (rs_store rst) e ∧
      ref_distances e ≠ result.1.2 ∧
      ref_visited_nodes_set e ≠ result.1.2.
Proof.
  split; [apply while_loop_sim, initial_sim|].
  intros n rst result Hiter Hrun i e Hi.
  pose proof (iterations_sim graph n _ _ (initial_sim graph start_node))
    as Hsim.
  rewrite Hiter in Hsim.
  destruct (iterations n graph (initial_state graph start_node))
    as [|st|]; [done| |done]. simpl in Hsim.
  destruct (iterations_ref_while_loop _ _ _ _ _ _ Hiter Hrun)
    as [fuel' Hloop].
  destruct (while_loop_ref_preserved _ _ _ _ _ Hsim Hloop) as [Hpres Hlive].
  destruct (Hpres i e Hi) as [Hi' Hr]. simpl in Hi', Hr.
  destruct (Hlive e) as [??]; [by eapply list_elem_of_lookup_2|].
  by split_and!.
Qed.

Lemma snapshots_are_copies_witness :
  iterations_ref 2 graph (initial_rstate graph 0)
  = RefContinue (rstate_after 2 graph 0) ∧
  length (rs_animation_steps (rstate_after 2 graph 0)) = 5%nat ∧
  ∃ result,
    dijkstra_with_steps_ref graph 0 = Returned result ∧
    ∀ (i : nat) e,
      rs_animation_steps (rstate_after 2 graph 0) !! i = Some e →
      result.2 !! i = Some e ∧
      resolve result.1.1 e = resolve (rs_store (rstate_after 2 graph 0)) e ∧
      ref_distances e ≠ result.1.2 ∧
      ref_visited_nodes_set e ≠ result.1.2.
Proof.
  split; [vm_compute; reflexivity|].
  split; [vm_compute; reflexivity|].
  exists (returned_or (∅, 1%positive, [])
            (dijkstra_with_steps_ref graph 0)).
  assert (dijkstra_with_steps_ref graph 0
          = Returned (returned_or (∅, 1%positive, [])
                        (dijkstra_with_steps_ref graph 0))) as Hrun
    by (vm_compute; reflexivity).
  split; [exact Hrun|].
  apply (proj2 (snapshots_are_copies graph 0) 2%nat
           (rstate_after 2 graph 0) _).
  - vm_compute. reflexivity.
  - exact Hrun.
Defined.

(** * Further properties of the tracer *)

Lemma xinv_initial graph start_node :
  xinv graph start_node (AtWhile (initial_state graph start_node)).
Proof.
  split; simpl; try done.
  - intros *. by rewrite elem_of_nil.
  - intros *. by rewrite elem_of_nil.
  - intros v. split; [set_solver|]. intros (e & He & _). by apply elem_of_nil in He.
  - constructor.
  - rewrite unvisited_edges_empty. lia.
Qed.

Lemma xinv_step graph start_node p p' :
  reach graph start_node p → xinv graph start_node p → step graph p p' →
  xinv graph start_node p'.
Proof.
  intros Hreach Hx Hstep.
  pose proof (reach_ginv _ _ _ Hreach) as Hg.
  pose proof (reach_linv _ _ _ Hreach) as Hl.
  assert (ginv graph start_node p') as Hg' by (by eapply ginv_step).
  destruct Hx as [Xfrozen Xfirst Xlast Xdecr Xedge Xsettled Xonce Xlen].
  destruct Hstep as [st d u rest Hpop Hu|st d u rest edges Hpop Hu Hgu
                    |u d done [v w] todo st st' Hrelax|u d done st];
    simpl in *.
  - (* a stale item is dropped *)
    split; simpl; try done.
    destruct (st_animation_steps st); [|done].
    injection Xfirst as ->. simpl in Hu. set_solver.
  - (* a vertex is settled *)
    split; simpl.
    + intros e v' [He|He]%elem_of_app; [by apply Xfrozen|].
      by apply list_elem_of_singleton in He as ->.
    + destruct (st_animation_steps st) as [|e0 log]; [|done]. simpl.
      injection Xfirst as ->. simpl in Hpop. injection Hpop as <- <- <-.
      unfold first_step. simpl. f_equal. set_solver.
    + by rewrite last_snoc.
    + intros i j ei ej v' a b Hij Hi Hj Ha Hb.
      destruct (lookup_snoc_le _ _ _ _ _ _ Hij Hi Hj)
        as [[Hi' [Hj'| ->]]|[-> ->]].
      * by eapply Xdecr.
      * simpl in Hb. apply list_elem_of_lookup_2 in Hi'.
        exact (linv_above _ _ _ Hl ei v' a b Hi' Ha Hb).
      * rewrite Ha in Hb. injection Hb as ->. apply dist_le_refl.
    + intros e u' v' [He|He]%elem_of_app; [by apply Xedge|].
      by apply list_elem_of_singleton in He as ->.
    + intros v'. rewrite elem_of_union, elem_of_singleton, Xsettled. split.
      * intros [->|(e & He & ? & ?)].
        -- eexists. split; [apply elem_of_app; right; left|done].
        -- exists e. split; [apply elem_of_app; by left|done].
      * intros (e & [He|He]%elem_of_app & Hnone & Hnode); [by eauto|].
        apply list_elem_of_singleton in He as ->. by left.
    + rewrite settlements_snoc_settle, fmap_app by done. simpl.
      apply NoDup_app. split_and!; [done| |apply NoDup_singleton].
      intros x Hx ->%list_elem_of_singleton. apply Hu.
      apply list_elem_of_fmap in Hx as (e & Heq & He).
      apply list_elem_of_filter in He as [Hnone He].
      apply Xsettled. exists e. by split_and!.
    + rewrite length_app, size_union, size_singleton by set_solver. simpl.
      rewrite (unvisited_edges_settle graph (st_visited_nodes st) u edges)
        in Xlen by done.
      lia.
  - (* one edge is handled *)
    destruct (ginv_current _ _ _ Hg) as (Hgu & Hu & Hdu).
    assert (st_animation_steps st ≠ []) as Hne.
    { intros Hnil. by rewrite Hnil in Xfirst. }
    apply relax_inv in Hrelax as [[-> Hskip]|(Hv & (dn & Hdn & Hlt) & ->)];
      simpl in *.
    { split; simpl; try done.
      - by destruct (st_animation_steps st).
      - lia. }
    assert (u ≠ v) as Huv by (by intros ->).
    split; simpl.
    + intros e v' [He|He]%elem_of_app.
      * intros Hv'. rewrite lookup_insert_ne; [by apply Xfrozen|].
        intros <-. apply Hv. by apply (linv_visited _ _ _ Hl e He).
      * by apply list_elem_of_singleton in He as ->.
    + by destruct (st_animation_steps st).
    + by rewrite last_snoc.
    + intros i j ei ej v' a b Hij Hi Hj Ha Hb.
      destruct (lookup_snoc_le _ _ _ _ _ _ Hij Hi Hj)
        as [[Hi' [Hj'| ->]]|[-> ->]].
      * by eapply Xdecr.
      * simpl in Hb. apply list_elem_of_lookup_2 in Hi'.
        rewrite lookup_insert in Hb. case_decide as Hvv.
        -- subst v'. injection Hb as <-. right.
           eapply dist_lt_le_trans; [exact Hlt|].
           exact (linv_above _ _ _ Hl ei v a dn Hi' Ha Hdn).
        -- exact (linv_above _ _ _ Hl ei v' a b Hi' Ha Hb).
      * rewrite Ha in Hb. injection Hb as ->. apply dist_le_refl.
    + intros e u' v' [He|He]%elem_of_app; [by apply Xedge|].
      apply list_elem_of_singleton in He as ->. simpl. intros [= <- <-].
      split_and!; [done..|].
      exists (done ++ (v, w) :: todo), w, d.
      split_and!; [done|apply elem_of_app; right; left| |].
      * by rewrite lookup_insert_ne.
      * apply lookup_insert_eq.
    + intros v'. rewrite Xsettled. split.
      * intros (e & He & ? & ?). exists e.
        split; [apply elem_of_app; by left|done].
      * intros (e & [He|He]%elem_of_app & Hnone & Hnode); [by eauto|].
        by apply list_elem_of_singleton in He as ->.
    + by rewrite settlements_snoc_relax.
    + rewrite length_app. simpl. lia.
  - (* the edges of the vertex are exhausted *)
    split; simpl; try done; try lia.
    by destruct (st_animation_steps st).
Qed.

Lemma reach_xinv graph start_node p :
  reach graph start_node p → xinv graph start_node p.
Proof.
  revert p. apply reach_ind; [apply xinv_initial|].
  intros p p' Hreach Hx Hstep. by eapply xinv_step.
Qed.

Lemma oinv_initial graph start_node :
  oinv graph start_node (AtWhile (initial_state graph start_node)).
Proof. split; simpl; [set_solver|done|]. by intros [|i] [|j]. Qed.

Lemma oinv_step graph start_node p p' :
  nonneg_weights graph →
  reach graph start_node p → oinv graph start_node p → step graph p p' →
  oinv graph start_node p'.
Proof.
  intros Hnn Hreach [Oqueue Ocur Oorder] Hstep.
  pose proof (reach_ginv _ _ _ Hreach) as Hg.
  pose proof (reach_linv _ _ _ Hreach) as Hl.
  pose proof (reach_xinv _ _ _ Hreach) as Hx.
  assert (ginv graph start_node p') as Hg' by (by eapply ginv_step).
  destruct Hstep as [st d u rest Hpop Hu|st d u rest edges Hpop Hu Hgu
                    |u d done [v w] todo st st' Hrelax|u d done st];
    simpl in *.
  - (* a stale item is dropped *)
    split; simpl; [|done..].
    intros u' zu d' v Hu' Hzu Hin. eapply Oqueue; [done..|].
    by eapply heappop_elem_of_rest.
  - (* a vertex is settled *)
    assert (∀ z y, (z, y) ∈ st_priority_queue st → d ≤ z) as Hmin.
    { intros z y Hz. pose proof (heappop_min _ _ _ _ Hpop Hz) as Hmin.
      apply entry_leb_spec in Hmin. simpl in Hmin. lia. }
    destruct (ginv_current _ _ _ Hg') as (_ & _ & Hdu). simpl in Hdu.
    assert (∀ u' zu, u' ∈ {[u]} ∪ st_visited_nodes st →
                     st_distances st !! u' = Some (Fin zu) → zu ≤ d) as Hcur.
    { intros u' zu [->%elem_of_singleton|Hu']%elem_of_union Hzu.
      - rewrite Hdu in Hzu. injection Hzu as <-. lia.
      - eapply Oqueue; [done..|]. by eapply heappop_elem_of. }
    split; simpl; [|done|].
    + intros u' zu d' v [->%elem_of_singleton|Hu']%elem_of_union Hzu Hin.
      * rewrite Hdu in Hzu. injection Hzu as <-.
        eapply Hmin. by eapply heappop_elem_of_rest.
      * eapply Oqueue; [done..|]. by eapply heappop_elem_of_rest.
    + intros i j ei ej a b Hij. rewrite settlements_snoc_settle by done.
      intros Hi Hj Ha Hb.
      destruct (lookup_snoc_le _ _ _ _ _ _ Hij Hi Hj)
        as [[Hi' [Hj'| ->]]|[-> ->]].
      * by eapply Oorder.
      * simpl in Hb. rewrite Hdu in Hb. injection Hb as <-.
        apply list_elem_of_lookup_2, list_elem_of_filter in Hi'
          as [Hnone Hin].
        pose proof (linv_node _ _ _ Hl ei Hin) as Hnode.
        apply (Hcur (visited_node ei) a).
        -- apply elem_of_union_r. by apply (linv_visited _ _ _ Hl ei Hin).
        -- pose proof (xinv_frozen _ _ _ Hx ei (visited_node ei) Hin Hnode)
             as Hfrozen.
           simpl in Hfrozen. by rewrite <-Hfrozen.
      * rewrite Ha in Hb. injection Hb as <-. lia.
  - (* one edge is handled *)
    destruct (ginv_current _ _ _ Hg) as (Hgu & Hu & Hdu).
    apply relax_inv in Hrelax as [[-> Hskip]|(Hv & (dn & Hdn & Hlt) & ->)];
      simpl in *; [by split|].
    assert (0 ≤ w) as Hw.
    { eapply (nonneg_weights_edge graph u _ v w Hnn Hgu).
      apply elem_of_app. right. left. }
    split; simpl.
    + intros u' zu d' v' Hu'. rewrite lookup_insert_ne by (by intros ->).
      intros Hzu [[= -> ->]|Hin]%elem_of_cons; [|by eapply Oqueue].
      pose proof (Ocur u' zu Hu' Hzu). lia.
    + intros u' zu Hu'. rewrite lookup_insert_ne by (by intros ->).
      by apply Ocur.
    + intros i j ei ej a b Hij. rewrite settlements_snoc_relax by done.
      by apply Oorder.
  - (* the edges of the vertex are exhausted *)
    by split.
Qed.

Lemma reach_oinv graph start_node p :
  nonneg_weights graph →
  reach graph start_node p → oinv graph start_node p.
Proof.
  intros Hnn. revert p. apply reach_ind; [apply oinv_initial|].
  intros p p' Hreach Ho Hstep. by eapply oinv_step.
Qed.

(** ** When the call fails and when it returns *)

Lemma relax_Raise graph start_node u d done v w todo st e :
  ginv graph start_node (AtFor u d done ((v, w) :: todo) st) →
  relax u d (v, w) st = inl e → e = KeyError v ∧ v ∉ dom graph.
Proof.
  intros Hg. unfold relax. case_decide; [done|].
  destruct (st_distances st !! v) as [dn|] eqn:Hv.
  { by destruct (dist_ltb _ _). }
  intros [= <-]. split; [done|].
  apply not_elem_of_dom in Hv.
  rewrite (ginv_dom _ _ _ Hg : dom (st_distances st) = _) in Hv. set_solver.
Qed.

Lemma for_neighbors_Raise graph start_node u d handled_edges todo st e :
  reach graph start_node (AtFor u d handled_edges todo st) →
  for_neighbors u d todo st = inl e →
  ∃ k w, e = KeyError k ∧ k ∉ dom graph ∧ (k, w) ∈ todo.
Proof.
  revert handled_edges st.
  induction todo as [|[v w] todo IH]; intros pre st Hreach;
    cbn [for_neighbors]; [done|].
  destruct (relax u d (v, w) st) as [e'|st1] eqn:Hrelax.
  - intros [= ->].
    destruct (relax_Raise _ _ _ _ _ _ _ _ _ _ (reach_ginv _ _ _ Hreach) Hrelax)
      as [-> ?].
    exists v, w. split_and!; [done..|left].
  - intros Hfor.
    destruct (IH (pre ++ [(v, w)]) st1) as (k & w' & ? & ? & ?); [|done|].
    { eapply rtc_r; [exact Hreach|]. by apply step_relax. }
    exists k, w'. split_and!; [done..|by right].
Qed.

Lemma loop_body_Raise graph start_node st e :
  reach graph start_node (AtWhile st) → loop_body graph st = Raise e →
  ∃ k, e = KeyError k ∧ k ∉ dom graph ∧
       (k = start_node ∨
        ∃ u edges w, reachable graph start_node u ∧
                     graph !! u = Some edges ∧ (k, w) ∈ edges).
Proof.
  intros Hreach. pose proof (reach_ginv _ _ _ Hreach) as Hg.
  unfold loop_body.
  destruct (heappop (st_priority_queue st)) as [[[d u] rest]|] eqn:Hpop;
    [|done].
  case_decide as Hu; [done|].
  destruct (graph !! u) as [edges|] eqn:Hgu.
  - destruct (for_neighbors u d edges (settle u rest st)) as [e'|] eqn:Hfor;
      [|done].
    intros [= ->].
    assert (reach graph start_node (AtFor u d [] edges (settle u rest st)))
      as Hreach'.
    { eapply rtc_r; [done|]. by eapply step_settle. }
    destruct (for_neighbors_Raise _ _ _ _ _ _ _ _ Hreach' Hfor)
      as (k & w & -> & ? & ?).
    exists k. split_and!; [done..|]. right. exists u, edges, w.
    split_and!; [|done..].
    pose proof (reach_ginv _ _ _ Hreach') as Hg'.
    destruct (ginv_current _ _ _ Hg') as (_ & _ & Hdu).
    exists d. by apply (ginv_path _ _ _ Hg').
  - intros [= <-]. exists u.
    apply not_elem_of_dom in Hgu. split_and!; [done..|]. left.
    destruct (ginv_queue _ _ _ Hg d u) as (z & Hz & _);
      [by eapply heappop_elem_of|].
    assert (u ∈ dom (st_distances st)) as Hdom by (apply elem_of_dom; eauto).
    rewrite (ginv_dom _ _ _ Hg : dom (st_distances st) = _) in Hdom.
    set_solver.
Qed.

Lemma while_loop_Raised graph start_node fuel st e :
  reach graph start_node (AtWhile st) → while_loop fuel graph st = Raised e →
  ∃ k, e = KeyError k ∧ k ∉ dom graph ∧
       (k = start_node ∨
        ∃ u edges w, reachable graph start_node u ∧
                     graph !! u = Some edges ∧ (k, w) ∈ edges).
Proof.
  revert st. induction fuel as [|fuel IH]; intros st Hreach; simpl; [done|].
  destruct (loop_body graph st) as [r|st'|e'] eqn:Hbody; [done| |].
  - apply IH. eapply rtc_trans; [exact Hreach|]. by apply loop_body_steps.
  - intros [= ->]. by eapply loop_body_Raise.
Qed.

(** X1. The call returns exactly when the start vertex is a key of the
    graph and every neighbor of every vertex that can be reached from it
    is a key of the graph; the weights play no part. *)
Theorem returns_iff graph start_node :
  (∃ r, dijkstra_with_steps graph start_node = Returned r) ↔
  start_node ∈ dom graph ∧ closed_from graph start_node.
Proof.
  split.
  - intros [r (st & Hreach & Hempty & _)%dijkstra_with_steps_Returned].
    pose proof (reach_ginv _ _ _ Hreach) as Hg.
    pose proof (final_visited _ _ _ Hreach Hempty) as Hvisited.
    assert (start_node ∈ dom graph) as Hstart.
    { apply elem_of_dom, (ginv_visited _ _ _ Hg), Hvisited.
      exists 0. apply path_nil. }
    split; [done|].
    intros u edges v w Hu%Hvisited Hgu Hvw.
    destruct (ginv_edges _ _ _ Hg u edges (v, w)) as [z Hz]; [done..|].
    assert (v ∈ dom (st_distances st)) as Hdom by (apply elem_of_dom; eauto).
    rewrite (ginv_dom _ _ _ Hg : dom (st_distances st) = _) in Hdom.
    set_solver.
  - intros [Hstart Hclosed].
    destruct (dijkstra_with_steps graph start_node) as [r|e|] eqn:Hrun.
    + by exists r.
    + apply (while_loop_Raised graph start_node) in Hrun
        as (k & _ & Hk & [->|Hedge]); [done| |apply rtc_refl].
      destruct Hedge as (u & edges & w & ? & ? & ?).
      destruct Hk. by eapply Hclosed.
    + by apply dijkstra_with_steps_terminates in Hrun.
Qed.

(** X2. When the call fails it raises [KeyError] for a vertex that is not a
    key of the graph: the start vertex, or a neighbor listed for a vertex
    that can be reached from the start. *)
Theorem raises_only_key_error graph start_node e :
  dijkstra_with_steps graph start_node = Raised e →
  ∃ k, e = KeyError k ∧ k ∉ dom graph ∧
       (k = start_node ∨
        ∃ u edges w, reachable graph start_node u ∧
                     graph !! u = Some edges ∧ (k, w) ∈ edges).
Proof. intros Hrun. eapply while_loop_Raised; [apply rtc_refl|exact Hrun]. Qed.

Lemma raises_only_key_error_witness :
  ∃ k, KeyError 1 = KeyError k ∧ k ∉ dom dangling_graph ∧
       (k = 0 ∨
        ∃ u edges w, reachable dangling_graph 0 u ∧
                     dangling_graph !! u = Some edges ∧ (k, w) ∈ edges).
Proof.
  apply (raises_only_key_error dangling_graph 0 (KeyError 1)).
  vm_compute. reflexivity.
Defined.

(** ** What the recorded steps show *)

Lemma returned_reach graph start_node final_distances animation_steps :
  dijkstra_with_steps graph start_node
  = Returned (final_distances, animation_steps) →
  ∃ st, reach graph start_node (AtWhile st) ∧
        st_priority_queue st = [] ∧
        final_distances = st_distances st ∧
        animation_steps = st_animation_steps st.
Proof.
  intros (st & ? & ? & [= -> ->])%dijkstra_with_steps_Returned. by exists st.
Qed.

Lemma returned_nonempty graph start_node st :
  reach graph start_node (AtWhile st) → st_priority_queue st = [] →
  st_animation_steps st ≠ [].
Proof.
  intros Hreach Hempty Hnil.
  pose proof (xinv_first _ _ _ (reach_xinv _ _ _ Hreach)) as Hfirst.
  simpl in Hfirst. rewrite Hnil in Hfirst. injection Hfirst as ->. done.
Qed.

(** X3. Once a vertex is in the visited set its distance is never written
    again, whatever the weights: every recorded step shows, for each vertex
    of its visited snapshot, the distance that the call returns. *)
Theorem settled_distances_final graph start_node final_distances
    animation_steps :
  dijkstra_with_steps graph start_node
  = Returned (final_distances, animation_steps) →
  ∀ e v, e ∈ animation_steps → v ∈ visited_nodes_set e →
         distances e !! v = final_distances !! v.
Proof.
  intros (st & Hreach & _ & -> & ->)%returned_reach.
  apply (xinv_frozen _ _ _ (reach_xinv _ _ _ Hreach)).
Qed.

Lemma settled_distances_final_witness :
  dijkstra_with_steps graph 0
  = Returned (sample_result.1, sample_result.2) ∧
  (∀ e v, e ∈ sample_result.2 → v ∈ visited_nodes_set e →
          distances e !! v = sample_result.1 !! v).
Proof.
  split; [vm_compute; reflexivity|].
  apply (settled_distances_final graph 0 sample_result.1 sample_result.2).
  vm_compute. reflexivity.
Defined.

(** X4. A call that returns has recorded at least one step, and the last
    step shows the final state: its distance snapshot is the returned
    table and its visited snapshot is the set of the vertices that can be
    reached from the start. *)
Theorem last_step_final graph start_node final_distances animation_steps :
  dijkstra_with_steps graph start_node
  = Returned (final_distances, animation_steps) →
  ∃ e, last animation_steps = Some e ∧
       distances e = final_distances ∧
       ∀ v, v ∈ visited_nodes_set e ↔ reachable graph start_node v.
Proof.
  intros (st & Hreach & Hempty & -> & ->)%returned_reach.
  pose proof (xinv_last _ _ _ (reach_xinv _ _ _ Hreach)) as Hlast.
  simpl in Hlast.
  destruct (last (st_animation_steps st)) as [e|] eqn:He.
  - destruct Hlast as [Hd Hv]. exists e. split_and!; [done..|].
    intros v. rewrite Hv. by apply final_visited.
  - apply last_None in He.
    by apply (returned_nonempty graph start_node st) in He.
Qed.

Lemma last_step_final_witness :
  ∃ e, last sample_result.2 = Some e ∧
       distances e = sample_result.1 ∧
       ∀ v, v ∈ visited_nodes_set e ↔ reachable graph 0 v.
Proof.
  apply (last_step_final graph 0 sample_result.1 sample_result.2).
  vm_compute. reflexivity.
Defined.

(** X5. The first recorded step of a call that returns is the settlement
    of the start vertex: no edge, the start vertex at distance 0 and every
    other vertex at the infinite value, and the start vertex alone in the
    visited set. *)
Theorem first_step_recorded graph start_node final_distances
    animation_steps :
  dijkstra_with_steps graph start_node
  = Returned (final_distances, animation_steps) →
  animation_steps !! 0%nat = Some (first_step graph start_node).
Proof.
  intros (st & Hreach & Hempty & -> & ->)%returned_reach.
  pose proof (xinv_first _ _ _ (reach_xinv _ _ _ Hreach)) as Hfirst.
  pose proof (returned_nonempty _ _ _ Hreach Hempty) as Hne.
  simpl in Hfirst. destruct (st_animation_steps st); [done|].
  by subst.
Qed.

Lemma first_step_recorded_witness :
  sample_result.2 !! 0%nat = Some (first_step graph 0).
Proof.
  apply (first_step_recorded graph 0 sample_result.1 sample_result.2).
  vm_compute. reflexivity.
Defined.

(** X6. The distance of a vertex never goes up: from one recorded step to a
    later one, and from any recorded step to the returned table, the value
    of a vertex stays or gets smaller. *)
Theorem distances_never_increase graph start_node final_distances
    animation_steps :
  dijkstra_with_steps graph start_node
  = Returned (final_distances, animation_steps) →
  (∀ (i j : nat) ei ej v a,
     (i ≤ j)%nat →
     animation_steps !! i = Some ei → animation_steps !! j = Some ej →
     distances ei !! v = Some a →
     ∃ b, distances ej !! v = Some b ∧ dist_le b a) ∧
  (∀ e v a,
     e ∈ animation_steps → distances e !! v = Some a →
     ∃ b, final_distances !! v = Some b ∧ dist_le b a).
Proof.
  intros (st & Hreach & _ & -> & ->)%returned_reach.
  pose proof (reach_xinv _ _ _ Hreach) as Hx.
  pose proof (reach_linv _ _ _ Hreach) as Hl.
  pose proof (reach_ginv _ _ _ Hreach) as Hg.
  split.
  - intros i j ei ej v a Hij Hi Hj Ha.
    assert (v ∈ dom (distances ej)) as [b Hb]%elem_of_dom.
    { rewrite (linv_dom _ _ _ Hl ej), <-(linv_dom _ _ _ Hl ei)
        by (by eapply list_elem_of_lookup_2).
      apply elem_of_dom. eauto. }
    exists b. split; [done|].
    by apply (xinv_decreasing _ _ _ Hx i j ei ej v a b).
  - intros e v a He Ha.
    assert (v ∈ dom (st_distances st)) as [b Hb]%elem_of_dom.
    { rewrite (ginv_dom _ _ _ Hg : dom (st_distances st) = _),
        <-(linv_dom _ _ _ Hl e He).
      apply elem_of_dom. eauto. }
    exists b. split; [done|].
    by apply (linv_above _ _ _ Hl e v a b).
Qed.

Lemma distances_never_increase_witness :
  (∀ (i j : nat) ei ej v a,
     (i ≤ j)%nat →
     sample_result.2 !! i = Some ei → sample_result.2 !! j = Some ej →
     distances ei !! v = Some a →
     ∃ b, distances ej !! v = Some b ∧ dist_le b a) ∧
  (∀ e v a,
     e ∈ sample_result.2 → distances e !! v = Some a →
     ∃ b, sample_result.1 !! v = Some b ∧ dist_le b a).
Proof.
  apply (distances_never_increase graph 0 sample_result.1 sample_result.2).
  vm_compute. reflexivity.
Defined.

(** X7. With non-negative weights the vertices are settled in the order of
    their final distances: of two settlement events, the earlier one is
    for a vertex whose returned distance is not larger. *)
Theorem settled_in_distance_order graph start_node final_distances
    animation_steps :
  nonneg_weights graph →
  dijkstra_with_steps graph start_node
  = Returned (final_distances, animation_steps) →
  ∀ (i j : nat) ei ej,
    (i ≤ j)%nat →
    settlements animation_steps !! i = Some ei →
    settlements animation_steps !! j = Some ej →
    ∃ a b, final_distances !! visited_node ei = Some (Fin a) ∧
           final_distances !! visited_node ej = Some (Fin b) ∧
           a ≤ b.
Proof.
  intros Hnn (st & Hreach & _ & -> & ->)%returned_reach.
  pose proof (reach_xinv _ _ _ Hreach) as Hx.
  pose proof (reach_linv _ _ _ Hreach) as Hl.
  intros i j ei ej Hij Hi Hj.
  assert (∀ (k : nat) e,
            settlements (st_animation_steps st) !! k = Some e →
            ∃ z, distances e !! visited_node e = Some (Fin z) ∧
                 st_distances st !! visited_node e = Some (Fin z))
    as Hsettled.
  { intros k e Hk.
    apply list_elem_of_lookup_2, list_elem_of_filter in Hk as [_ He].
    pose proof (linv_node _ _ _ Hl e He) as Hnode.
    destruct (linv_finite _ _ _ Hl e _ He Hnode) as [z Hz].
    exists z. split; [done|].
    pose proof (xinv_frozen _ _ _ Hx e _ He Hnode) as Hfrozen.
    simpl in Hfrozen. by rewrite <-Hfrozen. }
  destruct (Hsettled i ei Hi) as (a & Ha & Ha').
  destruct (Hsettled j ej Hj) as (b & Hb & Hb').
  exists a, b. split_and!; [done..|].
  by apply (oinv_order _ _ _ (reach_oinv _ _ _ Hnn Hreach) i j ei ej).
Qed.

Lemma settled_in_distance_order_witness :
  dijkstra_with_steps graph 0
  = Returned (sample_result.1, sample_result.2) ∧
  (∀ (i j : nat) ei ej,
    (i ≤ j)%nat →
    settlements sample_result.2 !! i = Some ei →
    settlements sample_result.2 !! j = Some ej →
    ∃ a b, sample_result.1 !! visited_node ei = Some (Fin a) ∧
           sample_result.1 !! visited_node ej = Some (Fin b) ∧
           a ≤ b).
Proof.
  split; [vm_compute; reflexivity|].
  apply (settled_in_distance_order graph 0 sample_result.1 sample_result.2).
  - apply (bool_decide_unpack _). vm_compute. exact I.
  - vm_compute. reflexivity.
Defined.

(** X8. Every relaxation event follows an edge of the graph out of a
    visited vertex into a vertex that is not visited, and the distance it
    shows for the destination is the distance of the source plus the
    weight of such an edge. *)
Theorem relaxation_follows_edge graph start_node final_distances
    animation_steps :
  dijkstra_with_steps graph start_node
  = Returned (final_distances, animation_steps) →
  ∀ e u v,
    e ∈ animation_steps → visited_path e = Some (u, v) →
    u ∈ visited_nodes_set e ∧ v ∉ visited_nodes_set e ∧
    ∃ edges w zu,
      graph !! u = Some edges ∧ (v, w) ∈ edges ∧
      distances e !! u = Some (Fin zu) ∧
      distances e !! v = Some (Fin (zu + w)).
Proof.
  intros (st & Hreach & _ & -> & ->)%returned_reach.
  apply (xinv_edge _ _ _ (reach_xinv _ _ _ Hreach)).
Qed.

Lemma relaxation_follows_edge_witness :
  dijkstra_with_steps graph 0
  = Returned (sample_result.1, sample_result.2) ∧
  (∀ e u v,
    e ∈ sample_result.2 → visited_path e = Some (u, v) →
    u ∈ visited_nodes_set e ∧ v ∉ visited_nodes_set e ∧
    ∃ edges w zu,
      graph !! u = Some edges ∧ (v, w) ∈ edges ∧
      distances e !! u = Some (Fin zu) ∧
      distances e !! v = Some (Fin (zu + w))).
Proof.
  split; [vm_compute; reflexivity|].
  apply (relaxation_follows_edge graph 0 sample_result.1 sample_result.2).
  vm_compute. reflexivity.
Defined.

(** X9. Every vertex that can be reached from the start has one settlement
    event and only one, and no other vertex has any. *)
Theorem settled_once graph start_node final_distances animation_steps :
  dijkstra_with_steps graph start_node
  = Returned (final_distances, animation_steps) →
  NoDup (visited_node <$> settlements animation_steps) ∧
  ∀ v, v ∈ visited_node <$> settlements animation_steps ↔
       reachable graph start_node v.
Proof.
  intros (st & Hreach & Hempty & -> & ->)%returned_reach.
  pose proof (reach_xinv _ _ _ Hreach) as Hx.
  split; [apply (xinv_once _ _ _ Hx)|].
  intros v. rewrite <-(final_visited _ _ _ Hreach Hempty v).
  rewrite (xinv_settled _ _ _ Hx v : v ∈ st_visited_nodes st ↔ _).
  rewrite list_elem_of_fmap. unfold settlements. split.
  - intros (e & -> & [? ?]%list_elem_of_filter). by exists e.
  - intros (e & ? & ? & <-). exists e. split; [done|].
    by apply list_elem_of_filter.
Qed.

Lemma settled_once_witness :
  NoDup (visited_node <$> settlements sample_result.2) ∧
  ∀ v, v ∈ visited_node <$> settlements sample_result.2 ↔
       reachable graph 0 v.
Proof.
  apply (settled_once graph 0 sample_result.1 sample_result.2).
  vm_compute. reflexivity.
Defined.

(** X10. The number of recorded steps is at most the number of vertices
    plus the number of edges of the graph. *)
Theorem steps_bound graph start_node final_distances animation_steps :
  dijkstra_with_steps graph start_node
  = Returned (final_distances, animation_steps) →
  (length animation_steps ≤ size (dom graph) + edge_count graph)%nat.
Proof.
  intros (st & Hreach & _ & -> & ->)%returned_reach.
  pose proof (xinv_length _ _ _ (reach_xinv _ _ _ Hreach)) as Hlen.
  simpl in Hlen.
  assert (size (st_visited_nodes st) ≤ size (dom graph))%nat; [|lia].
  apply subseteq_size. intros v Hv. apply elem_of_dom.
  by apply (ginv_visited _ _ _ (reach_ginv _ _ _ Hreach) v).
Qed.

Lemma steps_bound_witness :
  (length sample_result.2 ≤ size (dom graph) + edge_count graph)%nat.
Proof.
  apply (steps_bound graph 0 sample_result.1 sample_result.2).
  vm_compute. reflexivity.
Defined.

Lemma iterations_measure graph n st st' :
  iterations n graph st = Continue st' →
  (n + measure graph st' ≤ measure graph st)%nat.
Proof.
  revert st. induction n as [|n IH]; intros st; simpl.
  - intros [= <-]. lia.
  - destruct (loop_body graph st) as [|st1|] eqn:Hbody; [done| |done].
    intros ?%IH. apply loop_body_measure in Hbody. lia.
Qed.

(** X11. The loop makes at most one iteration per edge of the graph, plus
    one, before the queue is empty, and the queue never holds more items
    than that: after [n] iterations that continue, [n] plus the length of
    the queue is at most the number of edges plus one. *)
Theorem iterations_bound graph start_node n st :
  iterations n graph (initial_state graph start_node) = Continue st →
  (n + length (st_priority_queue st) ≤ 1 + edge_count graph)%nat.
Proof.
  intros Hiter%iterations_measure. unfold measure in Hiter. simpl in Hiter.
  rewrite unvisited_edges_empty in Hiter. lia.
Qed.

Lemma iterations_bound_witness :
  (4 + length (st_priority_queue (state_after 4 graph 0))
   ≤ 1 + edge_count graph)%nat.
Proof.
  apply (iterations_bound graph 0 4 (state_after 4 graph 0)).
  vm_compute. reflexivity.
Defined.

(** ** The objects of the recorded steps *)

Lemma snapshot_locs_snoc log e :
  snapshot_locs (log ++ [e])
  = snapshot_locs log ++ [ref_distances e; ref_visited_nodes_set e].
Proof. unfold snapshot_locs. by rewrite bind_app. Qed.

Lemma elem_of_snapshot_locs log l :
  l ∈ snapshot_locs log ↔
  ∃ e, e ∈ log ∧ (l = ref_distances e ∨ l = ref_visited_nodes_set e).
Proof.
  unfold snapshot_locs. rewrite list_elem_of_bind. split.
  - intros (e & Hl & He). exists e. split; [done|]. set_solver.
  - intros (e & He & Hl). exists e. split; [|done]. set_solver.
Qed.

Lemma sim_snapshot_locs rst st l :
  sim rst st → l ∈ snapshot_locs (rs_animation_steps rst) →
  l ∈ dom (rs_store rst) ∧ l ≠ rs_distances rst ∧ l ≠ rs_visited_nodes rst.
Proof.
  intros Hsim (e & He & Hl)%elem_of_snapshot_locs.
  destruct (sim_separate _ _ Hsim e He) as (? & ? & ? & ? & ? & ?).
  by destruct Hl as [->| ->].
Qed.

Lemma record_step_distinct rst st current_node path :
  sim rst st → NoDup (snapshot_locs (rs_animation_steps rst)) →
  NoDup (snapshot_locs (rs_animation_steps
                          (record_step current_node path rst))).
Proof.
  intros Hsim Hnodup. unfold record_step, alloc. simpl.
  rewrite snapshot_locs_snoc. simpl.
  set (σ := rs_store rst).
  set (l1 := fresh (dom σ)).
  set (σ1 := <[l1 := DictObj (read_dict σ (rs_distances rst))]> σ).
  set (l2 := fresh (dom σ1)).
  assert (l1 ∉ dom σ) as Hl1 by apply is_fresh.
  assert (l2 ∉ dom σ1) as Hl2 by apply is_fresh.
  assert (l2 ≠ l1 ∧ l2 ∉ dom σ) as [Hl21 Hl2'].
  { unfold σ1 in Hl2. rewrite dom_insert_L in Hl2. set_solver. }
  apply NoDup_app. split_and!; [done| |].
  - intros l Hl Hin. apply (sim_snapshot_locs _ _ _ Hsim) in Hl as [Hl _].
    apply elem_of_cons in Hin as [->|Hin]; [done|].
    by apply list_elem_of_singleton in Hin as ->.
  - apply NoDup_cons. split; [|apply NoDup_singleton].
    intros Hin%list_elem_of_singleton. by symmetry in Hin.
Qed.

Lemma relax_ref_distinct u d e rst st rst' :
  sim rst st → NoDup (snapshot_locs (rs_animation_steps rst)) →
  relax_ref u d e rst = inr rst' →
  NoDup (snapshot_locs (rs_animation_steps rst')).
Proof.
  intros Hsim Hnodup. destruct e as [v w]. unfold relax_ref.
  case_decide; [by intros [= <-]|].
  destruct (read_dict _ _ !! v) as [dn|]; [|done].
  destruct (dist_ltb (d + w) dn); intros [= <-]; [|done].
  exact (record_step_distinct _ _ u (Some (u, v))
           (sim_dict_setitem rst st v (Fin (d + w)) _ Hsim) Hnodup).
Qed.

Lemma for_neighbors_ref_distinct u d edges rst st rst' :
  sim rst st → NoDup (snapshot_locs (rs_animation_steps rst)) →
  for_neighbors_ref u d edges rst = inr rst' →
  NoDup (snapshot_locs (rs_animation_steps rst')).
Proof.
  revert rst st. induction edges as [|e edges IH]; intros rst st Hsim Hnodup;
    cbn [for_neighbors_ref].
  - by intros [= <-].
  - pose proof (relax_sim u d e rst st Hsim) as Hrelax.
    destruct (relax_ref u d e rst) as [|rst1] eqn:Href; [done|].
    destruct (relax u d e st) as [|st1]; [done|]. simpl in Hrelax.
    apply (IH rst1 st1 Hrelax).
    exact (relax_ref_distinct _ _ _ _ _ _ Hsim Hnodup Href).
Qed.

Lemma loop_body_ref_distinct graph rst st rst' :
  sim rst st → NoDup (snapshot_locs (rs_animation_steps rst)) →
  loop_body_ref graph rst = RefContinue rst' →
  NoDup (snapshot_locs (rs_animation_steps rst')).
Proof.
  intros Hsim Hnodup. unfold loop_body_ref.
  destruct (heappop (rs_priority_queue rst)) as [[[d u] rest]|]; [|done].
  case_decide; [by intros [= <-]|].
  destruct (graph !! u) as [edges|]; [|done].
  destruct (for_neighbors_ref u d edges (settle_ref u rest rst))
    as [|rst1] eqn:Hfor; [done|].
  intros [= <-].
  eapply (for_neighbors_ref_distinct _ _ _ _ _ _ (settle_sim u rest _ _ Hsim));
    [|exact Hfor].
  exact (record_step_distinct _ _ u None
           (sim_set_add rst st u rest Hsim) Hnodup).
Qed.

Lemma while_loop_ref_distinct graph fuel rst st result :
  sim rst st → NoDup (snapshot_locs (rs_animation_steps rst)) →
  while_loop_ref fuel graph rst = Returned result →
  NoDup (snapshot_locs result.2) ∧
  ∀ l, l ∈ snapshot_locs result.2 → l ≠ result.1.2 ∧ l ∈ dom result.1.1.
Proof.
  revert rst st. induction fuel as [|fuel IH]; intros rst st Hsim Hnodup;
    [done|].
  simpl. pose proof (loop_body_sim graph rst st Hsim) as Hsim'.
  destruct (loop_body_ref graph rst) as [r|rst1|] eqn:Hbody; [| |done].
  - intros [= <-]. apply loop_body_ref_RefBreak in Hbody as ->. simpl.
    split; [done|]. intros l Hl.
    by destruct (sim_snapshot_locs _ _ _ Hsim Hl) as (? & ? & _).
  - destruct (loop_body graph st) as [|st1|]; [done| |done]. simpl in Hsim'.
    apply (IH rst1 st1 Hsim').
    exact (loop_body_ref_distinct _ _ _ _ Hsim Hnodup Hbody).
Qed.

(** X12. No two snapshots share an object: the dictionaries and sets that
    the returned steps refer to are pairwise distinct objects of the final
    store, and none of them is the distance table that the call returns. *)
Theorem snapshot_objects_distinct graph start_node result :
  dijkstra_with_steps_ref graph start_node = Returned result →
  NoDup (snapshot_locs result.2) ∧
  ∀ l, l ∈ snapshot_locs result.2 → l ≠ result.1.2 ∧ l ∈ dom result.1.1.
Proof.
  apply (while_loop_ref_distinct _ _ _ _ _ (initial_sim graph start_node)).
  constructor.
Qed.

Lemma snapshot_objects_distinct_witness :
  NoDup (snapshot_locs
           (returned_or (∅, 1%positive, [])
              (dijkstra_with_steps_ref graph 0)).2) ∧
  ∀ l,
    l ∈ snapshot_locs
          (returned_or (∅, 1%positive, [])
             (dijkstra_with_steps_ref graph 0)).2 →
    l ≠ (returned_or (∅, 1%positive, [])
           (dijkstra_with_steps_ref graph 0)).1.2 ∧
    l ∈ dom (returned_or (∅, 1%positive, [])
               (dijkstra_with_steps_ref graph 0)).1.1.
Proof.
  apply (snapshot_objects_distinct graph 0).
  vm_compute. reflexivity.
Defined.

(** * The size of the recorded distances *)

Lemma abs_sum_nonneg edges : 0 ≤ abs_sum edges.
Proof. induction edges as [|e edges IH]; simpl; lia. Qed.

Lemma abs_sum_app l1 l2 : abs_sum (l1 ++ l2) = abs_sum l1 + abs_sum l2.
Proof. induction l1 as [|e l1 IH]; simpl; lia. Qed.

Lemma abs_sum_elem v w edges : (v, w) ∈ edges → Z.abs w ≤ abs_sum edges.
Proof.
  induction edges as [|e edges IH]; [by intros ?%elem_of_nil|].
  pose proof (abs_sum_nonneg edges).
  intros [<-|Hin]%elem_of_cons; simpl; [lia|]. specialize (IH Hin). lia.
Qed.

Lemma abs_weight_nonneg graph : 0 ≤ abs_weight graph.
Proof.
  unfold abs_weight. apply (map_fold_weak_ind (λ n _, 0 ≤ n)); [done|].
  intros k edges m n _ Hn. pose proof (abs_sum_nonneg edges). lia.
Qed.

Lemma abs_weight_lookup (graph : Graph) u edges :
  graph !! u = Some edges →
  abs_weight graph = abs_sum edges + abs_weight (delete u graph).
Proof.
  intros Hu. unfold abs_weight.
  apply (map_fold_delete_L (λ _ (edges : list (Z * Z)) (n : Z),
                              abs_sum edges + n)); [|done].
  intros. lia.
Qed.

Lemma abs_weight_edge (graph : Graph) u edges v w :
  graph !! u = Some edges → (v, w) ∈ edges → Z.abs w ≤ abs_weight graph.
Proof.
  intros Hu Hin. rewrite (abs_weight_lookup graph u edges Hu).
  pose proof (abs_weight_nonneg (delete u graph)).
  apply abs_sum_elem in Hin. lia.
Qed.

Lemma unvisited_weight_nonneg graph visited :
  0 ≤ unvisited_weight graph visited.
Proof. apply abs_weight_nonneg. Qed.

Lemma unvisited_weight_empty graph : unvisited_weight graph ∅ = abs_weight graph.
Proof.
  unfold unvisited_weight. f_equal. apply map_filter_id.
  intros i x _. simpl. set_solver.
Qed.

Lemma unvisited_weight_settle graph (visited : VisitedSet) u edges :
  graph !! u = Some edges → u ∉ visited →
  unvisited_weight graph visited
  = abs_sum edges + unvisited_weight graph ({[u]} ∪ visited).
Proof.
  intros Hu Hvis. unfold unvisited_weight.
  assert (filter (λ kv : Z * list (Z * Z), kv.1 ∉ {[u]} ∪ visited) graph
          = delete u (filter (λ kv : Z * list (Z * Z), kv.1 ∉ visited) graph))
    as ->.
  { apply map_eq. intros i. apply option_eq. intros x.
    rewrite map_lookup_filter_Some, lookup_delete_Some,
      map_lookup_filter_Some. simpl. set_solver. }
  apply abs_weight_lookup. by apply map_lookup_filter_Some.
Qed.

Lemma binv_initial graph start_node :
  binv graph start_node (AtWhile (initial_state graph start_node)).
Proof.
  split; simpl; try done.
  - intros d v [= -> ->]%list_elem_of_singleton.
    rewrite unvisited_weight_empty. lia.
  - intros v z. rewrite unvisited_weight_empty, lookup_insert.
    pose proof (abs_weight_nonneg graph).
    case_decide; [intros [= <-]; lia|].
    rewrite lookup_fmap. by destruct (graph !! v).
  - intros e v z ?%elem_of_nil. done.
Qed.

Lemma binv_step graph start_node p p' :
  binv graph start_node p → step graph p p' → binv graph start_node p'.
Proof.
  intros [Bqueue Bdist Bsteps Bcur] Hstep.
  destruct Hstep as [st d u rest Hpop Hu|st d u rest edges Hpop Hu Hgu
                    |u d pre [v w] todo st st' Hrelax|u d pre st];
    simpl in *.
  - (* a stale item is dropped *)
    apply heappop_perm in Hpop.
    split; simpl; try done.
    intros d' v' Hin. apply (Bqueue d' v'). rewrite Hpop. by right.
  - (* a vertex is settled *)
    apply heappop_perm in Hpop.
    pose proof (unvisited_weight_settle graph _ u edges Hgu Hu) as Hsettle.
    pose proof (abs_sum_nonneg edges).
    split; simpl.
    + intros d' v' Hin.
      assert ((d', v') ∈ st_priority_queue st) as Hin'
        by (rewrite Hpop; by right).
      specialize (Bqueue _ _ Hin'). lia.
    + intros v' z Hz. specialize (Bdist _ _ Hz). lia.
    + intros e v' z [He|He]%elem_of_app Hz.
      * specialize (Bsteps _ _ _ He Hz). lia.
      * apply list_elem_of_singleton in He as ->. simpl in Hz.
        specialize (Bdist _ _ Hz). lia.
    + assert ((d, u) ∈ st_priority_queue st) as Hin
        by (rewrite Hpop; left).
      specialize (Bqueue _ _ Hin). lia.
  - (* one edge is handled *)
    rewrite abs_sum_app in Bcur. simpl in Bcur.
    pose proof (abs_sum_nonneg pre). pose proof (abs_sum_nonneg todo).
    apply relax_inv in Hrelax as [[-> _]|(_ & _ & ->)]; simpl in *.
    { split; simpl; try done.
      rewrite <-app_assoc, abs_sum_app. simpl. lia. }
    split; simpl.
    + intros d' v' [[= -> ->]|Hin]%elem_of_cons; [lia|by apply (Bqueue d' v')].
    + intros v' z. rewrite lookup_insert.
      case_decide; [intros [= <-]; lia|apply (Bdist v')].
    + intros e v' z [He|He]%elem_of_app Hz; [by apply (Bsteps e v')|].
      apply list_elem_of_singleton in He as ->. simpl in Hz.
      rewrite lookup_insert in Hz.
      case_decide; [injection Hz as <-; lia|by apply (Bdist v')].
    + rewrite <-app_assoc, abs_sum_app. simpl. lia.
  - (* the edges of the vertex are exhausted *)
    by split.
Qed.

Lemma reach_binv graph start_node p :
  reach graph start_node p → binv graph start_node p.
Proof.
  revert p. apply reach_ind; [apply binv_initial|].
  intros p p' _ Hb Hstep. by eapply binv_step.
Qed.

(** * Properties of the player *)

Lemma for_each_inl {A B} (f : A → exn + B) l e :
  for_each f l = inl e → ∃ x, x ∈ l ∧ f x = inl e.
Proof.
  induction l as [|x l IH]; simpl; [done|].
  destruct (f x) as [e'|y] eqn:Hx.
  - intros [= ->]. exists x. split; [left|done].
  - destruct (for_each f l) as [e'|ys]; [|done].
    intros [= ->]. destruct (IH eq_refl) as (x' & ? & ?).
    exists x'. split; [by right|done].
Qed.

Lemma for_each_inr {A B} (f : A → exn + B) l :
  (∀ x, x ∈ l → ∃ y, f x = inr y) → ∃ ys, for_each f l = inr ys.
Proof.
  induction l as [|x l IH]; intros Hall; simpl; [by eauto|].
  destruct (Hall x) as [y ->]; [left|].
  destruct IH as [ys ->]; [|by eauto].
  intros x' Hx'. apply Hall. by right.
Qed.

Lemma for_each_Forall2 {A B} (f : A → exn + B) l ys :
  for_each f l = inr ys → Forall2 (λ x y, f x = inr y) l ys.
Proof.
  revert ys. induction l as [|x l IH]; intros ys; simpl.
  - intros [= <-]. constructor.
  - destruct (f x) as [|y] eqn:Hx; [done|].
    destruct (for_each f l) as [|ys']; [done|].
    intros [= <-]. constructor; [done|by apply IH].
Qed.

Lemma for_each_fmap {A B} (f : A → exn + B) (g : A → B) l :
  (∀ x, x ∈ l → f x = inr (g x)) → for_each f l = inr (g <$> l).
Proof.
  induction l as [|x l IH]; intros Hall; simpl; [done|].
  rewrite (Hall x) by left. rewrite IH; [done|].
  intros x' Hx'. apply Hall. by right.
Qed.

Lemma for_each_inr_fmap {A B} (f : A → exn + B) (g : A → B) l ys :
  (∀ x y, f x = inr y → y = g x) → for_each f l = inr ys → ys = g <$> l.
Proof.
  intros Hg Hfor. apply for_each_Forall2 in Hfor.
  induction Hfor as [|x y l ys Hxy _ IH]; simpl; [done|].
  by rewrite (Hg x y Hxy), IH.
Qed.

Lemma elem_of_sorted_items final_distances v d :
  (v, d) ∈ sorted_items final_distances ↔ final_distances !! v = Some d.
Proof.
  unfold sorted_items. rewrite merge_sort_Permutation.
  apply elem_of_map_to_list.
Qed.

Lemma for_each_length {A B} (f : A → exn + B) l ys :
  for_each f l = inr ys → length ys = length l.
Proof. intros Hfor%for_each_Forall2. symmetry. by eapply Forall2_length. Qed.

Lemma py_str_inr z : printable z → py_str z = inr (str z).
Proof. intros Hz. unfold py_str. by rewrite decide_True. Qed.

Lemma py_str_inv z r :
  py_str z = r →
  (printable z ∧ r = inr (str z)) ∨ (¬ printable z ∧ r = inl ValueError).
Proof. unfold py_str. case_decide; intros <-; auto. Qed.

(** The summary table, when it is built, is [table_data]; it is built
    when every distance of the table can be written. *)
Lemma build_table_inr final_distances t :
  build_table final_distances = inr t → t = table_data final_distances.
Proof.
  unfold build_table, table_data. apply for_each_inr_fmap.
  intros [v [z|]] row; simpl; [|by intros [= <-]].
  destruct (py_str_inv z _ eq_refl) as [[_ ->]|[_ ->]]; [|done].
  by intros [= <-].
Qed.

Lemma build_table_printable final_distances :
  (∀ v z, final_distances !! v = Some (Fin z) → printable z) →
  build_table final_distances = inr (table_data final_distances).
Proof.
  intros Hall. unfold build_table, table_data. apply for_each_fmap.
  intros [v [z|]] Hin%elem_of_sorted_items; simpl; [|done].
  by rewrite py_str_inr by by eapply Hall.
Qed.

Lemma make_node_labels_lookup nodes node_labels node :
  make_node_labels nodes = inr node_labels → node ∈ nodes →
  node_labels !! node = Some (str node).
Proof.
  unfold make_node_labels.
  destruct (for_each _ nodes) as [|labels] eqn:Hfor; [done|].
  intros [= <-].
  apply (for_each_inr_fmap _ (λ node, (node, str node))) in Hfor as ->.
  - induction nodes as [|n nodes IH]; [by intros ?%elem_of_nil|].
    simpl. rewrite lookup_insert. case_decide as Hn; [by subst|].
    intros [?|?]%elem_of_cons; [done|by apply IH].
  - intros n row.
    destruct (py_str_inv n _ eq_refl) as [[_ ->]|[_ ->]]; [|done].
    by intros [= <-].
Qed.

Lemma draw_edge_inl {position} (positions : gmap Z position) path u edge e :
  draw_edge positions path u edge = inl e →
  (∃ k, e = KeyError k ∧ positions !! k = None ∧ (k = u ∨ k = edge.1)) ∨
  (e = ValueError ∧ ¬ printable edge.2).
Proof.
  destruct edge as [v w]. unfold draw_edge.
  destruct (positions !! u) eqn:Hu; [|intros [= <-]; left; by eauto].
  destruct (positions !! v) eqn:Hv; [|intros [= <-]; left; by eauto].
  destruct (py_str_inv w _ eq_refl) as [[_ ->]|[Hw ->]]; [done|].
  intros [= <-]. by right.
Qed.

Lemma draw_node_inl {position} (positions : gmap Z position) node_labels
    step node e :
  draw_node positions node_labels step node = inl e →
  (e = KeyError node ∧
   (positions !! node = None ∨ node_labels !! node = None ∨
    distances step !! node = None)) ∨
  (e = ValueError ∧
   ∃ z, distances step !! node = Some (Fin z) ∧ ¬ printable z).
Proof.
  unfold draw_node.
  destruct (positions !! node) eqn:Hp; [|intros [= <-]; by auto].
  destruct (node_labels !! node) eqn:Hl; [|intros [= <-]; by auto].
  destruct (distances step !! node) as [[z|]|] eqn:Hd;
    [|done|intros [= <-]; by auto].
  destruct (py_str_inv z _ eq_refl) as [[_ ->]|[Hz ->]]; [done|].
  intros [= <-]. right. by eauto.
Qed.

Lemma draw_canvas_inl {position} items (positions : gmap Z position)
    node_labels step e :
  draw_canvas items positions node_labels step = inl e →
  ∃ u edges,
    (u, edges) ∈ items ∧
    ((∃ k, e = KeyError k ∧ positions !! k = None ∧
           (k = u ∨ k ∈ edges.*1)) ∨
     (e = KeyError u ∧
      (node_labels !! u = None ∨ distances step !! u = None)) ∨
     (e = ValueError ∧
      ((∃ v w, (v, w) ∈ edges ∧ ¬ printable w) ∨
       ∃ z, distances step !! u = Some (Fin z) ∧ ¬ printable z))).
Proof.
  unfold draw_canvas, draw_edges.
  destruct (for_each _ items) as [e'|drawn] eqn:Hedges.
  - intros [= ->].
    apply for_each_inl in Hedges as ([u edges] & Hin & Hitem). simpl in Hitem.
    apply for_each_inl in Hitem as ([v w] & Hedge & Hdraw).
    exists u, edges. split; [done|].
    apply draw_edge_inl in Hdraw as [(k & -> & Hk & Hcase)|[-> Hw]].
    + left. exists k. split_and!; [done..|].
      destruct Hcase as [->| ->]; [by left|right].
      apply list_elem_of_fmap. by exists (v, w).
    + right; right. split; [done|]. left. by eauto.
  - destruct (for_each _ items.*1) as [e'|nodes] eqn:Hnodes; [|done].
    intros [= ->].
    apply for_each_inl in Hnodes as (node & Hin & Hdraw).
    apply list_elem_of_fmap in Hin as ([u edges] & -> & Hin).
    exists u, edges. split; [done|]. simpl in Hdraw.
    apply draw_node_inl in Hdraw as [[-> Hk]|[-> Hz]].
    + destruct Hk as [Hk|Hk]; [|by auto].
      left. exists u. by auto.
    + by auto.
Qed.

(** A canvas has the edges of every item and a node for every item. *)
Lemma draw_canvas_inr {position} items (positions : gmap Z position)
    node_labels step canvas :
  draw_canvas items positions node_labels step = inr canvas →
  Forall2 (λ (item : Z * list (Z * Z)) drawn, length drawn = length item.2)
    items canvas.1 ∧
  length canvas.2 = length items.
Proof.
  unfold draw_canvas, draw_edges.
  destruct (for_each _ items) as [|edges] eqn:Hedges; [done|].
  destruct (for_each _ items.*1) as [|nodes] eqn:Hnodes; [done|].
  intros [= <-]. simpl. split.
  - apply for_each_Forall2 in Hedges.
    eapply Forall2_impl; [exact Hedges|].
    intros item drawn. apply for_each_length.
  - apply for_each_length in Hnodes. by rewrite Hnodes, length_fmap.
Qed.

(** The items of a dictionary have distinct keys, so that the dictionary
    gives the edges of every item. *)
Lemma items_lookup (items : list (Z * list (Z * Z))) u edges :
  NoDup items.*1 → (u, edges) ∈ items →
  (list_to_map items : Graph) !! u = Some edges.
Proof. intros Hnodup Hin. by apply elem_of_list_to_map_1. Qed.

(** Why a step of a run cannot be drawn: a position is missing, or a
    weight is too large to be written. *)
Lemma run_canvas_inl {position} items (positions : gmap Z position)
    node_labels start_node final_distances animation_steps step e :
  NoDup items.*1 →
  make_node_labels items.*1 = inr node_labels →
  dijkstra_with_steps (list_to_map items) start_node
  = Returned (final_distances, animation_steps) →
  step ∈ animation_steps →
  draw_canvas items positions node_labels step = inl e →
  (∃ k, e = KeyError k ∧ positions !! k = None ∧
        ∃ u edges, (u, edges) ∈ items ∧ (k = u ∨ k ∈ edges.*1)) ∨
  (e = ValueError ∧ str_limit ≤ abs_weight (list_to_map items)).
Proof.
  intros Hnodup Hlabels (st & Hreach & _ & -> & ->)%returned_reach Hstep.
  intros (u & edges & Hin & Hcase)%draw_canvas_inl.
  pose proof (items_lookup items u edges Hnodup Hin) as Hu.
  destruct Hcase as [(k & -> & Hk & Hcase)|[[-> Hcase]|[-> Hcase]]].
  - left. exists k. split_and!; [done..|]. by exists u, edges.
  - exfalso. destruct Hcase as [Hk|Hk].
    + rewrite (make_node_labels_lookup _ _ u Hlabels) in Hk; [done|].
      apply list_elem_of_fmap. by exists (u, edges).
    + apply not_elem_of_dom in Hk.
      rewrite (linv_dom _ _ _ (reach_linv _ _ _ Hreach) step Hstep) in Hk.
      apply Hk, elem_of_union_r, elem_of_dom. by eauto.
  - right. split; [done|].
    destruct Hcase as [(v & w & Hedge & Hw)|(z & Hz & Hprint)].
    + pose proof (abs_weight_edge _ u edges v w Hu Hedge).
      unfold printable in Hw. lia.
    + pose proof (binv_steps _ _ _ (reach_binv _ _ _ Hreach) step u z
                    Hstep Hz) as Hbound.
      simpl in Hbound.
      pose proof (unvisited_weight_nonneg (list_to_map items)
                    (st_visited_nodes st)).
      unfold printable in Hprint. lia.
Qed.

(** The distances that a run returns can be written when the weights of
    the graph can. *)
Lemma run_table graph start_node final_distances animation_steps :
  abs_weight graph < str_limit →
  dijkstra_with_steps graph start_node
  = Returned (final_distances, animation_steps) →
  build_table final_distances = inr (table_data final_distances).
Proof.
  intros Hlimit (st & Hreach & _ & -> & ->)%returned_reach.
  apply build_table_printable. intros v z Hz.
  pose proof (binv_distances _ _ _ (reach_binv _ _ _ Hreach) v z Hz)
    as Hbound.
  simpl in Hbound.
  pose proof (unvisited_weight_nonneg graph (st_visited_nodes st)).
  unfold printable. lia.
Qed.

Lemma layout_covers_lookup {position} items (positions : gmap Z position)
    u edges k :
  layout_covers items positions → (u, edges) ∈ items →
  k = u ∨ k ∈ edges.*1 → is_Some (positions !! k).
Proof.
  unfold layout_covers. rewrite Forall_forall. intros Hlayout Hin Hk.
  destruct (Hlayout _ Hin) as [Hu Hedges]. simpl in Hu, Hedges.
  rewrite Forall_forall in Hedges.
  destruct Hk as [->|Hk]; [done|].
  apply list_elem_of_fmap in Hk as (edge & -> & Hedge). by apply Hedges.
Qed.

(** Every step of a run can be drawn when the layout covers the graph and
    the weights can be written. *)
Lemma run_canvas_inr {position} items (positions : gmap Z position)
    node_labels start_node final_distances animation_steps step :
  NoDup items.*1 →
  layout_covers items positions →
  make_node_labels items.*1 = inr node_labels →
  abs_weight (list_to_map items) < str_limit →
  dijkstra_with_steps (list_to_map items) start_node
  = Returned (final_distances, animation_steps) →
  step ∈ animation_steps →
  ∃ canvas, draw_canvas items positions node_labels step = inr canvas.
Proof.
  intros Hnodup Hlayout Hlabels Hlimit Hrun Hstep.
  destruct (draw_canvas items positions node_labels step) as [e|canvas]
    eqn:Hdraw; [|by eauto].
  exfalso.
  destruct (run_canvas_inl _ _ _ _ _ _ _ _ Hnodup Hlabels Hrun Hstep Hdraw)
    as [(k & _ & Hk & u & edges & Hin & Hcase)|[_ Hlarge]]; [|lia].
  destruct (layout_covers_lookup _ _ _ _ k Hlayout Hin Hcase) as [pos Hpos].
  by rewrite Hk in Hpos.
Qed.

(** What [update] gives for an index: nothing past the end, and else what
    [draw_graph] gives for the step of that index. *)
Lemma update_inv {position} items (positions : gmap Z position) node_labels
    animation_steps final_distances (frame_index : nat) r :
  update items positions node_labels animation_steps final_distances
    frame_index = r →
  ((length animation_steps ≤ frame_index)%nat ∧ r = inr None) ∨
  ∃ step,
    animation_steps !! frame_index = Some step ∧
    match draw_graph items positions node_labels final_distances step
            (bool_decide (Z.of_nat frame_index
                          = Z.of_nat (length animation_steps) - 1)) with
    | inl e => r = inl e
    | inr f => r = inr (Some f)
    end.
Proof.
  unfold update. case_decide as Hlt; [|intros <-; left; split; [lia|done]].
  destruct (lookup_lt_is_Some_2 animation_steps frame_index Hlt)
    as [step Hstep].
  rewrite Hstep. intros <-. right. exists step. split; [done|].
  by destruct (draw_graph _ _ _ _ _ _).
Qed.

Lemma draw_graph_inr {position} items (positions : gmap Z position)
    node_labels final_distances step is_final_frame f :
  draw_graph items positions node_labels final_distances step is_final_frame
  = inr f →
  frame_step f = step ∧
  draw_canvas items positions node_labels step = inr (frame_canvas f) ∧
  frame_table f
  = if is_final_frame then Some (table_data final_distances) else None.
Proof.
  unfold draw_graph.
  destruct (draw_canvas items positions node_labels step) as [|canvas];
    [done|].
  destruct is_final_frame; [|by intros [= <-]].
  destruct (build_table final_distances) as [|t] eqn:Htable; [done|].
  apply build_table_inr in Htable as ->. by intros [= <-].
Qed.

Lemma update_inr {position} items (positions : gmap Z position) node_labels
    animation_steps final_distances (frame_index : nat) f :
  update items positions node_labels animation_steps final_distances
    frame_index = inr (Some f) →
  animation_steps !! frame_index = Some (frame_step f) ∧
  draw_canvas items positions node_labels (frame_step f)
  = inr (frame_canvas f) ∧
  frame_table f
  = if decide (Z.of_nat frame_index = Z.of_nat (length animation_steps) - 1)
    then Some (table_data final_distances) else None.
Proof.
  intros [[_ [=]]|(step & Hstep & Hdraw)]%update_inv.
  destruct (draw_graph _ _ _ _ _ _) as [|f'] eqn:Hf; [done|].
  injection Hdraw as <-.
  apply draw_graph_inr in Hf as (<- & Hcanvas & Htable).
  split_and!; [done..|]. rewrite Htable.
  by case_bool_decide; [rewrite decide_True|rewrite decide_False].
Qed.

(** Every frame of a run is drawn when the layout covers the graph and
    the weights can be written. *)
Lemma run_update {position} items (positions : gmap Z position)
    node_labels start_node final_distances animation_steps
    (frame_index : nat) step :
  NoDup items.*1 →
  layout_covers items positions →
  make_node_labels items.*1 = inr node_labels →
  abs_weight (list_to_map items) < str_limit →
  dijkstra_with_steps (list_to_map items) start_node
  = Returned (final_distances, animation_steps) →
  animation_steps !! frame_index = Some step →
  ∃ f, update items positions node_labels animation_steps final_distances
         frame_index = inr (Some f).
Proof.
  intros Hnodup Hlayout Hlabels Hlimit Hrun Hstep.
  destruct (update_inv items positions node_labels animation_steps
              final_distances frame_index _ eq_refl)
    as [[Hlen _]|(step' & Hstep' & Hdraw)].
  { apply lookup_lt_Some in Hstep. lia. }
  rewrite Hstep in Hstep'. injection Hstep' as <-.
  unfold draw_graph in Hdraw.
  destruct (run_canvas_inr items positions node_labels start_node
              final_distances animation_steps step)
    as [canvas Hcanvas]; [done..|by eapply list_elem_of_lookup_2|].
  rewrite Hcanvas in Hdraw.
  rewrite (run_table _ _ _ _ Hlimit Hrun) in Hdraw.
  destruct (bool_decide _); eexists; exact Hdraw.
Qed.

(** ** C9: the summary table *)

Lemma str_not_infinity z : str z ≠ "infinity".
Proof.
  unfold str. destruct (Z.to_int z) as [d|d]; simpl.
  - by destruct d.
  - done.
Qed.

Lemma StronglySorted_lt_fst {A} (l : list (Z * A)) :
  StronglySorted (λ x y, x.1 ≤ y.1) l → NoDup l.*1 →
  StronglySorted (λ x y, x.1 < y.1) l.
Proof.
  induction 1 as [|x l Hl IH Hx]; intros Hnodup; [constructor|].
  apply NoDup_cons in Hnodup as [Hnotin Hnodup].
  constructor; [by apply IH|].
  rewrite Forall_forall in Hx |- *. intros y Hy.
  specialize (Hx y Hy).
  assert (x.1 ≠ y.1); [|lia].
  intros Heq. apply Hnotin. rewrite Heq.
  apply list_elem_of_fmap. by exists y.
Qed.

Lemma sorted_items_sorted final_distances :
  StronglySorted (λ x y, x.1 < y.1) (sorted_items final_distances).
Proof.
  apply StronglySorted_lt_fst.
  - assert (Transitive item_le) by (intros x y z; unfold item_le; lia).
    assert (Total item_le) by (intros x y; unfold item_le; lia).
    apply (StronglySorted_merge_sort item_le).
  - unfold sorted_items. rewrite merge_sort_Permutation.
    apply NoDup_fst_map_to_list.
Qed.

(** C9. Whenever the player draws a frame, the index of the frame is
    below [len(animation_steps)] and the frame carries the summary table if
    its index is [len(animation_steps) - 1] and no table otherwise. For the
    steps and the table of a run on the graph, with a layout that covers
    the graph and weights that can be written, there is a frame of index
    [len(animation_steps) - 1] and every frame is drawn, from the step of
    its index, with the table on that frame and on no other. The table has
    one row for every vertex of the final distance table, with its
    distance as text, the rows are in ascending order of the vertex, and a
    vertex whose final distance is the infinite value gets the text
    ["infinity"], which is not the text of any number. *)
Theorem summary_table {position} items (node_positions : gmap Z position)
    node_labels animation_steps final_distances :
  (∀ (frame_index : nat) f,
     update items node_positions node_labels animation_steps final_distances
       frame_index = inr (Some f) →
     (frame_index < length animation_steps)%nat ∧
     frame_table f
     = if decide (Z.of_nat frame_index
                  = Z.of_nat (length animation_steps) - 1)
       then Some (table_data final_distances) else None) ∧
  (∀ start_node,
     NoDup items.*1 →
     layout_covers items node_positions →
     make_node_labels items.*1 = inr node_labels →
     abs_weight (list_to_map items) < str_limit →
     dijkstra_with_steps (list_to_map items) start_node
     = Returned (final_distances, animation_steps) →
     (0 < length animation_steps)%nat ∧
     ∀ (frame_index : nat) step,
       animation_steps !! frame_index = Some step →
       ∃ f, update items node_positions node_labels animation_steps
              final_distances frame_index = inr (Some f) ∧
            frame_step f = step ∧
            frame_table f
            = if decide (Z.of_nat frame_index
                         = Z.of_nat (length animation_steps) - 1)
              then Some (table_data final_distances) else None) ∧
  (∀ v s, (v, s) ∈ table_data final_distances ↔
          ∃ d, final_distances !! v = Some d ∧ s = distance_str d) ∧
  StronglySorted (λ r1 r2, r1.1 < r2.1) (table_data final_distances) ∧
  distance_str Inf = "infinity" ∧
  (∀ z, distance_str (Fin z) = str z ∧ str z ≠ "infinity").
Proof.
  split_and!.
  - intros frame_index f (Hstep & _ & Htable)%update_inr.
    split; [by eapply lookup_lt_Some|done].
  - intros start_node Hnodup Hlayout Hlabels Hlimit Hrun. split.
    + pose proof Hrun as (st & Hreach & Hq & _ & ->)%returned_reach.
      pose proof (returned_nonempty _ _ _ Hreach Hq).
      destruct (st_animation_steps st); [done|simpl; lia].
    + intros frame_index step Hstep.
      destruct (run_update items node_positions node_labels start_node
                  final_distances animation_steps frame_index step
                  Hnodup Hlayout Hlabels Hlimit Hrun Hstep) as [f Hf].
      exists f. split; [done|].
      apply update_inr in Hf as (Hstep' & _ & Htable).
      rewrite Hstep in Hstep'. by injection Hstep' as ->.
  - intros v s. unfold table_data. rewrite list_elem_of_fmap. split.
    + intros ([v' d] & [= -> ->] & Hin%elem_of_sorted_items). eauto.
    + intros (d & Hd & ->). exists (v, d).
      split; [done|]. by apply elem_of_sorted_items.
  - unfold table_data.
    eapply StronglySorted_fmap; [|apply sorted_items_sorted].
    by intros [??] [??].
  - done.
  - intros z. split; [done|apply str_not_infinity].
Qed.

(** On the sample graph with the layout of the program every frame is
    drawn, the last one with the table of the returned distances. *)
Lemma summary_table_witness :
  make_node_labels graph_items.*1 = inr sample_labels ∧
  dijkstra_with_steps (list_to_map graph_items) 0
  = Returned (sample_result.1, sample_result.2) ∧
  (0 < length sample_result.2)%nat ∧
  ∀ (frame_index : nat) step,
    sample_result.2 !! frame_index = Some step →
    ∃ f, update graph_items node_positions sample_labels sample_result.2
           sample_result.1 frame_index = inr (Some f) ∧
         frame_step f = step ∧
         frame_table f
         = if decide (Z.of_nat frame_index
                      = Z.of_nat (length sample_result.2) - 1)
           then Some (table_data sample_result.1) else None.
Proof.
  split; [vm_compute; reflexivity|].
  split; [vm_compute; reflexivity|].
  apply (proj1 (proj2 (summary_table graph_items node_positions sample_labels
                         sample_result.2 sample_result.1)) 0).
  - apply (bool_decide_unpack _). vm_compute. exact I.
  - apply (bool_decide_unpack _). vm_compute. exact I.
  - vm_compute. reflexivity.
  - apply (bool_decide_unpack _). vm_compute. exact I.
  - vm_compute. reflexivity.
Defined.

(** The final table of the scenario of §8. *)
Example scenario_table :
  ∃ final_distances animation_steps,
    dijkstra_with_steps scenario_graph 0
    = Returned (final_distances, animation_steps) ∧
    table_data final_distances = [(0, "0"); (1, "6"); (2, "1"); (3, "7")]%string.
Proof. eexists _, _. split; vm_compute; reflexivity. Qed.

(** ** When a frame can be drawn *)

(** X13. Drawing a step of a run on the graph fails in two ways only: with
    [KeyError] for a vertex of the graph, or a neighbor listed in it, that
    has no position in the layout, or with [ValueError] when the absolute
    values of the weights of the graph add up to a number of more than
    4300 digits. The labels of the nodes and the distance snapshot of the
    step never lack a vertex of the graph. *)
Theorem draw_canvas_raises {position} items (positions : gmap Z position)
    node_labels start_node final_distances animation_steps step e :
  NoDup items.*1 →
  make_node_labels items.*1 = inr node_labels →
  dijkstra_with_steps (list_to_map items) start_node
  = Returned (final_distances, animation_steps) →
  step ∈ animation_steps →
  draw_canvas items positions node_labels step = inl e →
  (∃ k, e = KeyError k ∧ positions !! k = None ∧
        ∃ u edges, (u, edges) ∈ items ∧ (k = u ∨ k ∈ edges.*1)) ∨
  (e = ValueError ∧ str_limit ≤ abs_weight (list_to_map items)).
Proof. apply run_canvas_inl. Qed.

Lemma draw_canvas_raises_witness :
  first_step graph 0 ∈ sample_result.2 ∧
  draw_canvas graph_items (delete 7 node_positions) sample_labels
    (first_step graph 0) = inl (KeyError 7) ∧
  ((∃ k, KeyError 7 = KeyError k ∧ delete 7 node_positions !! k = None ∧
         ∃ u edges, (u, edges) ∈ graph_items ∧ (k = u ∨ k ∈ edges.*1)) ∨
   (KeyError 7 = ValueError ∧ str_limit ≤ abs_weight (list_to_map graph_items))).
Proof.
  assert (first_step graph 0 ∈ sample_result.2) as Hstep.
  { apply (list_elem_of_lookup_2 _ 0%nat). vm_compute. reflexivity. }
  split; [exact Hstep|].
  split; [vm_compute; reflexivity|].
  apply (draw_canvas_raises graph_items (delete 7 node_positions)
           sample_labels 0 sample_result.1 sample_result.2
           (first_step graph 0) (KeyError 7)).
  - apply (bool_decide_unpack _). vm_compute. exact I.
  - vm_compute. reflexivity.
  - vm_compute. reflexivity.
  - exact Hstep.
  - vm_compute. reflexivity.
Defined.

(** X14. When the layout has a position for every vertex and every
    neighbor of the graph, the labels of the nodes could be made, and the
    absolute values of the weights add up to a number of at most 4300
    digits, every frame of a run on the graph is drawn, from the step of
    its index, with every edge and every node of the graph on it: no frame
    raises. *)
Theorem draw_canvas_succeeds {position} items (positions : gmap Z position)
    node_labels start_node final_distances animation_steps :
  NoDup items.*1 →
  layout_covers items positions →
  make_node_labels items.*1 = inr node_labels →
  abs_weight (list_to_map items) < str_limit →
  dijkstra_with_steps (list_to_map items) start_node
  = Returned (final_distances, animation_steps) →
  ∀ (frame_index : nat) step,
    animation_steps !! frame_index = Some step →
    ∃ f,
      update items positions node_labels animation_steps final_distances
        frame_index = inr (Some f) ∧
      frame_step f = step ∧
      draw_canvas items positions node_labels step
      = inr (frame_canvas f) ∧
      Forall2 (λ (item : Z * list (Z * Z)) drawn,
                 length drawn = length item.2)
        items (frame_canvas f).1 ∧
      length (frame_canvas f).2 = length items.
Proof.
  intros Hnodup Hlayout Hlabels Hlimit Hrun frame_index step Hstep.
  destruct (run_update items positions node_labels start_node
              final_distances animation_steps frame_index step)
    as [f Hf]; [done..|].
  exists f. split; [done|].
  apply update_inr in Hf as (Hstep' & Hcanvas & _).
  rewrite Hstep in Hstep'. injection Hstep' as ->.
  split_and!; [done..| |]; by apply draw_canvas_inr in Hcanvas as [??].
Qed.

Lemma draw_canvas_succeeds_witness :
  make_node_labels graph_items.*1 = inr sample_labels ∧
  dijkstra_with_steps (list_to_map graph_items) 0
  = Returned (sample_result.1, sample_result.2) ∧
  (∀ (frame_index : nat) step,
    sample_result.2 !! frame_index = Some step →
    ∃ f,
      update graph_items node_positions sample_labels sample_result.2
        sample_result.1 frame_index = inr (Some f) ∧
      frame_step f = step ∧
      draw_canvas graph_items node_positions sample_labels step
      = inr (frame_canvas f) ∧
      Forall2 (λ (item : Z * list (Z * Z)) drawn,
                 length drawn = length item.2)
        graph_items (frame_canvas f).1 ∧
      length (frame_canvas f).2 = length graph_items).
Proof.
  split; [vm_compute; reflexivity|].
  split; [vm_compute; reflexivity|].
  apply (draw_canvas_succeeds graph_items node_positions sample_labels 0
           sample_result.1 sample_result.2).
  - apply (bool_decide_unpack _). vm_compute. exact I.
  - apply (bool_decide_unpack _). vm_compute. exact I.
  - vm_compute. reflexivity.
  - apply (bool_decide_unpack _). vm_compute. exact I.
  - vm_compute. reflexivity.
Defined.

(** Without a position for vertex 7 the last frame of the run on the
    sample graph is not drawn: the edge from vertex 4 to vertex 7 raises
    before the table is built. *)
Example missing_position_raises :
  update graph_items (delete 7 node_positions) sample_labels sample_result.2
    sample_result.1 (length sample_result.2 - 1)
  = inl (KeyError 7).
Proof. vm_compute. reflexivity. Qed.

(** With a weight of 4301 digits the run returns and no frame is drawn:
    the text of the weight cannot be made. *)
Example large_weight_raises :
  ∃ node_labels final_distances animation_steps,
    make_node_labels [0; 1] = inr node_labels ∧
    dijkstra_with_steps (list_to_map [(0, [(1, str_limit)]); (1, [])]) 0
    = Returned (final_distances, animation_steps) ∧
    update [(0, [(1, str_limit)]); (1, [])] node_positions node_labels
      animation_steps final_distances 0
    = inl ValueError.
Proof. eexists _, _, _. split_and!; vm_compute; reflexivity. Qed.

(** ** What a frame shows *)

(** X15. In every frame of a run the vertex drawn with the red ring is
    drawn as visited, every vertex drawn as visited shows a distance, and a
    red edge has the vertex with the red ring at one of its ends. *)
Theorem frame_marks {position} (positions : gmap Z position) node_labels
    graph start_node final_distances animation_steps :
  dijkstra_with_steps graph start_node
  = Returned (final_distances, animation_steps) →
  ∀ step, step ∈ animation_steps →
    (∀ node nd,
       draw_node positions node_labels step node = inr nd →
       (nd_ring nd = "red" → nd_color nd = "#4caf50") ∧
       (nd_color nd = "#4caf50" → is_Some (nd_distance nd))) ∧
    (∀ u edge ed,
       draw_edge positions (visited_path step) u edge = inr ed →
       ed_color ed = "red" →
       u = visited_node step ∨ edge.1 = visited_node step).
Proof.
  intros (st & Hreach & _ & -> & ->)%returned_reach step Hstep.
  pose proof (reach_linv _ _ _ Hreach) as Hl.
  split.
  - intros node nd. unfold draw_node.
    destruct (positions !! node); [|done].
    destruct (node_labels !! node); [|done].
    assert (node = visited_node step → node ∈ visited_nodes_set step)
      as Hring.
    { intros ->. by apply (linv_node _ _ _ Hl). }
    destruct (distances step !! node) as [[z|]|] eqn:Hd; [| |done].
    + destruct (py_str z); [done|].
      intros [= <-]. simpl. split; [|by eauto].
      case_decide as Hnode; [|done]. intros _.
      by rewrite decide_True by auto.
    + intros [= <-]. simpl. split.
      * case_decide as Hnode; [|done]. intros _.
        by rewrite decide_True by auto.
      * case_decide as Hvisited; [|done]. intros _.
        destruct (linv_finite _ _ _ Hl step node Hstep Hvisited) as [z Hz].
        by rewrite Hz in Hd.
  - intros u [v w] ed. unfold draw_edge.
    destruct (positions !! u); [|done].
    destruct (positions !! v); [|done].
    destruct (py_str w); [done|].
    intros [= <-]. simpl. unfold edge_highlighted.
    destruct (visited_path step) as [[a b]|] eqn:Hpath; [|done].
    pose proof (linv_edge _ _ _ Hl step a b Hstep Hpath) as ->.
    do 2 case_bool_decide; simplify_eq; simpl; auto; done.
Qed.

Lemma frame_marks_witness :
  dijkstra_with_steps graph 0
  = Returned (sample_result.1, sample_result.2) ∧
  (∀ step, step ∈ sample_result.2 →
    (∀ node nd,
       draw_node node_positions sample_labels step node = inr nd →
       (nd_ring nd = "red" → nd_color nd = "#4caf50") ∧
       (nd_color nd = "#4caf50" → is_Some (nd_distance nd))) ∧
    (∀ u edge ed,
       draw_edge node_positions (visited_path step) u edge = inr ed →
       ed_color ed = "red" →
       u = visited_node step ∨ edge.1 = visited_node step)).
Proof.
  split; [vm_compute; reflexivity|].
  apply (frame_marks node_positions sample_labels graph 0
           sample_result.1 sample_result.2).
  vm_compute. reflexivity.
Defined.

Lemma elem_of_table_data final_distances v s :
  (v, s) ∈ table_data final_distances →
  ∃ d, final_distances !! v = Some d ∧ s = distance_str d.
Proof.
  unfold table_data.
  intros ([v' d] & [= -> ->] & Hin%elem_of_sorted_items)%list_elem_of_fmap.
  eauto.
Qed.

(** X16. The frame that carries the summary table is drawn from the last
    recorded step, and the distances on its nodes agree with the table: a
    vertex whose row says ["infinity"] has no distance label, and any other
    vertex has the label ["d="] followed by the text of its row. *)
Theorem final_frame_agrees {position} items (positions : gmap Z position)
    node_labels graph start_node final_distances animation_steps :
  dijkstra_with_steps graph start_node
  = Returned (final_distances, animation_steps) →
  ∀ (frame_index : nat) f t,
    update items positions node_labels animation_steps final_distances
      frame_index = inr (Some f) →
    frame_table f = Some t →
    last animation_steps = Some (frame_step f) ∧
    ∀ node nd s,
      draw_node positions node_labels (frame_step f) node = inr nd →
      (node, s) ∈ t →
      nd_distance nd
      = if decide (s = "infinity") then None else Some ("d=" +:+ s).
Proof.
  intros (st & Hreach & _ & -> & ->)%returned_reach frame_index f t.
  intros (Hstep & _ & Htable)%update_inr Ht.
  rewrite Htable in Ht. case_decide as Hfinal; [|done].
  injection Ht as <-.
  assert (last (st_animation_steps st) = Some (frame_step f)) as Hlast.
  { rewrite last_lookup, <-Hstep. f_equal. lia. }
  split; [done|].
  pose proof (xinv_last _ _ _ (reach_xinv _ _ _ Hreach)) as Hx.
  simpl in Hx. rewrite Hlast in Hx. destruct Hx as [Hd _].
  intros node nd s Hdraw (d & Hnode & ->)%elem_of_table_data.
  unfold draw_node in Hdraw.
  destruct (positions !! node); [|done].
  destruct (node_labels !! node); [|done].
  rewrite Hd, Hnode in Hdraw.
  destruct d as [z|]; simpl.
  - destruct (py_str_inv z _ eq_refl) as [[_ Hz]|[_ Hz]];
      rewrite Hz in Hdraw; [|done].
    injection Hdraw as <-. simpl.
    rewrite decide_False; [done|apply str_not_infinity].
  - by injection Hdraw as <-.
Qed.

Lemma final_frame_agrees_witness :
  dijkstra_with_steps graph 0
  = Returned (sample_result.1, sample_result.2) ∧
  (∀ (frame_index : nat) f t,
    update graph_items node_positions sample_labels sample_result.2
      sample_result.1 frame_index = inr (Some f) →
    frame_table f = Some t →
    last sample_result.2 = Some (frame_step f) ∧
    ∀ node nd s,
      draw_node node_positions sample_labels (frame_step f) node = inr nd →
      (node, s) ∈ t →
      nd_distance nd
      = if decide (s = "infinity") then None else Some ("d=" +:+ s)).
Proof.
  split; [vm_compute; reflexivity|].
  apply (final_frame_agrees graph_items node_positions sample_labels graph 0
           sample_result.1 sample_result.2).
  vm_compute. reflexivity.
Defined.

(** * Properties that hold whatever the weights *)

(** X17. Whatever the signs of the weights, the returned table has the
    vertices of the graph as its keys, the vertices with a finite distance
    are the vertices that can be reached from the start, and a finite
    distance is the weight of a path from the start to the vertex. *)
Theorem distances_are_path_weights graph start_node final_distances
    animation_steps :
  dijkstra_with_steps graph start_node
  = Returned (final_distances, animation_steps) →
  dom final_distances = dom graph ∧
  (∀ v, (∃ z, final_distances !! v = Some (Fin z)) ↔
        reachable graph start_node v) ∧
  (∀ v z, final_distances !! v = Some (Fin z) → path graph start_node v z).
Proof.
  intros (st & Hreach & Hempty & -> & ->)%returned_reach.
  pose proof (reach_ginv _ _ _ Hreach) as Hg.
  pose proof (final_visited _ _ _ Hreach Hempty) as Hvisited.
  split_and!.
  - rewrite (ginv_dom _ _ _ Hg : dom (st_distances st) = _).
    assert (start_node ∈ dom graph); [|set_solver].
    apply elem_of_dom, (ginv_visited _ _ _ Hg), Hvisited.
    exists 0. apply path_nil.
  - intros v. split.
    + intros [z Hz]. exists z. by apply (ginv_path _ _ _ Hg).
    + intros Hv%Hvisited. by apply (ginv_visited _ _ _ Hg).
  - apply (ginv_path _ _ _ Hg).
Qed.

Lemma distances_are_path_weights_witness :
  dom (returned_or (∅, []) (dijkstra_with_steps negative_graph 0)).1
  = dom negative_graph ∧
  (∀ v, (∃ z, (returned_or (∅, []) (dijkstra_with_steps negative_graph 0)).1
              !! v = Some (Fin z)) ↔
        reachable negative_graph 0 v) ∧
  (∀ v z, (returned_or (∅, []) (dijkstra_with_steps negative_graph 0)).1
          !! v = Some (Fin z) → path negative_graph 0 v z).
Proof.
  apply (distances_are_path_weights negative_graph 0 _
           (returned_or (∅, []) (dijkstra_with_steps negative_graph 0)).2).
  vm_compute. reflexivity.
Defined.

(** * The whole program *)


